(** * go-islist: an interval skip list, embedded and verified

    The Go package [islist] keeps intervals in a skip list whose level
    records carry a forward pointer and a span.  This file embeds the
    package shallowly: nodes live in an arena addressed by natural numbers
    (a Go [*Node] is an address, [nil] is [None]), every Go loop becomes a
    recursive function, and the operations thread the arena explicitly.

    Conventions of the embedding.
    - Go [int] and [int64] values are [Z].  The counters of the list
      ([length], [maxLevel], spans, distances) are bounded by the number of
      allocated nodes, so no 64-bit wrap-around can occur and none is
      written out.
    - A level index used to subscript a slice is a [nat]; the loop
      [for i = hi; i >= 0; i--] runs over [hi, hi-1, ..., 0] and the loop
      [for i := 0; i < hi; i++] over [0, ..., hi-1].
    - Unbounded [for] loops take a [fuel : nat]; a result of [None] means
      that the run did not return normally (a Go run-time panic such as a
      nil dereference or an index out of range, or exhausted fuel). *)

From Stdlib Require Import ZArith Ascii String Lia Bool DecimalString.
From stdpp Require Import base option list sorting.

Local Open Scope Z_scope.

(** ** interval_key.go *)

Record IntervalKey := mkIntervalKey { Start : Z; End : Z; Key : string }.

(** The zero value [IntervalKey{}]. *)
Definition zeroKey : IntervalKey := {| Start := 0; End := 0; Key := "" |}.

(** Errors built with [fmt.Errorf] in this package, one constructor per
    call site, carrying the formatted index. *)
Inductive error :=
| ErrIndexOutOfBounds (index : Z)
| ErrNodeNotFound (index : Z).

(** How a call of a Go function ends: it returns a value, it returns a
    non-nil [error], or it panics with a message. *)
Inductive result (A : Type) :=
| Ok (a : A)
| Err (e : error)
| Panic (msg : string).
Arguments Ok {A} a.
Arguments Err {A} e.
Arguments Panic {A} msg.

Definition NewIntervalKey (start end_ : Z) (key : string) : result IntervalKey :=
  if (start <? 0) || (end_ <? 0) || (start >? end_) then
    Panic "interval Start and End must be a positive number and Start must be < End"
  else Ok {| Start := start; End := end_; Key := key |}.

Definition NewIntervalQuery (start end_ : Z) : result IntervalKey :=
  NewIntervalKey start end_ "".

Definition equalInterval (i i2 : IntervalKey) : bool :=
  (Start i =? Start i2) && (End i =? End i2).

Definition less (a b : IntervalKey) : bool :=
  if Start a <? Start b then true
  else if Start a >? Start b then false
  else End a <? End b.

(** ** node.go *)

Abbreviation addr := nat (only parsing).

Record nodeLevel := mkLevel { next : option addr; span : Z }.

(** A node.  [levels] is the visible slice; [spare] holds the elements of
    its backing array between [len(levels)] and [cap(levels)], which
    re-slicing can expose again. *)
Record Node := mkNode {
  intervalKey : IntervalKey;
  levels : list nodeLevel;
  spare : list nodeLevel }.

Definition zeroLevel : nodeLevel := {| next := None; span := 0 |}.

(** The zero value [Node{}]. *)
Definition zeroNode : Node :=
  {| intervalKey := zeroKey; levels := []; spare := [] |}.

(** [n.levels = n.levels[:0]] keeps the backing array. *)
Definition reset (n : Node) : Node :=
  {| intervalKey := zeroKey; levels := []; spare := levels n ++ spare n |}.

(** ** node_pool.go

    The pool is the only allocator of nodes, so it owns the arena.  Its
    [sync.Pool] is modelled by the stack [free] of returned nodes: [get]
    pops one when there is any and otherwise calls the pool's [New]
    function, which allocates [&Node{}]. *)

Record NodePool := mkPool { arena : list Node; free : list addr }.

Definition NewNodePool : NodePool := {| arena := []; free := [] |}.

Definition get (p : NodePool) : addr * NodePool :=
  match free p with
  | a :: f => (a, {| arena := arena p; free := f |})
  | [] => (length (arena p), {| arena := arena p ++ [zeroNode]; free := [] |})
  end.

Definition put (p : NodePool) (n : addr) : NodePool :=
  {| arena := alter reset n (arena p); free := n :: free p |}.

(** ** Reading and writing level records through a pointer *)

(** [n.levels[i]] *)
Definition getLevel (h : list Node) (n : addr) (i : nat) : option nodeLevel :=
  nd ← h !! n; levels nd !! i.

Definition setLevel (h : list Node) (n : addr) (i : nat) (lv : nodeLevel)
  : option (list Node) :=
  nd ← h !! n;
  _ ← levels nd !! i;
  Some (<[n := {| intervalKey := intervalKey nd;
                  levels := <[i := lv]> (levels nd);
                  spare := spare nd |}]> h).

(** [n.levels[i].next = v] *)
Definition setNext (h : list Node) (n : addr) (i : nat) (v : option addr)
  : option (list Node) :=
  lv ← getLevel h n i; setLevel h n i {| next := v; span := span lv |}.

(** [n.levels[i].span = v] *)
Definition setSpan (h : list Node) (n : addr) (i : nat) (v : Z)
  : option (list Node) :=
  lv ← getLevel h n i; setLevel h n i {| next := next lv; span := v |}.

(** [n.intervalKey = k] *)
Definition setKey (h : list Node) (n : addr) (k : IntervalKey)
  : option (list Node) :=
  nd ← h !! n;
  Some (<[n := {| intervalKey := k; levels := levels nd; spare := spare nd |}]> h).

(** ** islist.go *)

Definition MaxLevel : Z := 32.
Definition MaxSearchLevel : Z := 10.

(** [int32(Probability * math.MaxInt32)]: the [float32] constant
    [0.25 * 2147483647] rounds to [2^29]. *)
Definition levelThreshold : Z := 536870912.

(** The random source.  [draws] lists the values that successive calls of
    [r.Int32()] return, [cursor] counts the calls made so far. *)
Record PCG := mkPCG { draws : nat -> Z; cursor : nat }.

Definition Int32 (g : PCG) : Z * PCG :=
  (draws g (cursor g), {| draws := draws g; cursor := S (cursor g) |}).

Record SkipList := mkSkipList {
  sl_head : addr;
  sl_maxLevel : Z;
  sl_length : Z;
  sl_pool : NodePool;
  sl_PCG : PCG }.

Record QueryParam := mkQueryParam { Offset : Z; Limit : Z }.

Definition newNode (pool : NodePool) (level : Z) (ik : IntervalKey)
  : option (addr * NodePool) :=
  let '(n, p) := get pool in
  nd ← arena p !! n;
  if level <? 0 then None
  else
    let backing := levels nd ++ spare nd in
    let lv := Z.to_nat level in
    let nd' :=
      if Z.of_nat (length backing) >=? level then
        {| intervalKey := ik; levels := take lv backing; spare := drop lv backing |}
      else
        {| intervalKey := ik; levels := replicate lv zeroLevel; spare := [] |} in
    Some (n, {| arena := <[n := nd']> (arena p); free := free p |}).

Definition New (pool : NodePool) (g : PCG) : option SkipList :=
  '(hd, p) ← newNode pool MaxLevel zeroKey;
  Some {| sl_head := hd; sl_maxLevel := 1; sl_length := 0;
          sl_pool := p; sl_PCG := g |}.

(** The loop of [randomLevel].  Every test of the loop condition draws one
    value.  [k] bounds the number of iterations; [MaxLevel] of them are
    never used up, because [level] grows by one in each. *)
Fixpoint randomLevel_loop (k : nat) (g : PCG) (level : Z) : Z * PCG :=
  let '(v, g') := Int32 g in
  if (v <? levelThreshold) && (level <? MaxLevel) then
    match k with
    | O => (level, g')
    | S k' => randomLevel_loop k' g' (level + 1)
    end
  else (level, g').

Definition randomLevel (g : PCG) : Z * PCG :=
  randomLevel_loop (Z.to_nat MaxLevel) g 1.

(** [for i = hi - 1; i >= 0; i--], with [k] the number of iterations. *)
Fixpoint for_down {St : Type} (k : nat) (body : nat -> St -> option St) (s : St)
  : option St :=
  match k with
  | O => Some s
  | S i => s' ← body i s; for_down i body s'
  end.

(** [for i := i0; i < i0 + k; i++] *)
Fixpoint for_up {St : Type} (k : nat) (i : nat) (body : nat -> St -> option St)
  (s : St) : option St :=
  match k with
  | O => Some s
  | S k' => s' ← body i s; for_up k' (S i) body s'
  end.

(** The inner loop of the top-down searches of [Delete], [Overlaps] and [Get]:
    [for n.levels[i].next != nil && less(n.levels[i].next.intervalKey, k)
       { n = n.levels[i].next }] *)
Fixpoint advance (fuel : nat) (h : list Node) (i : nat) (k : IntervalKey) (n : addr)
  : option addr :=
  match fuel with
  | O => None
  | S f =>
    lv ← getLevel h n i;
    match next lv with
    | None => Some n
    | Some m =>
      nm ← h !! m;
      if less (intervalKey nm) k then advance f h i k m else Some n
    end
  end.

(** The inner loop of the search of [Insert], which also accumulates the
    span travelled into [dist[i]] (here [d]). *)
Fixpoint advance_dist (fuel : nat) (h : list Node) (i : nat) (k : IntervalKey)
  (n : addr) (d : Z) : option (addr * Z) :=
  match fuel with
  | O => None
  | S f =>
    lv ← getLevel h n i;
    match next lv with
    | None => Some (n, d)
    | Some m =>
      nm ← h !! m;
      if less (intervalKey nm) k then advance_dist f h i k m (d + span lv)
      else Some (n, d)
    end
  end.

(** One level of the search of [Insert]. *)
Definition insert_search (fuel : nat) (h : list Node) (k : IntervalKey) (i : nat)
  (st : addr * list (option addr) * list Z)
  : option (addr * list (option addr) * list Z) :=
  let '(n, nodePath, dist) := st in
  dist ← (if bool_decide (i < length dist - 1)%nat
          then d ← dist !! S i; Some (<[i := d]> dist)
          else Some dist);
  d ← dist !! i;
  '(n, d) ← advance_dist fuel h i k n d;
  _ ← nodePath !! i;
  Some (n, <[i := Some n]> nodePath, <[i := d]> dist).

(** One level of the linking loop of [Insert].  The state is the arena,
    [sl.maxLevel] and [nodePath]. *)
Definition insert_link (hd : addr) (length0 rLevel : Z) (n : addr) (dist : list Z)
  (i : nat) (st : list Node * Z * list (option addr))
  : option (list Node * Z * list (option addr)) :=
  let '(h, maxLevel, nodePath) := st in
  '(h, maxLevel, nodePath) ←
    (if Z.of_nat i >=? maxLevel then
       _ ← nodePath !! i;
       h ← setSpan h hd i length0;
       Some (h, maxLevel + 1, <[i := Some hd]> nodePath)
     else Some (h, maxLevel, nodePath));
  p ← nodePath !! i ≫= id;
  d0 ← dist !! 0%nat;
  di ← dist !! i;
  if Z.of_nat i <? rLevel then
    pl ← getLevel h p i;
    h ← setNext h n i (next pl);
    pl ← getLevel h p i;
    h ← setSpan h n i (span pl - (d0 - di));
    h ← setNext h p i (Some n);
    h ← setSpan h p i ((d0 - di) + 1);
    Some (h, maxLevel, nodePath)
  else
    pl ← getLevel h p i;
    h ← setSpan h p i (span pl + 1);
    Some (h, maxLevel, nodePath).

Definition Insert (fuel : nat) (sl : SkipList) (ik : IntervalKey)
  : option (SkipList * option IntervalKey) :=
  let h := arena (sl_pool sl) in
  let nodePath := replicate (Z.to_nat MaxLevel) (@None addr) in
  let dist := replicate (Z.to_nat MaxLevel) 0 in
  '(n, nodePath, dist) ←
    for_down (Z.to_nat (sl_maxLevel sl)) (insert_search fuel h ik)
             (sl_head sl, nodePath, dist);
  l0 ← getLevel h n 0;
  hit ← match next l0 with
        | None => Some None
        | Some xn =>
          xnd ← h !! xn;
          Some (if equalInterval (intervalKey xnd) ik
                then Some (xn, intervalKey xnd) else None)
        end;
  match hit with
  | Some (xn, xk) =>
    h ← setKey h xn ik;
    Some ({| sl_head := sl_head sl; sl_maxLevel := sl_maxLevel sl;
             sl_length := sl_length sl;
             sl_pool := {| arena := h; free := free (sl_pool sl) |};
             sl_PCG := sl_PCG sl |}, Some xk)
  | None =>
    let '(rLevel, g) := randomLevel (sl_PCG sl) in
    '(n, p) ← newNode (sl_pool sl) rLevel ik;
    let insertMaxLevel := Z.max (sl_maxLevel sl) rLevel in
    '(h, maxLevel, _) ←
      for_up (Z.to_nat insertMaxLevel) 0
             (insert_link (sl_head sl) (sl_length sl) rLevel n dist)
             (arena p, sl_maxLevel sl, nodePath);
    Some ({| sl_head := sl_head sl; sl_maxLevel := maxLevel;
             sl_length := sl_length sl + 1;
             sl_pool := {| arena := h; free := free p |};
             sl_PCG := g |}, None)
  end.

(** One level of the search of [Delete]. *)
Definition delete_search (fuel : nat) (h : list Node) (k : IntervalKey) (i : nat)
  (st : addr * list (option addr)) : option (addr * list (option addr)) :=
  let '(n, nodePath) := st in
  n ← advance fuel h i k n;
  _ ← nodePath !! i;
  Some (n, <[i := Some n]> nodePath).

(** One level of the unlinking loop of [Delete].  The state is the arena
    and [sl.maxLevel]. *)
Definition delete_unlink (hd : addr) (n : addr) (nodePath : list (option addr))
  (i : nat) (st : list Node * Z) : option (list Node * Z) :=
  let '(h, maxLevel) := st in
  nd ← h !! n;
  present ← (if bool_decide (i < length (levels nd))%nat
             then p ← nodePath !! i ≫= id;
                  pl ← getLevel h p i;
                  Some (bool_decide (next pl = Some n))
             else Some false);
  p ← nodePath !! i ≫= id;
  if present : bool then
    nl ← getLevel h n i;
    h ← setNext h p i (next nl);
    pl ← getLevel h p i;
    nl ← getLevel h n i;
    h ← setSpan h p i (span pl + (span nl - 1));
    if (maxLevel >? Z.of_nat i) && (maxLevel >? 1) then
      hl ← getLevel h hd i;
      match next hl with
      | None => Some (h, Z.of_nat i)
      | Some _ => Some (h, maxLevel)
      end
    else Some (h, maxLevel)
  else
    pl ← getLevel h p i;
    h ← setSpan h p i (span pl - 1);
    Some (h, maxLevel).

Definition Delete (fuel : nat) (sl : SkipList) (interval : IntervalKey)
  : option (SkipList * option IntervalKey) :=
  let h := arena (sl_pool sl) in
  let nodePath := replicate (Z.to_nat MaxLevel) (@None addr) in
  '(n, nodePath) ←
    for_down (Z.to_nat (sl_maxLevel sl)) (delete_search fuel h interval)
             (sl_head sl, nodePath);
  l0 ← getLevel h n 0;
  hit ← match next l0 with
        | None => Some None
        | Some xn =>
          xnd ← h !! xn;
          Some (if equalInterval (intervalKey xnd) interval then Some xn else None)
        end;
  match hit with
  | None => Some (sl, None)
  | Some n =>
    let ml := sl_maxLevel sl in
    '(h, maxLevel) ←
      for_up (Z.to_nat ml) 0 (delete_unlink (sl_head sl) n nodePath)
             (h, sl_maxLevel sl);
    nd ← h !! n;
    let k := intervalKey nd in
    Some ({| sl_head := sl_head sl; sl_maxLevel := maxLevel;
             sl_length := sl_length sl - 1;
             sl_pool := put {| arena := h; free := free (sl_pool sl) |} n;
             sl_PCG := sl_PCG sl |}, Some k)
  end.

Definition maxSearchLevel (sl : SkipList) : Z :=
  let m := sl_maxLevel sl - 1 in
  if m >=? MaxSearchLevel then MaxSearchLevel - 1 else m.

(** The search shared by [Overlaps] and [Get]:
    [for i := sl.maxSearchLevel(); i >= 0; i--] around the inner loop. *)
Definition descend (fuel : nat) (sl : SkipList) (k : IntervalKey) : option addr :=
  for_down (Z.to_nat (maxSearchLevel sl + 1))
           (fun i n => advance fuel (arena (sl_pool sl)) i k n) (sl_head sl).

(** The scan of [Overlaps] along level 0.  [n] is the current pointer;
    the keys appended to [result] are the values its pointers refer to. *)
Fixpoint overlaps_scan (fuel : nat) (h : list Node) (interval : IntervalKey)
  (qParam : QueryParam) (n : option addr) (count : Z) (res : list IntervalKey)
  : option (list IntervalKey) :=
  match fuel with
  | O => None
  | S f =>
    match n with
    | None => Some res
    | Some a =>
      nd ← h !! a;
      if Start (intervalKey nd) <=? End interval then
        if End (intervalKey nd) >=? Start interval then
          if count >=? Offset qParam then
            let res := res ++ [intervalKey nd] in
            if negb (Limit qParam =? 0) && (Z.of_nat (length res) >=? Limit qParam)
            then Some res
            else
              l0 ← levels nd !! 0%nat;
              overlaps_scan f h interval qParam (next l0) (count + 1) res
          else
            l0 ← levels nd !! 0%nat;
            overlaps_scan f h interval qParam (next l0) (count + 1) res
        else
          l0 ← levels nd !! 0%nat;
          overlaps_scan f h interval qParam (next l0) count res
      else Some res
    end
  end.

Definition Overlaps (fuel : nat) (sl : SkipList) (interval : IntervalKey)
  (qParam : QueryParam) : option (list IntervalKey) :=
  n ← descend fuel sl interval;
  overlaps_scan fuel (arena (sl_pool sl)) interval qParam (Some n) 0 [].

Definition Get (fuel : nat) (sl : SkipList) (interval : IntervalKey)
  : option (option IntervalKey) :=
  let h := arena (sl_pool sl) in
  n ← descend fuel sl interval;
  l0 ← getLevel h n 0;
  match next l0 with
  | None => Some None
  | Some m =>
    nd ← h !! m;
    Some (if equalInterval (intervalKey nd) interval
          then Some (intervalKey nd) else None)
  end.

(** The inner loop of [GetByIndex]:
    [for n.levels[i].next != nil && pos >= n.levels[i].span
       { pos -= n.levels[i].span; n = n.levels[i].next }] *)
Fixpoint advance_pos (fuel : nat) (h : list Node) (i : nat) (n : addr) (pos : Z)
  : option (addr * Z) :=
  match fuel with
  | O => None
  | S f =>
    lv ← getLevel h n i;
    match next lv with
    | None => Some (n, pos)
    | Some m =>
      if pos >=? span lv then advance_pos f h i m (pos - span lv)
      else Some (n, pos)
    end
  end.

Definition GetByIndex (fuel : nat) (sl : SkipList) (index : Z)
  : option (result IntervalKey) :=
  let h := arena (sl_pool sl) in
  if (index <? 0) || (index >=? sl_length sl) then
    Some (Err (ErrIndexOutOfBounds index))
  else
    '(n, _) ←
      for_down (Z.to_nat (maxSearchLevel sl + 1))
               (fun i '(n, pos) => advance_pos fuel h i n pos)
               (sl_head sl, index + 1);
    if bool_decide (n ≠ sl_head sl) then
      nd ← h !! n; Some (Ok (intervalKey nd))
    else Some (Err (ErrNodeNotFound index)).

(** [Print] writes to an [io.Writer].  The writer is the sequence of the
    chunks written to it: every [fmt.Fprintf] call writes one chunk.
    [fmt_d] is the verb [%d]. *)
Definition Writer := list string.

(** The one-character string ["\n"]. *)
Definition newline : string := String "010"%char EmptyString.

Definition fmt_d (z : Z) : string := NilZero.string_of_int (Z.to_int z).

(** ["{i: [%d,%d], k: %s, s: %d} -> "] *)
Definition print_node (k : IntervalKey) (s : Z) : string :=
  ("{i: [" ++ fmt_d (Start k) ++ "," ++ fmt_d (End k) ++ "], k: " ++ Key k
   ++ ", s: " ++ fmt_d s ++ "} -> ")%string.

(** The inner loop of [Print] at the level with index [i] (that is
    [lvl - 1]), from the node [current]. *)
Fixpoint print_level (fuel : nat) (h : list Node) (i : nat)
  (current : option addr) (w : Writer) : option Writer :=
  match current with
  | None => Some w
  | Some a =>
    match fuel with
    | O => None
    | S f =>
      nd ← h !! a;
      lv ← levels nd !! i;
      print_level f h i (next lv) (w ++ [print_node (intervalKey nd) (span lv)])
    end
  end.

(** [Print] on a list that is not [nil].  The loop
    [for lvl := startLevel; lvl >= 1; lvl--] runs over the indices
    [i = lvl - 1]. *)
Definition Print (fuel : nat) (sl : SkipList) (w : Writer) (startLevel : Z)
  : option Writer :=
  let startLevel :=
    if startLevel >? sl_maxLevel sl then sl_maxLevel sl else startLevel in
  let startLevel := if startLevel <? 1 then 1 else startLevel in
  for_down (Z.to_nat startLevel)
    (fun i w =>
       let w := w ++ [("Level " ++ fmt_d (Z.of_nat i + 1) ++ ": ")%string] in
       w ← print_level fuel (arena (sl_pool sl)) i (Some (sl_head sl)) w;
       Some (w ++ [("nil" ++ newline)%string]))
    w.

(** ** Helpers to run the package's tests on the embedding *)

Definition draws_of (l : list Z) : PCG :=
  {| draws := fun i => nth i l levelThreshold; cursor := 0 |}.

Definition ik (s e : Z) (k : string) : IntervalKey :=
  {| Start := s; End := e; Key := k |}.

Definition insert_all (fuel : nat) (ks : list IntervalKey) (sl : SkipList)
  : option SkipList :=
  foldl (fun o k => sl ← o; fst <$> Insert fuel sl k) (Some sl) ks.

(** * Vocabulary of the verification *)

(** ** What the statements observe of the arena *)

Definition key_of (h : list Node) (a : addr) : option IntervalKey :=
  intervalKey <$> h !! a.

Definition nlev (h : list Node) (a : addr) : option nat :=
  (fun nd => length (levels nd)) <$> h !! a.

(** [upd_level h n i lv h']: [h'] is [h] with the level record [i] of node
    [n] replaced by [lv], and nothing else changed. *)
Record upd_level (h : list Node) (n : addr) (i : nat) (lv : nodeLevel)
  (h' : list Node) : Prop := {
  upd_get : forall a j,
    getLevel h' a j = if decide (a = n /\ j = i) then Some lv else getLevel h a j;
  upd_key : forall a, key_of h' a = key_of h a;
  upd_nlev : forall a, nlev h' a = nlev h a;
  upd_length : length h' = length h }.

(** ** The abstract skip list

    A list state is described by the sequence of its real nodes in base
    order, each with its address, its key and its number of levels.  The
    head sentinel is treated as one more element in front of them. *)

Record elem := mkElem { e_addr : addr; e_key : IntervalKey; e_lvl : nat }.

Definition low (i : nat) (e : elem) : Prop := (e_lvl e <= i)%nat.

(** The first node after the current one that occupies level [i]. *)
Fixpoint nxt (i : nat) (l : list elem) : option addr :=
  match l with
  | [] => None
  | e :: l' => if (i <? e_lvl e)%nat then Some (e_addr e) else nxt i l'
  end.

(** The distance to that node in base positions; when there is none, the
    number of nodes that follow. *)
Fixpoint gap (i : nat) (l : list elem) : Z :=
  match l with
  | [] => 0
  | e :: l' => if (i <? e_lvl e)%nat then 1 else 1 + gap i l'
  end.

Definition rec_of (i : nat) (l : list elem) : nodeLevel :=
  {| next := nxt i l; span := gap i l |}.

(** [slice h i l tail]: at level [i], every element of [l] that occupies
    the level holds the record prescribed by the elements after it in
    [l ++ tail]. *)
Fixpoint slice (h : list Node) (i : nat) (l tail : list elem) : Prop :=
  match l with
  | [] => True
  | e :: l' =>
    ((i < e_lvl e)%nat -> getLevel h (e_addr e) i = Some (rec_of i (l' ++ tail)))
    /\ slice h i l' tail
  end.

Definition lt_elem (a b : elem) : Prop := less (e_key a) (e_key b) = true.
Definition below (k : IntervalKey) (e : elem) : Prop := less (e_key e) k = true.
Definition keyed (h : list Node) (e : elem) : Prop :=
  key_of h (e_addr e) = Some (e_key e).

(** ** The representation invariant *)

Definition headElem (hd : addr) : elem :=
  {| e_addr := hd; e_key := zeroKey; e_lvl := Z.to_nat MaxLevel |}.

Fixpoint height (l : list elem) : nat :=
  match l with
  | [] => 0
  | e :: l' => Nat.max (e_lvl e) (height l')
  end.

Definition shaped (h : list Node) (e : elem) : Prop :=
  key_of h (e_addr e) = Some (e_key e) /\ nlev h (e_addr e) = Some (e_lvl e).

(** [Inv els sl]: the list state [sl] stores exactly the nodes [els], in
    this order.  [maxLevel] is the number of occupied levels, except that
    an empty list may keep [maxLevel = 1]. *)
Record Inv (els : list elem) (sl : SkipList) : Prop := {
  inv_length : sl_length sl = Z.of_nat (length els);
  inv_sorted : StronglySorted lt_elem els;
  inv_lvl : Forall (fun e => (1 <= e_lvl e <= Z.to_nat MaxLevel)%nat) els;
  inv_max : sl_maxLevel sl = Z.of_nat (height els) \/
            (els = [] /\ sl_maxLevel sl = 1);
  inv_nodup : NoDup (sl_head sl :: (e_addr <$> els) ++ free (sl_pool sl));
  inv_shape : Forall (shaped (arena (sl_pool sl))) (headElem (sl_head sl) :: els);
  inv_free : Forall (fun a => (a < length (arena (sl_pool sl)))%nat)
                    (free (sl_pool sl));
  inv_slice : forall i, Z.of_nat i < sl_maxLevel sl ->
    slice (arena (sl_pool sl)) i (headElem (sl_head sl) :: els) [];
  inv_top : forall i, sl_maxLevel sl <= Z.of_nat i -> (i < Z.to_nat MaxLevel)%nat ->
    exists lv, getLevel (arena (sl_pool sl)) (sl_head sl) i = Some lv /\
               next lv = None }.

Definition same_shape (h h' : list Node) : Prop :=
  (forall a, key_of h' a = key_of h a) /\
  (forall a, nlev h' a = nlev h a) /\
  length h' = length h.

(** Only addresses and levels decide the level records. *)
Definition skel (e : elem) : nat * nat := (e_addr e, e_lvl e).

Ltac simpl_sl :=
  cbn [sl_head sl_maxLevel sl_length sl_pool sl_PCG arena free] in *.

(** ** Reachable lists *)

(** [sync.Pool] may drop returned nodes at any time: the list keeps its
    state, the pool keeps only [f] of its free nodes. *)
Definition evict (sl : SkipList) (f : list addr) : SkipList :=
  {| sl_head := sl_head sl; sl_maxLevel := sl_maxLevel sl;
     sl_length := sl_length sl;
     sl_pool := {| arena := arena (sl_pool sl); free := f |};
     sl_PCG := sl_PCG sl |}.

(** The states of a list: [New] on a fresh pool, then any [Insert] and
    [Delete] calls that return, with the pool dropping nodes in between. *)
Inductive reachable : SkipList -> Prop :=
| reach_New g sl :
    New NewNodePool g = Some sl -> reachable sl
| reach_Insert sl fuel k sl' r :
    reachable sl -> Insert fuel sl k = Some (sl', r) -> reachable sl'
| reach_Delete sl fuel k sl' r :
    reachable sl -> Delete fuel sl k = Some (sl', r) -> reachable sl'
| reach_evict sl f :
    reachable sl -> sublist f (free (sl_pool sl)) -> reachable (evict sl f).

(** ** Traversals

    The statements speak about a list through traversals of its arena,
    the way the package's tests walk [n.levels[i].next]. *)

(** The nodes met by following the level-[i] pointers, starting with [n]. *)
Fixpoint chain (fuel : nat) (h : list Node) (i : nat) (n : option addr)
  : option (list addr) :=
  match n with
  | None => Some []
  | Some a =>
    match fuel with
    | O => None
    | S f =>
      lv ← getLevel h a i;
      rest ← chain f h i (next lv);
      Some (a :: rest)
    end
  end.

(** The nodes of level [i], without the head. *)
Definition level_nodes (fuel : nat) (sl : SkipList) (i : nat) : option (list addr) :=
  lv ← getLevel (arena (sl_pool sl)) (sl_head sl) i;
  chain fuel (arena (sl_pool sl)) i (next lv).

(** The keys stored, in the order of the level-0 traversal. *)
Definition stored_keys (fuel : nat) (sl : SkipList) : option (list IntervalKey) :=
  l ← level_nodes fuel sl 0;
  mapM (key_of (arena (sl_pool sl))) l.

(** The sum of the spans along the level-[i] path from [n] to [target];
    [None] when the path does not reach [target]. *)
Fixpoint span_sum (fuel : nat) (h : list Node) (i : nat) (n target : addr)
  : option Z :=
  if decide (n = target) then Some 0
  else
    match fuel with
    | O => None
    | S f =>
      lv ← getLevel h n i;
      m ← next lv;
      d ← span_sum f h i m target;
      Some (span lv + d)
    end.

Definition occupies (i : nat) (e : elem) : Prop := (i < e_lvl e)%nat.

Global Instance occupies_dec i e : Decision (occupies i e).
Proof. unfold occupies. apply _. Defined.

(** The fuel that every operation on [sl] runs within. *)
Definition enough (sl : SkipList) (fuel : nat) : Prop :=
  (Z.to_nat (sl_length sl) + 2 <= fuel)%nat.

(** The order of the keys: [Start] first, ties broken by [End]. *)
Definition key_lt (a b : IntervalKey) : Prop :=
  Start a < Start b \/ (Start a = Start b /\ End a < End b).

(** ** The result of [Overlaps] *)

(** The scan of [Overlaps] over the keys it visits. *)
Fixpoint scan_keys (q : IntervalKey) (p : QueryParam) (ks : list IntervalKey)
  (count : Z) (res : list IntervalKey) : list IntervalKey :=
  match ks with
  | [] => res
  | k :: ks' =>
    if Start k <=? End q then
      if End k >=? Start q then
        if count >=? Offset p then
          if negb (Limit p =? 0) && (Z.of_nat (length (res ++ [k])) >=? Limit p)
          then res ++ [k]
          else scan_keys q p ks' (count + 1) (res ++ [k])
        else scan_keys q p ks' (count + 1) res
      else scan_keys q p ks' count res
    else res
  end.

(** The matches of an unbounded scan. *)
Fixpoint matches (q : IntervalKey) (ks : list IntervalKey) : list IntervalKey :=
  match ks with
  | [] => []
  | k :: ks' =>
    if Start k <=? End q then
      if End k >=? Start q then k :: matches q ks' else matches q ks'
    else []
  end.

(** The page [results[o : o+l]], with [l = 0] for "to the end". *)
Definition page (o l : Z) (full : list IntervalKey) : list IntervalKey :=
  if l =? 0 then drop (Z.to_nat o) full
  else take (Z.to_nat l) (drop (Z.to_nat o) full).

(** ** Data of the package's tests

    With the source [rand.NewPCG(2, 3)] the four inserts of [TestInsert]
    draw the levels 1, 3, 1 and 2, as the expected nodes of that test show.
    [test_draws] is a draw sequence that yields these levels. *)

Definition test_draws : PCG :=
  draws_of [levelThreshold; 0; 0; levelThreshold; levelThreshold; 0; levelThreshold].

Definition test_keys : list IntervalKey :=
  [ik 5 9 "test-1"; ik 10 20 "test-2"; ik 30 40 "test-3"; ik 50 60 "test-4"].

Definition no_paging : QueryParam := {| Offset := 0; Limit := 0 |}.

(** The keys and spans of level [i], head first, as [assertNodesEqual]
    reads them. *)
Definition level_view (fuel : nat) (sl : SkipList) (i : nat)
  : option (list (IntervalKey * Z)) :=
  l ← chain fuel (arena (sl_pool sl)) i (Some (sl_head sl));
  mapM (fun a => k ← key_of (arena (sl_pool sl)) a;
                 lv ← getLevel (arena (sl_pool sl)) a i;
                 Some (k, span lv)) l.

(** A reachable list to instantiate the theorems with. *)
Definition sample : SkipList :=
  Eval vm_compute in
    default {| sl_head := 0; sl_maxLevel := 0; sl_length := 0;
               sl_pool := NewNodePool; sl_PCG := test_draws |}
            (sl ← New NewNodePool test_draws; insert_all 10 test_keys sl).

(** ** Failures of a call *)

Definition invalid_interval_msg : string :=
  "interval Start and End must be a positive number and Start must be < End".

(** A failure that the caller receives as an [error] value. *)
Definition typed_failure {A} (r : result A) : Prop := exists e, r = Err e.

(** ** Overlap with a query, and disjoint intervals *)

(** The test that the scan of [Overlaps] applies to a key. *)
Definition overlaps_query (q k : IntervalKey) : Prop :=
  Start k <= End q /\ Start q <= End k.

Global Instance overlaps_query_dec q k : Decision (overlaps_query q k).
Proof. unfold overlaps_query. apply _. Defined.

(** Every key ends before the keys after it start. *)
Definition disjoint_keys (ks : list IntervalKey) : Prop :=
  StronglySorted (fun a b => End a < Start b) ks.

(** ** Nodes of the pool *)

(** The state that [reset] leaves a node in: the zero key and no level
    record. *)
Definition is_reset (h : list Node) (a : addr) : Prop :=
  key_of h a = Some zeroKey /\ nlev h a = Some 0%nat.

(** ** The output of [Print] *)

(** The chunks of one line: the level, the nodes with their spans, the
    end. *)
Definition print_line (lvl : Z) (view : list (IntervalKey * Z)) : list string :=
  ("Level " ++ fmt_d lvl ++ ": ")%string
  :: ((fun ks => print_node ks.1 ks.2) <$> view)
  ++ [("nil" ++ newline)%string].

(** The base level of a list with the keys [ks] after a node with the key
    [k]: every node is one step from its successor, the last one has
    none. *)
Fixpoint base_view (k : IntervalKey) (ks : list IntervalKey)
  : list (IntervalKey * Z) :=
  match ks with
  | [] => [(k, 0)]
  | k' :: ks' => (k, 1) :: base_view k' ks'
  end.

(** The lines of the levels [k], ..., 1, in the order in which [Print]
    writes them; [view i] is what the level with index [i] shows. *)
Fixpoint print_lines (k : nat) (view : nat -> list (IntervalKey * Z))
  : list string :=
  match k with
  | O => []
  | S i => print_line (Z.of_nat i + 1) (view i) ++ print_lines i view
  end.

(** What level [i] of the abstract list shows: the keys of the nodes that
    occupy the level, each with the distance to the next of them. *)
Fixpoint view_of (i : nat) (l : list elem) : list (IntervalKey * Z) :=
  match l with
  | [] => []
  | e :: l' =>
    if decide (occupies i e) then (e_key e, gap i l') :: view_of i l'
    else view_of i l'
  end.

(** The sample list after the deletion of one of its keys, which leaves a
    node in the pool. *)
Definition sample_deleted : SkipList :=
  Eval vm_compute in
    default sample (fst <$> Delete 10 sample (ik 10 20 "")).

(** The sample list after the insertion of a key that it does not hold. *)
Definition sample_inserted : SkipList :=
  Eval vm_compute in
    default sample (fst <$> Insert 10 sample (ik 25 28 "new")).

(** A new list. *)
Definition sample_empty : SkipList :=
  Eval vm_compute in
    default sample (New NewNodePool test_draws).

(** * Verification *)

(** ** The order on keys *)

Lemma less_spec a b :
  less a b = true <-> Start a < Start b \/ (Start a = Start b /\ End a < End b).
Proof.
  unfold less. rewrite Z.gtb_ltb.
  destruct (Z.ltb_spec (Start a) (Start b)), (Z.ltb_spec (Start b) (Start a));
    rewrite ?Z.ltb_lt; split; intros; first [lia | discriminate | done].
Qed.

Lemma less_false a b :
  less a b = false <-> Start b < Start a \/ (Start a = Start b /\ End b <= End a).
Proof.
  unfold less. rewrite Z.gtb_ltb.
  destruct (Z.ltb_spec (Start a) (Start b)), (Z.ltb_spec (Start b) (Start a));
    rewrite ?Z.ltb_ge; split; intros; first [lia | discriminate | done].
Qed.

Lemma equalInterval_spec a b :
  equalInterval a b = true <-> Start a = Start b /\ End a = End b.
Proof. unfold equalInterval. rewrite andb_true_iff, !Z.eqb_eq. done. Qed.

Lemma less_irrefl a : less a a = false.
Proof. apply less_false. lia. Qed.

Lemma less_trans a b c : less a b = true -> less b c = true -> less a c = true.
Proof. rewrite !less_spec. lia. Qed.

Lemma less_ge_trans a b c : less a b = false -> less a c = true -> less c b = false.
Proof. rewrite !less_false, less_spec. lia. Qed.

Lemma less_trichotomy a b :
  less a b = false -> less b a = false -> equalInterval a b = true.
Proof. rewrite !less_false, equalInterval_spec. lia. Qed.

Lemma equalInterval_not_less a b : equalInterval a b = true -> less a b = false.
Proof. rewrite less_false, equalInterval_spec. lia. Qed.

Lemma equalInterval_less_l a b c :
  equalInterval a b = true -> less a c = less b c.
Proof.
  rewrite equalInterval_spec. intros [E1 E2].
  destruct (less b c) eqn:L.
  - apply less_spec. apply less_spec in L. lia.
  - apply less_false. apply less_false in L. lia.
Qed.

Lemma equalInterval_less_r a b c :
  equalInterval a b = true -> less c a = less c b.
Proof.
  rewrite equalInterval_spec. intros [E1 E2].
  destruct (less c b) eqn:L.
  - apply less_spec. apply less_spec in L. lia.
  - apply less_false. apply less_false in L. lia.
Qed.

(** ** Reading and writing the arena *)

Lemma key_of_Some h a nd : h !! a = Some nd -> key_of h a = Some (intervalKey nd).
Proof. unfold key_of. by intros ->. Qed.

Lemma key_of_inv h a k :
  key_of h a = Some k -> exists nd, h !! a = Some nd /\ intervalKey nd = k.
Proof.
  unfold key_of. destruct (h !! a) as [nd|]; simpl; [|done].
  intros [= <-]. eauto.
Qed.

Lemma nlev_Some h a nd : h !! a = Some nd -> nlev h a = Some (length (levels nd)).
Proof. unfold nlev. by intros ->. Qed.

Lemma getLevel_nlev h a i lv : getLevel h a i = Some lv -> exists m, nlev h a = Some m /\ (i < m)%nat.
Proof.
  unfold getLevel, nlev. destruct (h !! a) as [nd|]; simpl; [|done].
  intros H. apply lookup_lt_Some in H. eauto.
Qed.

Lemma nlev_getLevel h a i m :
  nlev h a = Some m -> (i < m)%nat -> is_Some (getLevel h a i).
Proof.
  unfold getLevel, nlev. destruct (h !! a) as [nd|]; simpl; [|done].
  intros [= <-] H. by apply lookup_lt_is_Some.
Qed.

Lemma setLevel_spec h n i lv0 lv :
  getLevel h n i = Some lv0 ->
  exists h', setLevel h n i lv = Some h' /\ upd_level h n i lv h'.
Proof.
  unfold getLevel, setLevel. destruct (h !! n) as [nd|] eqn:Hn; simpl; [|done].
  intros Hi. rewrite Hi. simpl. eexists; split; [done|].
  pose proof (lookup_lt_Some _ _ _ Hn) as Hlt.
  pose proof (lookup_lt_Some _ _ _ Hi) as Hlti.
  split.
  - intros a j. unfold getLevel. destruct (decide (a = n)) as [->|Hne].
    + rewrite list_lookup_insert_eq by done. simpl.
      destruct (decide (j = i)) as [->|Hj].
      * rewrite list_lookup_insert_eq by done. rewrite decide_True; done.
      * rewrite list_lookup_insert_ne by done. rewrite decide_False by (intros [_ ?]; done).
        by rewrite Hn.
    + rewrite list_lookup_insert_ne by done. rewrite decide_False by (intros [? _]; done). done.
  - intros a. unfold key_of. destruct (decide (a = n)) as [->|Hne].
    + rewrite list_lookup_insert_eq by done. by rewrite Hn.
    + by rewrite list_lookup_insert_ne.
  - intros a. unfold nlev. destruct (decide (a = n)) as [->|Hne].
    + rewrite list_lookup_insert_eq by done. rewrite Hn. simpl.
      by rewrite length_insert.
    + by rewrite list_lookup_insert_ne.
  - by rewrite length_insert.
Qed.

Lemma setNext_spec h n i lv0 v :
  getLevel h n i = Some lv0 ->
  exists h', setNext h n i v = Some h' /\
             upd_level h n i {| next := v; span := span lv0 |} h'.
Proof.
  intros H. unfold setNext. rewrite H. simpl. by eapply setLevel_spec.
Qed.

Lemma setSpan_spec h n i lv0 v :
  getLevel h n i = Some lv0 ->
  exists h', setSpan h n i v = Some h' /\
             upd_level h n i {| next := next lv0; span := v |} h'.
Proof.
  intros H. unfold setSpan. rewrite H. simpl. by eapply setLevel_spec.
Qed.

Lemma upd_get_eq h n i lv h' : upd_level h n i lv h' -> getLevel h' n i = Some lv.
Proof. intros U. rewrite (upd_get _ _ _ _ _ U). by rewrite decide_True. Qed.

Lemma upd_get_ne h n i lv h' a j :
  upd_level h n i lv h' -> a <> n \/ j <> i -> getLevel h' a j = getLevel h a j.
Proof.
  intros U H. rewrite (upd_get _ _ _ _ _ U). rewrite decide_False; [done|].
  intros [? ?]. destruct H; done.
Qed.

(** ** Level records of the abstract list *)

Lemma nxt_app_low i b l : Forall (low i) b -> nxt i (b ++ l) = nxt i l.
Proof.
  induction 1 as [|e b He _ IH]; simpl; [done|].
  unfold low in He. destruct (Nat.ltb_spec i (e_lvl e)); [lia|done].
Qed.

Lemma gap_app_low i b l :
  Forall (low i) b -> gap i (b ++ l) = Z.of_nat (length b) + gap i l.
Proof.
  induction 1 as [|e b He _ IH]; simpl; [done|].
  unfold low in He. destruct (Nat.ltb_spec i (e_lvl e)); [lia|]. rewrite IH. lia.
Qed.

Lemma nxt_cut i s x t t' :
  (i < e_lvl x)%nat -> nxt i (s ++ x :: t) = nxt i (s ++ x :: t').
Proof.
  intros Hx. induction s as [|e s IH]; simpl.
  - destruct (Nat.ltb_spec i (e_lvl x)); [done|lia].
  - by rewrite IH.
Qed.

Lemma gap_cut i s x t t' :
  (i < e_lvl x)%nat -> gap i (s ++ x :: t) = gap i (s ++ x :: t').
Proof.
  intros Hx. induction s as [|e s IH]; simpl.
  - destruct (Nat.ltb_spec i (e_lvl x)); [done|lia].
  - by rewrite IH.
Qed.

Lemma rec_of_cut i s x t t' :
  (i < e_lvl x)%nat -> rec_of i (s ++ x :: t) = rec_of i (s ++ x :: t').
Proof.
  intros Hx. unfold rec_of. by rewrite (nxt_cut i s x t t'), (gap_cut i s x t t').
Qed.

Lemma nxt_None i l : nxt i l = None <-> Forall (low i) l.
Proof.
  induction l as [|e l IH]; simpl.
  - split; [constructor|done].
  - destruct (Nat.ltb_spec i (e_lvl e)).
    + split; [done|]. intros H'. apply Forall_cons in H' as [H' _].
      unfold low in H'. lia.
    + rewrite IH. split.
      * intros H'. by constructor.
      * intros H'. by apply Forall_cons in H' as [_ H'].
Qed.

Lemma nxt_Some i l m :
  nxt i l = Some m ->
  exists p1 y p2, l = p1 ++ y :: p2 /\ Forall (low i) p1 /\
                  (i < e_lvl y)%nat /\ m = e_addr y.
Proof.
  induction l as [|e l IH]; simpl; [done|].
  destruct (Nat.ltb_spec i (e_lvl e)).
  - intros [= <-]. exists [], e, l. by repeat split.
  - intros Hm. destruct (IH Hm) as (p1 & y & p2 & -> & Hp & Hy & ->).
    exists (e :: p1), y, p2. repeat split; try done. by constructor.
Qed.

Lemma gap_nonneg i l : 0 <= gap i l.
Proof. induction l as [|e l IH]; simpl; [lia|]. case_match; lia. Qed.

Lemma gap_le_length i l : gap i l <= Z.of_nat (length l).
Proof. induction l as [|e l IH]; simpl; [lia|]. case_match; lia. Qed.

Lemma slice_app h i l r t :
  slice h i (l ++ r) t <-> slice h i l (r ++ t) /\ slice h i r t.
Proof.
  induction l as [|e l IH]; simpl.
  - tauto.
  - rewrite IH, <- app_assoc. tauto.
Qed.

Lemma slice_frame h h' i l t :
  (forall e, e ∈ l -> (i < e_lvl e)%nat ->
             getLevel h' (e_addr e) i = getLevel h (e_addr e) i) ->
  slice h i l t -> slice h' i l t.
Proof.
  induction l as [|e l IH]; simpl; [done|].
  intros Hf [He Hl]. split.
  - intros Hi. rewrite Hf; [auto|by left|done].
  - apply IH; [|done]. intros e' He' Hi. apply Hf; [by right|done].
Qed.

Lemma slice_low h i l t : Forall (low i) l -> slice h i l t.
Proof.
  induction 1 as [|e l He _ IH]; simpl; [done|].
  split; [|done]. unfold low in He. lia.
Qed.

Lemma slice_cut h i a x t t' :
  (i < e_lvl x)%nat -> slice h i a (x :: t) -> slice h i a (x :: t').
Proof.
  intros Hx. induction a as [|e a IH]; simpl; [done|].
  intros [He Ha]. split; [|auto].
  intros Hi. rewrite (rec_of_cut i a x t' t) by done. auto.
Qed.

Lemma slice_lookup h i a x b t :
  slice h i (a ++ x :: b) t -> (i < e_lvl x)%nat ->
  getLevel h (e_addr x) i = Some (rec_of i (b ++ t)).
Proof.
  rewrite slice_app. simpl. intros (_ & Hx & _). exact Hx.
Qed.

(** ** The inner search loops *)

(** Walking at level [i] from the element [x], followed by [post]: the walk
    consumes [cons], all below the target, and halts on [x'], the last
    element of [x :: cons], because no element that occupies level [i] in
    the rest is below the target.  The distance grows by the number of
    base positions crossed. *)
Lemma advance_dist_spec fuel h i k : forall x post d,
  slice h i (x :: post) [] -> (i < e_lvl x)%nat ->
  Forall (keyed h) post -> StronglySorted lt_elem post ->
  (length post < fuel)%nat ->
  exists cons mid x' post',
    post = cons ++ post' /\ x :: cons = mid ++ [x'] /\
    Forall (below k) cons /\ (i < e_lvl x')%nat /\
    advance_dist fuel h i k (e_addr x) d
      = Some (e_addr x', d + Z.of_nat (length mid)) /\
    (forall y, y ∈ post' -> (i < e_lvl y)%nat -> less (e_key y) k = false).
Proof.
  induction fuel as [|f IH]; intros x post d Hsl Hx Hkey Hsort Hfuel; [lia|].
  simpl. destruct Hsl as [Hrec Hpost]. rewrite app_nil_r in Hrec.
  rewrite (Hrec Hx). simpl.
  destruct (nxt i post) as [m|] eqn:Hn.
  - apply nxt_Some in Hn as (p1 & y & p2 & -> & Hp1 & Hy & ->).
    apply Forall_app in Hkey as [Hk1 Hk2].
    apply Forall_cons in Hk2 as [Hky Hk2].
    apply key_of_inv in Hky as (nm & Hnm & Hkm). rewrite Hnm. simpl. rewrite Hkm.
    apply StronglySorted_app in Hsort as (Hcross & Hs1 & Hs2).
    apply StronglySorted_cons in Hs2 as [Hy2 Hs2].
    destruct (less (e_key y) k) eqn:Hlt.
    + apply slice_app in Hpost as [_ Hpost].
      rewrite length_app in Hfuel. simpl in Hfuel.
      destruct (IH y p2 (d + gap i (p1 ++ y :: p2)) Hpost Hy Hk2 Hs2 ltac:(lia))
        as (cons & mid & x' & post' & -> & Hmid & Hcons & Hx' & Hrun & Hstop).
      exists (p1 ++ y :: cons), (x :: p1 ++ mid), x', post'.
      repeat split; try done.
      * by rewrite <- app_assoc.
      * simpl. rewrite <- app_assoc, <- Hmid. done.
      * apply Forall_app. split.
        -- apply Forall_forall. intros e He. unfold below.
           eapply less_trans; [|exact Hlt]. apply Hcross; [done|by left].
        -- by constructor.
      * rewrite Hrun. f_equal. f_equal. rewrite gap_app_low by done. simpl.
        destruct (Nat.ltb_spec i (e_lvl y)); [|lia].
        simpl. rewrite ?length_app. simpl. lia.
    + exists [], [], x, (p1 ++ y :: p2). repeat split; try done.
      * simpl. f_equal. f_equal. lia.
      * intros y' Hy' Hi. apply elem_of_app in Hy' as [Hy'|Hy'].
        -- rewrite Forall_forall in Hp1. specialize (Hp1 _ Hy'). unfold low in Hp1. lia.
        -- apply elem_of_cons in Hy' as [->|Hy']; [done|].
           rewrite Forall_forall in Hy2. eapply less_ge_trans; [exact Hlt|].
           by apply Hy2.
  - exists [], [], x, post. repeat split; try done.
    + simpl. f_equal. f_equal. lia.
    + intros y Hy Hi. apply nxt_None in Hn. rewrite Forall_forall in Hn.
      specialize (Hn _ Hy). unfold low in Hn. lia.
Qed.

Lemma advance_dist_fst fuel h i k : forall n d,
  advance fuel h i k n = fst <$> advance_dist fuel h i k n d.
Proof.
  induction fuel as [|f IH]; intros n d; simpl; [done|].
  destruct (getLevel h n i) as [lv|]; simpl; [|done].
  destruct (next lv) as [m|]; [|done].
  destruct (h !! m) as [nm|]; simpl; [|done].
  destruct (less (intervalKey nm) k); [apply IH|done].
Qed.

(** ** The top-down search *)

(** The search of [Insert] over the levels [k-1, ..., 0], started on the
    element [x] at distance [d0] from the head.  It consumes [cons], halts
    on the last element [xf] of [x :: cons], and records for every level
    [i < k] the last element of [x :: cons] that occupies level [i],
    together with its distance. *)
Lemma insert_search_spec fuel h key : forall k x post np dist d0,
  (forall i, (i < k)%nat -> slice h i (x :: post) []) ->
  (k <= e_lvl x)%nat ->
  Forall (keyed h) post -> StronglySorted lt_elem post ->
  Forall (fun e => (1 <= e_lvl e)%nat) post ->
  (length post < fuel)%nat ->
  (k <= length np)%nat -> (k <= length dist)%nat ->
  ((k < length dist)%nat -> dist !! k = Some d0) ->
  (k = length dist -> dist !! pred k = Some d0) ->
  exists cons midf xf post_f np' dist',
    post = cons ++ post_f /\ x :: cons = midf ++ [xf] /\
    Forall (below key) cons /\
    for_down k (insert_search fuel h key) (e_addr x, np, dist)
      = Some (e_addr xf, np', dist') /\
    (k = 0%nat -> cons = []) /\
    ((0 < k)%nat -> forall y, y ∈ post_f -> less (e_key y) key = false) /\
    (forall i, (i < k)%nat ->
       exists ai xi bi, x :: cons = ai ++ xi :: bi /\ (i < e_lvl xi)%nat /\
                        Forall (low i) bi /\
                        np' !! i = Some (Some (e_addr xi)) /\
                        dist' !! i = Some (d0 + Z.of_nat (length ai))) /\
    (forall i, (k <= i)%nat -> np' !! i = np !! i /\ dist' !! i = dist !! i) /\
    length np' = length np /\ length dist' = length dist.
Proof.
  induction k as [|i IH]; intros x post np dist d0 Hsl Hx Hkey Hsort Hlvl Hfuel Hnp Hdl Hd1 Hd2.
  - exists [], [], x, post, np, dist. simpl. repeat split; try done; lia.
  - simpl.
    (* the distance is initialised from the level above *)
    set (dist1 := if bool_decide (i < length dist - 1)%nat
                  then <[i := d0]> dist else dist).
    assert (Hinit : (if bool_decide (i < length dist - 1)%nat
                     then d ← dist !! S i; Some (<[i := d]> dist)
                     else Some dist) = Some dist1).
    { unfold dist1. case_bool_decide as Hc; [|done].
      rewrite Hd1 by lia. done. }
    assert (Hdi : dist1 !! i = Some d0).
    { unfold dist1. case_bool_decide as Hc.
      - apply list_lookup_insert_eq. lia.
      - assert (S i = length dist) as Heq by lia. specialize (Hd2 Heq). done. }
    assert (Hdlen : length dist1 = length dist).
    { unfold dist1. case_bool_decide; [apply length_insert|done]. }
    assert (Hdne : forall j, j <> i -> dist1 !! j = dist !! j).
    { intros j Hj. unfold dist1. case_bool_decide; [|done].
      by apply list_lookup_insert_ne. }
    rewrite Hinit. simpl. rewrite Hdi. simpl.
    destruct (advance_dist_spec fuel h i key x post d0 (Hsl i ltac:(lia)) ltac:(lia)
                Hkey Hsort Hfuel)
      as (cons1 & mid & x' & post' & Hpost & Hmid & Hcons1 & Hx' & Hrun & Hstop).
    rewrite Hrun. simpl.
    destruct (lookup_lt_is_Some_2 np i ltac:(lia)) as [npi Hnpi]. rewrite Hnpi. simpl.
    assert (Hfull : x :: post = mid ++ x' :: post').
    { rewrite Hpost, app_comm_cons, Hmid, <- app_assoc. done. }
    subst post.
    apply Forall_app in Hkey as [_ Hkey'].
    apply StronglySorted_app in Hsort as (_ & _ & Hsort').
    pose proof Hlvl as Hlvl0. apply Forall_app in Hlvl as [_ Hlvl'].
    rewrite length_app in Hfuel.
    destruct (IH x' post' (<[i := Some (e_addr x')]> np)
                (<[i := d0 + Z.of_nat (length mid)]> dist1)
                (d0 + Z.of_nat (length mid)))
      as (cons2 & mid2 & xf & post_f & np' & dist' & Hpost' & Hmid2 & Hcons2 & Hrun2
          & Hk0 & Hstop2 & Hlev & Hframe & Hlnp & Hldist); try done; try lia.
    { intros j Hj. specialize (Hsl j ltac:(lia)). rewrite Hfull in Hsl.
      by apply slice_app in Hsl as [_ Hsl]. }
    { rewrite length_insert. lia. }
    { rewrite length_insert. lia. }
    { intros _. apply list_lookup_insert_eq. lia. }
    { rewrite length_insert. lia. }
    exists (cons1 ++ cons2), (mid ++ mid2), xf, post_f, np', dist'.
    assert (Hall : x :: cons1 ++ cons2 = mid ++ x' :: cons2).
    { rewrite app_comm_cons, Hmid, <- app_assoc. done. }
    repeat split.
    + rewrite Hpost'. by rewrite app_assoc.
    + rewrite Hall, <- app_assoc, <- Hmid2. done.
    + apply Forall_app. done.
    + done.
    + done.
    + intros _ y Hy. destruct i as [|i'].
      * rewrite (Hk0 eq_refl) in Hpost'.
        simpl in Hpost'. subst post_f. apply Hstop; [done|].
        rewrite Forall_forall in Hlvl'. specialize (Hlvl' _ Hy). lia.
      * apply Hstop2; [lia|done].
    + intros j Hj. destruct (decide (j = i)) as [->|Hne].
      * exists mid, x', cons2. repeat split; try done.
        -- apply Forall_forall. intros e He. unfold low.
           destruct (Nat.le_gt_cases (e_lvl e) i) as [|Hgt]; [done|].
           exfalso. rewrite Forall_forall in Hcons2.
           specialize (Hcons2 _ He). unfold below in Hcons2.
           rewrite (Hstop e) in Hcons2; [done| |done].
           rewrite Hpost'. apply elem_of_app. by left.
        -- destruct (Hframe i ltac:(lia)) as [-> _].
           apply list_lookup_insert_eq. lia.
        -- destruct (Hframe i ltac:(lia)) as [_ ->].
           apply list_lookup_insert_eq. lia.
      * destruct (Hlev j ltac:(lia)) as (aj & xj & bj & Hdec & Hxj & Hbj & Hnpj & Hdj).
        exists (mid ++ aj), xj, bj. repeat split; try done.
        -- rewrite Hall, Hdec, <- app_assoc. done.
        -- rewrite Hdj. f_equal. rewrite length_app. lia.
    + destruct (Hframe i0 ltac:(lia)) as [-> _].
      apply list_lookup_insert_ne. lia.
    + destruct (Hframe i0 ltac:(lia)) as [_ ->].
      rewrite list_lookup_insert_ne by lia. apply Hdne. lia.
    + rewrite Hlnp. apply length_insert.
    + rewrite Hldist, length_insert. done.
Qed.

(** The searches of [Delete], [Overlaps] and [Get] follow the search of
    [Insert] with the distances erased. *)
Lemma insert_search_step_inv fuel h key i n np dist n' np' dist' :
  insert_search fuel h key i (n, np, dist) = Some (n', np', dist') ->
  advance fuel h i key n = Some n' /\ is_Some (np !! i) /\
  np' = <[i := Some n']> np.
Proof.
  unfold insert_search. intros H.
  destruct (if bool_decide (i < length dist - 1)%nat
            then d ← dist !! S i; Some (<[i := d]> dist)
            else Some dist) as [dist1|]; simpl in H; [|done].
  destruct (dist1 !! i) as [d|]; simpl in H; [|done].
  rewrite (advance_dist_fst fuel h i key n d).
  destruct (advance_dist fuel h i key n d) as [[n1 d1]|]; simpl in H; [|done].
  destruct (np !! i) as [x|]; simpl in H; [|done].
  injection H as -> <- _. simpl. eauto.
Qed.

Lemma for_down_S {St} k (body : nat -> St -> option St) s :
  for_down (S k) body s = body k s ≫= for_down k body.
Proof. done. Qed.

Lemma delete_search_sim fuel h key : forall k n np dist n' np' dist',
  for_down k (insert_search fuel h key) (n, np, dist) = Some (n', np', dist') ->
  for_down k (delete_search fuel h key) (n, np) = Some (n', np').
Proof.
  induction k as [|i IH]; intros n np dist n' np' dist' H.
  - simpl in *. by injection H as -> -> _.
  - rewrite for_down_S in H. rewrite for_down_S.
    destruct (insert_search fuel h key i (n, np, dist)) as [[[n1 np1] dist1]|] eqn:Hs;
      simpl in H; [|done].
    apply insert_search_step_inv in Hs as (Ha & [x Hx] & ->).
    unfold delete_search at 1. simpl. rewrite Ha. simpl. rewrite Hx. simpl.
    eapply IH. exact H.
Qed.

Lemma descend_sim fuel h key : forall k n np dist n' np' dist',
  for_down k (insert_search fuel h key) (n, np, dist) = Some (n', np', dist') ->
  for_down k (fun i n => advance fuel h i key n) n = Some n'.
Proof.
  induction k as [|i IH]; intros n np dist n' np' dist' H.
  - simpl in *. by injection H as -> _ _.
  - rewrite for_down_S in H. rewrite for_down_S.
    destruct (insert_search fuel h key i (n, np, dist)) as [[[n1 np1] dist1]|] eqn:Hs;
      simpl in H; [|done].
    apply insert_search_step_inv in Hs as (Ha & _ & ->).
    rewrite Ha. simpl. eapply IH. exact H.
Qed.

(** ** The invariant: heights, and the state after [New] *)

Lemma height_low i l : (height l <= i)%nat <-> Forall (low i) l.
Proof.
  induction l as [|e l IH]; simpl.
  - split; [constructor|lia].
  - rewrite Forall_cons, <- IH. unfold low. lia.
Qed.

Lemma height_app l1 l2 : height (l1 ++ l2) = Nat.max (height l1) (height l2).
Proof. induction l1 as [|e l1 IH]; simpl; [done|]. rewrite IH. lia. Qed.

Lemma height_bound l n :
  Forall (fun e => (1 <= e_lvl e <= n)%nat) l -> (height l <= n)%nat.
Proof. induction 1 as [|e l He _ IH]; simpl; lia. Qed.

Lemma height_0 l :
  Forall (fun e => (1 <= e_lvl e <= Z.to_nat MaxLevel)%nat) l ->
  height l = 0%nat -> l = [].
Proof. destruct 1 as [|e l He _]; simpl; [done|lia]. Qed.

Lemma inv_maxLevel_range els sl :
  Inv els sl -> 0 <= sl_maxLevel sl <= MaxLevel.
Proof.
  intros I. pose proof (height_bound _ _ (inv_lvl _ _ I)) as Hb.
  unfold MaxLevel in *. destruct (inv_max _ _ I) as [->|[_ ->]]; lia.
Qed.

Lemma inv_height_le els sl :
  Inv els sl -> Z.of_nat (height els) <= sl_maxLevel sl.
Proof. intros I. destruct (inv_max _ _ I) as [->|[-> ->]]; simpl; lia. Qed.

Lemma New_inv g :
  exists sl, New NewNodePool g = Some sl /\ Inv [] sl.
Proof.
  eexists. split; [reflexivity|].
  split; simpl; try done.
  - constructor.
  - by right.
  - apply NoDup_singleton.
  - by repeat constructor.
  - intros i Hi. assert (i = 0%nat) as -> by lia. by split.
  - intros i Hi1 Hi2. exists zeroLevel. split; [|done].
    assert (i < 32)%nat as Hi by (unfold MaxLevel in *; lia).
    exact (lookup_replicate_2 32 zeroLevel i Hi).
Qed.

(** *** What the search finds in a list that satisfies the invariant *)

Lemma search_facts els sl key fuel :
  Inv els sl -> (length els < fuel)%nat ->
  exists l1 l2 midf xf np dist,
    els = l1 ++ l2 /\ Forall (below key) l1 /\
    Forall (fun y => less (e_key y) key = false) l2 /\
    headElem (sl_head sl) :: l1 = midf ++ [xf] /\
    for_down (Z.to_nat (sl_maxLevel sl))
      (insert_search fuel (arena (sl_pool sl)) key)
      (sl_head sl, replicate (Z.to_nat MaxLevel) None, replicate (Z.to_nat MaxLevel) 0)
      = Some (e_addr xf, np, dist) /\
    (forall i, Z.of_nat i < sl_maxLevel sl ->
       exists ai xi bi, headElem (sl_head sl) :: l1 = ai ++ xi :: bi /\
                        (i < e_lvl xi)%nat /\ Forall (low i) bi /\
                        np !! i = Some (Some (e_addr xi)) /\
                        dist !! i = Some (Z.of_nat (length ai))) /\
    (forall i, sl_maxLevel sl <= Z.of_nat i -> (i < Z.to_nat MaxLevel)%nat ->
       np !! i = Some None /\ dist !! i = Some 0) /\
    length np = Z.to_nat MaxLevel /\ length dist = Z.to_nat MaxLevel.
Proof.
  intros I Hfuel. pose proof (inv_maxLevel_range _ _ I) as Hr.
  pose proof (inv_shape _ _ I) as Hsh. apply Forall_cons in Hsh as [_ Hsh].
  destruct (insert_search_spec fuel (arena (sl_pool sl)) key
              (Z.to_nat (sl_maxLevel sl)) (headElem (sl_head sl)) els
              (replicate (Z.to_nat MaxLevel) None) (replicate (Z.to_nat MaxLevel) 0) 0)
    as (cons & midf & xf & post_f & np & dist & Hels & Hmid & Hcons & Hrun & Hk0
        & Hstop & Hlev & Hframe & Hlnp & Hld).
  - intros i Hi. apply (inv_slice _ _ I). lia.
  - simpl. lia.
  - eapply Forall_impl; [exact Hsh|]. by intros e [? _].
  - apply (inv_sorted _ _ I).
  - eapply Forall_impl; [apply (inv_lvl _ _ I)|]. simpl. intros; lia.
  - done.
  - rewrite length_replicate. lia.
  - rewrite length_replicate. lia.
  - rewrite length_replicate. intros Hk. by apply lookup_replicate_2.
  - rewrite length_replicate. intros Hk. apply lookup_replicate_2.
    unfold MaxLevel in *. lia.
  - rewrite length_replicate in *.
    exists cons, post_f, midf, xf, np, dist. repeat split; try done.
    + destruct (decide (sl_maxLevel sl = 0)) as [H0|H0].
      * assert (els = []) as Hnil.
        { destruct (inv_max _ _ I) as [Hm|[? ?]]; [|lia].
          apply (height_0 _ (inv_lvl _ _ I)). lia. }
        rewrite Hnil in Hels. symmetry in Hels.
        apply app_eq_nil in Hels as [_ ->]. constructor.
      * apply Forall_forall. apply Hstop. lia.
    + intros i Hi. destruct (Hlev i ltac:(lia)) as (ai & xi & bi & ? & ? & ? & ? & Hd).
      exists ai, xi, bi. repeat split; done.
    + destruct (Hframe i ltac:(lia)) as [-> _]. by apply lookup_replicate_2.
    + destruct (Hframe i ltac:(lia)) as [_ ->]. by apply lookup_replicate_2.
Qed.

(** ** Relinking one level *)

Lemma same_shape_refl h : same_shape h h.
Proof. by repeat split. Qed.

Lemma same_shape_trans h1 h2 h3 :
  same_shape h1 h2 -> same_shape h2 h3 -> same_shape h1 h3.
Proof.
  intros (K1 & N1 & L1) (K2 & N2 & L2). repeat split.
  - intros a. by rewrite K2, K1.
  - intros a. by rewrite N2, N1.
  - by rewrite L2, L1.
Qed.

Lemma upd_same_shape h n i lv h' : upd_level h n i lv h' -> same_shape h h'.
Proof. intros [_ K N L]. by repeat split. Qed.

(** Replacing the elements [mid1] between [x] and [l2] by [mid2] at level
    [i], when only the records of [x] and of [mid2] have changed. *)
Lemma slice_replace h h' i a x mid1 mid2 l2 :
  slice h i (a ++ x :: mid1 ++ l2) [] ->
  (forall e, e ∈ a ++ l2 -> getLevel h' (e_addr e) i = getLevel h (e_addr e) i) ->
  (i < e_lvl x)%nat ->
  getLevel h' (e_addr x) i = Some (rec_of i (mid2 ++ l2)) ->
  slice h' i mid2 l2 ->
  slice h' i (a ++ x :: mid2 ++ l2) [].
Proof.
  intros Hs Hf Hx Hrx Hm.
  apply slice_app in Hs as [Ha Hs]. simpl in Hs. destruct Hs as [_ Hs].
  apply slice_app in Hs as [_ Hl2].
  apply slice_app. split; [|simpl; split].
  - simpl in *. apply (slice_cut h' i a x (mid1 ++ l2 ++ [])); [done|].
    rewrite app_nil_r in *.
    eapply slice_frame; [|exact Ha].
    intros e He _. apply Hf. apply elem_of_app. by left.
  - intros _. by rewrite app_nil_r.
  - apply slice_app. split; [by rewrite app_nil_r|].
    eapply slice_frame; [|exact Hl2].
    intros e He _. apply Hf. apply elem_of_app. by right.
Qed.

Lemma NoDup_addr_split (l1 l2 : list elem) (x : elem) :
  NoDup (e_addr <$> (l1 ++ x :: l2)) ->
  forall e, e ∈ l1 ++ l2 -> e_addr e <> e_addr x.
Proof.
  rewrite fmap_app, fmap_cons. intros Hnd e He Heq.
  apply NoDup_app in Hnd as (_ & Hcross & Hnd). apply NoDup_cons in Hnd as [Hx _].
  apply elem_of_app in He as [He|He].
  - apply (Hcross (e_addr e)); [by apply list_elem_of_fmap_2|].
    rewrite Heq. by left.
  - apply Hx. rewrite <- Heq. by apply list_elem_of_fmap_2.
Qed.

Lemma NoDup_addr_head (l : list elem) (y : elem) :
  NoDup (e_addr <$> (y :: l)) -> forall e, e ∈ l -> e_addr e <> e_addr y.
Proof. intros Hnd. apply (NoDup_addr_split [] l y). exact Hnd. Qed.

(** Linking the new node [y] after [x] at level [i]: the six statements of
    the first branch of the linking loop of [Insert]. *)
Lemma link_level h i a x b l2 y d :
  slice h i (a ++ x :: b ++ l2) [] ->
  (i < e_lvl x)%nat -> Forall (low i) b -> (i < e_lvl y)%nat ->
  nlev h (e_addr y) = Some (e_lvl y) ->
  NoDup (e_addr <$> (y :: a ++ x :: b ++ l2)) ->
  d = Z.of_nat (length b) ->
  exists pl h1 pl1 h2 h3 h',
    getLevel h (e_addr x) i = Some pl /\
    setNext h (e_addr y) i (next pl) = Some h1 /\
    getLevel h1 (e_addr x) i = Some pl1 /\
    setSpan h1 (e_addr y) i (span pl1 - d) = Some h2 /\
    setNext h2 (e_addr x) i (Some (e_addr y)) = Some h3 /\
    setSpan h3 (e_addr x) i (d + 1) = Some h' /\
    slice h' i (a ++ x :: b ++ y :: l2) [] /\
    (forall a' j, j <> i -> getLevel h' a' j = getLevel h a' j) /\
    same_shape h h'.
Proof.
  intros Hs Hx Hb Hy Hny Hnd ->.
  pose proof (NoDup_addr_head _ _ Hnd) as Hney.
  rewrite fmap_cons in Hnd. apply NoDup_cons in Hnd as [_ Hnd].
  pose proof (NoDup_addr_split _ _ _ Hnd) as Hnex.
  assert (Hxy : e_addr x <> e_addr y).
  { apply Hney. apply elem_of_app. right. by left. }
  pose proof (slice_lookup _ _ _ _ _ _ Hs Hx) as Hpl. rewrite app_nil_r in Hpl.
  destruct (nlev_getLevel _ _ i _ Hny Hy) as [lv0 Hlv0].
  destruct (setNext_spec h (e_addr y) i lv0 (next (rec_of i (b ++ l2))) Hlv0)
    as (h1 & E1 & U1).
  assert (Hpl1 : getLevel h1 (e_addr x) i = Some (rec_of i (b ++ l2))).
  { rewrite (upd_get_ne _ _ _ _ _ _ _ U1); [done|by left]. }
  destruct (setSpan_spec h1 (e_addr y) i _
              (span (rec_of i (b ++ l2)) - Z.of_nat (length b)) (upd_get_eq _ _ _ _ _ U1))
    as (h2 & E2 & U2).
  assert (Hpl2 : getLevel h2 (e_addr x) i = Some (rec_of i (b ++ l2))).
  { rewrite (upd_get_ne _ _ _ _ _ _ _ U2); [done|by left]. }
  destruct (setNext_spec h2 (e_addr x) i _ (Some (e_addr y)) Hpl2) as (h3 & E3 & U3).
  destruct (setSpan_spec h3 (e_addr x) i _ (Z.of_nat (length b) + 1)
              (upd_get_eq _ _ _ _ _ U3)) as (h' & E4 & U4).
  simpl in *.
  exists (rec_of i (b ++ l2)), h1, (rec_of i (b ++ l2)), h2, h3, h'.
  do 6 (split; [done|]). split; [|split].
  - replace (a ++ x :: b ++ y :: l2) with (a ++ x :: (b ++ [y]) ++ l2)
      by (by rewrite <- (app_assoc b [y] l2)).
    eapply (slice_replace h h' i a x b (b ++ [y]) l2); try done.
    + intros e He.
      rewrite (upd_get_ne _ _ _ _ _ _ _ U4), (upd_get_ne _ _ _ _ _ _ _ U3),
        (upd_get_ne _ _ _ _ _ _ _ U2), (upd_get_ne _ _ _ _ _ _ _ U1); try done; left.
      * apply Hney. apply elem_of_app in He as [He|He]; apply elem_of_app; [by left|].
        right. right. apply elem_of_app. by right.
      * apply Hney. apply elem_of_app in He as [He|He]; apply elem_of_app; [by left|].
        right. right. apply elem_of_app. by right.
      * apply Hnex. apply elem_of_app in He as [He|He]; apply elem_of_app; [by left|].
        right. apply elem_of_app. by right.
      * apply Hnex. apply elem_of_app in He as [He|He]; apply elem_of_app; [by left|].
        right. apply elem_of_app. by right.
    + rewrite (upd_get_eq _ _ _ _ _ U4). f_equal. unfold rec_of. simpl.
      rewrite <- (app_assoc b [y] l2). rewrite nxt_app_low, gap_app_low by done.
      simpl. destruct (Nat.ltb_spec i (e_lvl y)); [|lia]. done.
    + apply slice_app. split; [by apply slice_low|]. simpl. split; [|done].
      intros _.
      rewrite (upd_get_ne _ _ _ _ _ _ _ U4), (upd_get_ne _ _ _ _ _ _ _ U3) by (by left).
      rewrite (upd_get_eq _ _ _ _ _ U2). f_equal. unfold rec_of. simpl.
      rewrite nxt_app_low, gap_app_low by done. f_equal. lia.
  - intros a' j Hj.
    rewrite (upd_get_ne _ _ _ _ _ _ _ U4), (upd_get_ne _ _ _ _ _ _ _ U3),
      (upd_get_ne _ _ _ _ _ _ _ U2), (upd_get_ne _ _ _ _ _ _ _ U1); try done; by right.
  - eapply same_shape_trans; [|eapply upd_same_shape, U4].
    eapply same_shape_trans; [|eapply upd_same_shape, U3].
    eapply same_shape_trans; [|eapply upd_same_shape, U2].
    eapply upd_same_shape, U1.
Qed.

(** The new node [y] does not reach level [i]: the span of [x] grows. *)
Lemma bump_level h i a x b l2 y :
  slice h i (a ++ x :: b ++ l2) [] ->
  (i < e_lvl x)%nat -> Forall (low i) b -> (e_lvl y <= i)%nat ->
  NoDup (e_addr <$> (a ++ x :: b ++ l2)) ->
  exists pl h',
    getLevel h (e_addr x) i = Some pl /\
    setSpan h (e_addr x) i (span pl + 1) = Some h' /\
    slice h' i (a ++ x :: b ++ y :: l2) [] /\
    (forall a' j, j <> i -> getLevel h' a' j = getLevel h a' j) /\
    same_shape h h'.
Proof.
  intros Hs Hx Hb Hy Hnd.
  pose proof (NoDup_addr_split _ _ _ Hnd) as Hnex.
  pose proof (slice_lookup _ _ _ _ _ _ Hs Hx) as Hpl. rewrite app_nil_r in Hpl.
  destruct (setSpan_spec h (e_addr x) i _ (span (rec_of i (b ++ l2)) + 1) Hpl)
    as (h' & E & U).
  exists (rec_of i (b ++ l2)), h'. do 2 (split; [done|]). split; [|split].
  - replace (a ++ x :: b ++ y :: l2) with (a ++ x :: (b ++ [y]) ++ l2)
      by (by rewrite <- (app_assoc b [y] l2)).
    eapply (slice_replace h h' i a x b (b ++ [y]) l2); try done.
    + intros e He. rewrite (upd_get_ne _ _ _ _ _ _ _ U); [done|left].
      apply Hnex. apply elem_of_app in He as [He|He]; apply elem_of_app; [by left|].
      right. apply elem_of_app. by right.
    + rewrite (upd_get_eq _ _ _ _ _ U). f_equal. unfold rec_of. simpl.
      rewrite <- (app_assoc b [y] l2).
      rewrite !nxt_app_low, !gap_app_low by done. simpl.
      destruct (Nat.ltb_spec i (e_lvl y)); [lia|]. f_equal. lia.
    + apply slice_low. apply Forall_app. split; [done|].
      constructor; [done|constructor].
  - intros a' j Hj. rewrite (upd_get_ne _ _ _ _ _ _ _ U); [done|by right].
  - eapply upd_same_shape, U.
Qed.

(** Unlinking [y] from level [i]: the first branch of the loop of [Delete]. *)
Lemma unlink_level h i a x b y l2 :
  slice h i (a ++ x :: b ++ y :: l2) [] ->
  (i < e_lvl x)%nat -> Forall (low i) b -> (i < e_lvl y)%nat ->
  NoDup (e_addr <$> (a ++ x :: b ++ y :: l2)) ->
  exists pl nl h1 pl1 nl1 h',
    getLevel h (e_addr x) i = Some pl /\ next pl = Some (e_addr y) /\
    getLevel h (e_addr y) i = Some nl /\
    setNext h (e_addr x) i (next nl) = Some h1 /\
    getLevel h1 (e_addr x) i = Some pl1 /\
    getLevel h1 (e_addr y) i = Some nl1 /\
    setSpan h1 (e_addr x) i (span pl1 + (span nl1 - 1)) = Some h' /\
    slice h' i (a ++ x :: b ++ l2) [] /\
    (forall a' j, j <> i -> getLevel h' a' j = getLevel h a' j) /\
    same_shape h h'.
Proof.
  intros Hs Hx Hb Hy Hnd.
  pose proof (NoDup_addr_split _ _ _ Hnd) as Hnex.
  assert (Hyx : e_addr y <> e_addr x).
  { apply Hnex. apply elem_of_app. right. apply elem_of_app. right. by left. }
  pose proof (slice_lookup _ _ _ _ _ _ Hs Hx) as Hpl. rewrite app_nil_r in Hpl.
  assert (Hnl : getLevel h (e_addr y) i = Some (rec_of i l2)).
  { replace (a ++ x :: b ++ y :: l2) with ((a ++ x :: b) ++ y :: l2) in Hs
      by (by rewrite <- app_assoc).
    pose proof (slice_lookup _ _ _ _ _ _ Hs Hy) as H. by rewrite app_nil_r in H. }
  destruct (setNext_spec h (e_addr x) i _ (next (rec_of i l2)) Hpl) as (h1 & E1 & U1).
  pose proof (upd_get_eq _ _ _ _ _ U1) as Hpl1.
  assert (Hnl1 : getLevel h1 (e_addr y) i = Some (rec_of i l2)).
  { rewrite (upd_get_ne _ _ _ _ _ _ _ U1); [done|by left]. }
  destruct (setSpan_spec h1 (e_addr x) i _
              (span (rec_of i (b ++ y :: l2)) + (span (rec_of i l2) - 1)) Hpl1)
    as (h' & E2 & U2).
  simpl in *.
  exists (rec_of i (b ++ y :: l2)), (rec_of i l2), h1,
    {| next := nxt i l2; span := gap i (b ++ y :: l2) |}, (rec_of i l2), h'.
  split; [done|]. split.
  { simpl. rewrite nxt_app_low by done. simpl.
    destruct (Nat.ltb_spec i (e_lvl y)); [done|lia]. }
  do 5 (split; [done|]). split; [|split].
  - replace (a ++ x :: b ++ y :: l2) with (a ++ x :: (b ++ [y]) ++ l2) in Hs
      by (by rewrite <- (app_assoc b [y] l2)).
    eapply (slice_replace h h' i a x (b ++ [y]) b l2); try done.
    + intros e He.
      rewrite (upd_get_ne _ _ _ _ _ _ _ U2), (upd_get_ne _ _ _ _ _ _ _ U1); try done; left.
      * apply Hnex. apply elem_of_app in He as [He|He]; apply elem_of_app; [by left|].
        right. apply elem_of_app. right. by right.
      * apply Hnex. apply elem_of_app in He as [He|He]; apply elem_of_app; [by left|].
        right. apply elem_of_app. right. by right.
    + rewrite (upd_get_eq _ _ _ _ _ U2). f_equal. unfold rec_of. simpl.
      rewrite !nxt_app_low, !gap_app_low by done. simpl.
      destruct (Nat.ltb_spec i (e_lvl y)); [|lia]. f_equal. lia.
    + by apply slice_low.
  - intros a' j Hj.
    rewrite (upd_get_ne _ _ _ _ _ _ _ U2), (upd_get_ne _ _ _ _ _ _ _ U1); try done; by right.
  - eapply same_shape_trans; [|eapply upd_same_shape, U2].
    eapply upd_same_shape, U1.
Qed.

(** The deleted node [y] does not reach level [i]: the span of [x] shrinks. *)
Lemma shrink_level h i a x b y l2 :
  slice h i (a ++ x :: b ++ y :: l2) [] ->
  (i < e_lvl x)%nat -> Forall (low i) b -> (e_lvl y <= i)%nat ->
  NoDup (e_addr <$> (a ++ x :: b ++ y :: l2)) ->
  exists pl h',
    getLevel h (e_addr x) i = Some pl /\
    setSpan h (e_addr x) i (span pl - 1) = Some h' /\
    slice h' i (a ++ x :: b ++ l2) [] /\
    (forall a' j, j <> i -> getLevel h' a' j = getLevel h a' j) /\
    same_shape h h'.
Proof.
  intros Hs Hx Hb Hy Hnd.
  pose proof (NoDup_addr_split _ _ _ Hnd) as Hnex.
  pose proof (slice_lookup _ _ _ _ _ _ Hs Hx) as Hpl. rewrite app_nil_r in Hpl.
  destruct (setSpan_spec h (e_addr x) i _ (span (rec_of i (b ++ y :: l2)) - 1) Hpl)
    as (h' & E & U).
  exists (rec_of i (b ++ y :: l2)), h'. do 2 (split; [done|]). split; [|split].
  - replace (a ++ x :: b ++ y :: l2) with (a ++ x :: (b ++ [y]) ++ l2) in Hs
      by (by rewrite <- (app_assoc b [y] l2)).
    eapply (slice_replace h h' i a x (b ++ [y]) b l2); try done.
    + intros e He. rewrite (upd_get_ne _ _ _ _ _ _ _ U); [done|left].
      apply Hnex. apply elem_of_app in He as [He|He]; apply elem_of_app; [by left|].
      right. apply elem_of_app. right. by right.
    + rewrite (upd_get_eq _ _ _ _ _ U). f_equal. unfold rec_of. simpl.
      rewrite !nxt_app_low, !gap_app_low by done. simpl.
      destruct (Nat.ltb_spec i (e_lvl y)); [lia|]. f_equal. lia.
    + by apply slice_low.
  - intros a' j Hj. rewrite (upd_get_ne _ _ _ _ _ _ _ U); [done|by right].
  - eapply upd_same_shape, U.
Qed.

(** ** Loops, the level generator and the allocator *)

Lemma for_up_inv {St} (P : nat -> St -> Prop) (body : nat -> St -> option St) :
  forall k i s,
    P i s ->
    (forall j s, (i <= j < i + k)%nat -> P j s ->
                 exists s', body j s = Some s' /\ P (S j) s') ->
    exists s', for_up k i body s = Some s' /\ P (i + k)%nat s'.
Proof.
  induction k as [|k IH]; intros i s HP Hstep; simpl.
  - exists s. split; [done|]. by rewrite Nat.add_0_r.
  - destruct (Hstep i s ltac:(lia) HP) as (s1 & -> & HP1). simpl.
    destruct (IH (S i) s1 HP1) as (s' & Hrun & HP').
    + intros j s2 Hj. apply Hstep. lia.
    + exists s'. split; [done|]. by replace (i + S k)%nat with (S i + k)%nat by lia.
Qed.

Lemma randomLevel_loop_range k : forall g level,
  1 <= level <= MaxLevel ->
  level <= fst (randomLevel_loop k g level) <= MaxLevel.
Proof.
  induction k as [|k IH]; intros g level Hl; simpl.
  - case_match; simpl; lia.
  - destruct ((draws g (cursor g) <? levelThreshold) && (level <? MaxLevel)) eqn:Hc;
      simpl; [|lia].
    apply andb_true_iff in Hc as [_ Hc]. apply Z.ltb_lt in Hc.
    specialize (IH {| draws := draws g; cursor := S (cursor g) |} (level + 1)
                  ltac:(lia)). lia.
Qed.

Lemma randomLevel_range g : 1 <= fst (randomLevel g) <= MaxLevel.
Proof.
  unfold randomLevel.
  pose proof (randomLevel_loop_range (Z.to_nat MaxLevel) g 1) as H.
  unfold MaxLevel in *. lia.
Qed.

Lemma newNode_spec p level key :
  0 <= level ->
  Forall (fun a => (a < length (arena p))%nat) (free p) ->
  exists n p',
    newNode p level key = Some (n, p') /\
    match free p with
    | a :: f => n = a /\ free p' = f
    | [] => n = length (arena p) /\ free p' = []
    end /\
    key_of (arena p') n = Some key /\
    nlev (arena p') n = Some (Z.to_nat level) /\
    (forall a, a <> n -> arena p' !! a = arena p !! a) /\
    (n < length (arena p'))%nat /\
    (length (arena p) <= length (arena p'))%nat.
Proof.
  intros Hl Hfree. unfold newNode, get.
  destruct (free p) as [|a f] eqn:Hf.
  - simpl. rewrite lookup_app_r by done. rewrite Nat.sub_diag. simpl.
    destruct (Z.ltb_spec level 0); [lia|].
    eexists _, _. split; [done|]. simpl. split; [done|].
    assert (length (arena p) < length (arena p ++ [zeroNode]))%nat as Hlt
      by (rewrite length_app; simpl; lia).
    unfold key_of, nlev. rewrite !list_lookup_insert_eq by done. simpl.
    split; [by case_match|]. split.
    + f_equal. destruct (_ >=? level) eqn:E; simpl.
      * rewrite length_take. apply Z.geb_le in E. simpl in *. lia.
      * by rewrite length_replicate.
    + split; [|rewrite length_insert, length_app; simpl; lia].
      intros a' Ha'. rewrite list_lookup_insert_ne by done.
      destruct (decide (a' < length (arena p))%nat).
      * by rewrite lookup_app_l.
      * rewrite !lookup_ge_None_2; [done|lia|rewrite length_app; simpl; lia].
  - apply Forall_cons in Hfree as [Ha _].
    simpl. destruct (arena p !! a) as [nd|] eqn:Hnd;
      [|apply lookup_ge_None in Hnd; lia]. simpl.
    destruct (Z.ltb_spec level 0); [lia|].
    eexists _, _. split; [done|]. simpl. split; [done|].
    unfold key_of, nlev. rewrite !list_lookup_insert_eq by done. simpl.
    split; [by case_match|]. split.
    + f_equal. destruct (_ >=? level) eqn:E; simpl.
      * rewrite length_take. apply Z.geb_le in E. lia.
      * by rewrite length_replicate.
    + split; [|by rewrite length_insert].
      intros a' Ha'. by rewrite list_lookup_insert_ne.
Qed.

(** ** The linking loop of [Insert] *)

Section InsertLoop.

Variables (hd : addr) (l1 l2 : list elem) (y : elem) (M0 len0 r : Z).
Variables (np : list (option addr)) (dist : list Z) (h1 : list Node).

Hypothesis Hr : 1 <= r <= MaxLevel.
Hypothesis Hy : e_lvl y = Z.to_nat r.
Hypothesis HM : 0 <= M0 <= MaxLevel.
Hypothesis Hheight : Z.of_nat (height (l1 ++ l2)) <= M0.
Hypothesis Hlen0 : len0 = Z.of_nat (length (l1 ++ l2)).
Hypothesis Hnd : NoDup (e_addr <$> (y :: headElem hd :: l1 ++ l2)).
Hypothesis Hny : nlev h1 (e_addr y) = Some (e_lvl y).
Hypothesis Hsl1 : forall i, Z.of_nat i < M0 ->
  slice h1 i (headElem hd :: l1 ++ l2) [].
Hypothesis Htop1 : forall i, M0 <= Z.of_nat i -> (i < Z.to_nat MaxLevel)%nat ->
  exists lv, getLevel h1 hd i = Some lv /\ next lv = None.
Hypothesis Hlev : forall i, Z.of_nat i < M0 ->
  exists ai xi bi, headElem hd :: l1 = ai ++ xi :: bi /\ (i < e_lvl xi)%nat /\
                   Forall (low i) bi /\ np !! i = Some (Some (e_addr xi)) /\
                   dist !! i = Some (Z.of_nat (length ai)).
Hypothesis Hfr : forall i, M0 <= Z.of_nat i -> (i < Z.to_nat MaxLevel)%nat ->
  np !! i = Some None /\ dist !! i = Some 0.
Hypothesis Hnpl : length np = Z.to_nat MaxLevel.
Hypothesis Hd0 : dist !! 0%nat = Some (Z.of_nat (length l1)).

(** The state after the levels below [j] have been relinked. *)
Definition link_inv (j : nat) (st : list Node * Z * list (option addr)) : Prop :=
  let '(h, ml, npj) := st in
  ml = Z.max M0 (Z.of_nat j) /\ same_shape h1 h /\
  (forall i, (i < j)%nat -> slice h i (headElem hd :: l1 ++ y :: l2) []) /\
  (forall i a', (j <= i)%nat -> getLevel h a' i = getLevel h1 a' i) /\
  (forall i, (j <= i)%nat -> npj !! i = np !! i) /\ length npj = length np.

(** Level [j] is made ready: a level above the old height is activated
    with the head as predecessor, a level below it has the predecessor
    that the search recorded. *)
Lemma insert_link_ready j h ml npj :
  Z.of_nat j < Z.max M0 r -> link_inv j (h, ml, npj) ->
  exists h' np' a x b,
    (if Z.of_nat j >=? ml then
       _ ← npj !! j;
       h ← setSpan h hd j len0;
       Some (h, ml + 1, <[j := Some hd]> npj)
     else Some (h, ml, npj)) = Some (h', Z.max M0 (Z.of_nat (S j)), np') /\
    headElem hd :: l1 = a ++ x :: b /\ (j < e_lvl x)%nat /\ Forall (low j) b /\
    np' !! j = Some (Some (e_addr x)) /\ dist !! j = Some (Z.of_nat (length a)) /\
    slice h' j (a ++ x :: b ++ l2) [] /\ same_shape h1 h' /\
    (forall a' i, i <> j -> getLevel h' a' i = getLevel h a' i) /\
    (forall i, i <> j -> np' !! i = npj !! i) /\ length np' = length np.
Proof.
  intros Hj (Hml & Hsh & Hdone & Hsame & Hnpj & Hlen).
  assert (Hj32 : (j < Z.to_nat MaxLevel)%nat) by (unfold MaxLevel in *; lia).
  destruct (Z.geb_spec (Z.of_nat j) ml) as [Hge|Hlt].
  - assert (HjM : M0 <= Z.of_nat j) by lia.
    destruct (lookup_lt_is_Some_2 npj j ltac:(lia)) as [o Ho]. rewrite Ho. simpl.
    destruct (Htop1 j HjM Hj32) as (lv & Hlv & Hnone).
    rewrite <- (Hsame j hd (Nat.le_refl j)) in Hlv.
    destruct (setSpan_spec h hd j lv len0 Hlv) as (h' & E & U). rewrite E. simpl.
    assert (Hlow : Forall (low j) (l1 ++ l2)) by (apply height_low; lia).
    pose proof Hlow as Hlow'. apply Forall_app in Hlow' as [Hlow1 _].
    exists h', (<[j := Some hd]> npj), [], (headElem hd), l1.
    split; [do 3 f_equal; lia|]. split; [done|]. split; [simpl; lia|].
    split; [done|]. split; [apply list_lookup_insert_eq; lia|].
    split; [by destruct (Hfr j HjM Hj32)|]. split.
    { simpl. split; [|by apply slice_low]. intros _.
      rewrite (upd_get_eq _ _ _ _ _ U), Hnone. f_equal. unfold rec_of.
      rewrite app_nil_r. f_equal.
      - symmetry. by apply nxt_None.
      - rewrite <- (app_nil_r (l1 ++ l2)) at 1.
        rewrite gap_app_low by done. simpl. lia. }
    split; [eapply same_shape_trans; [exact Hsh|eapply upd_same_shape, U]|].
    split; [|split].
    + intros a' i Hi. rewrite (upd_get_ne _ _ _ _ _ _ _ U); [done|by right].
    + intros i Hi. by apply list_lookup_insert_ne.
    + by rewrite length_insert.
  - assert (HjM : Z.of_nat j < M0) by lia.
    destruct (Hlev j HjM) as (a & x & b & Hdec & Hx & Hb & Hnp & Hd).
    exists h, npj, a, x, b.
    split; [do 3 f_equal; lia|]. do 3 (split; [done|]).
    split; [by rewrite Hnpj|]. split; [done|]. split.
    { replace (a ++ x :: b ++ l2) with (headElem hd :: l1 ++ l2)
        by (by rewrite app_comm_cons, Hdec, <- app_assoc).
      eapply slice_frame; [|exact (Hsl1 j HjM)].
      intros e _ _. apply Hsame. lia. }
    done.
Qed.

Lemma insert_link_step j st :
  Z.of_nat j < Z.max M0 r -> link_inv j st ->
  exists st', insert_link hd len0 r (e_addr y) dist j st = Some st' /\
              link_inv (S j) st'.
Proof.
  destruct st as [[h ml] npj]. intros Hj HI.
  destruct (insert_link_ready j h ml npj Hj HI)
    as (h' & np' & a & x & b & Hact & Hdec & Hx & Hb & Hnp' & Hdj & Hsl & Hsh'
        & Hfr' & Hnpfr & Hlen').
  destruct HI as (Hml & Hsh & Hdone & Hsame & Hnpj & Hlen).
  unfold insert_link. rewrite Hact. simpl. rewrite Hnp'. simpl.
  rewrite Hd0. simpl. rewrite Hdj. simpl.
  assert (Hdb : Z.of_nat (length l1) - Z.of_nat (length a) = Z.of_nat (length b)).
  { apply (f_equal length) in Hdec. simpl in Hdec. rewrite length_app in Hdec.
    simpl in Hdec. lia. }
  assert (Hlist : headElem hd :: l1 ++ l2 = a ++ x :: b ++ l2).
  { by rewrite app_comm_cons, Hdec, <- app_assoc. }
  assert (Hlist' : headElem hd :: l1 ++ y :: l2 = a ++ x :: b ++ y :: l2).
  { by rewrite app_comm_cons, Hdec, <- app_assoc. }
  assert (Hnd' : NoDup (e_addr <$> (a ++ x :: b ++ l2))).
  { rewrite <- Hlist. rewrite fmap_cons in Hnd. by apply NoDup_cons in Hnd as [_ ?]. }
  assert (Hrest : forall h'',
    slice h'' j (a ++ x :: b ++ y :: l2) [] ->
    (forall a' i, i <> j -> getLevel h'' a' i = getLevel h' a' i) ->
    same_shape h' h'' ->
    link_inv (S j) (h'', Z.max M0 (Z.of_nat (S j)), np')).
  { intros h'' Hs'' Hf'' Hsh''. split; [done|].
    split; [by eapply same_shape_trans|]. split; [|split; [|split]].
    - intros i Hi. destruct (decide (i = j)) as [->|Hne].
      + by rewrite Hlist'.
      + eapply slice_frame; [|apply (Hdone i); lia].
        intros e _ _. rewrite Hf'' by done. by apply Hfr'.
    - intros i a' Hi. rewrite Hf'', Hfr' by lia. apply Hsame. lia.
    - intros i Hi. rewrite Hnpfr by lia. apply Hnpj. lia.
    - done. }
  destruct (Z.ltb_spec (Z.of_nat j) r) as [Hlt|Hge].
  - destruct (link_level h' j a x b l2 y _ Hsl Hx Hb ltac:(lia)
                ltac:(by destruct Hsh' as (_ & -> & _)) ltac:(by rewrite <- Hlist) Hdb)
      as (pl & h2 & pl1 & h3 & h4 & h5 & E1 & E2 & E3 & E4 & E5 & E6 & Hs5 & Hf5 & Hsh5).
    rewrite E1. simpl. rewrite E2. simpl. rewrite E3. simpl. rewrite E4. simpl.
    rewrite E5. simpl.
    replace (Z.of_nat (length l1) - Z.of_nat (length a) + 1)
      with (Z.of_nat (length l1) - Z.of_nat (length a) + 1) by done.
    rewrite E6. simpl. eexists. split; [done|]. by apply Hrest.
  - destruct (bump_level h' j a x b l2 y Hsl Hx Hb ltac:(lia) Hnd')
      as (pl & h2 & E1 & E2 & Hs2 & Hf2 & Hsh2).
    rewrite E1. simpl. rewrite E2. simpl. eexists. split; [done|]. by apply Hrest.
Qed.

Lemma insert_link_loop :
  exists h np',
    for_up (Z.to_nat (Z.max M0 r)) 0 (insert_link hd len0 r (e_addr y) dist)
           (h1, M0, np) = Some (h, Z.max M0 r, np') /\
    same_shape h1 h /\
    (forall i, Z.of_nat i < Z.max M0 r -> slice h i (headElem hd :: l1 ++ y :: l2) []) /\
    (forall i a', Z.max M0 r <= Z.of_nat i -> getLevel h a' i = getLevel h1 a' i).
Proof.
  destruct (for_up_inv link_inv (insert_link hd len0 r (e_addr y) dist)
              (Z.to_nat (Z.max M0 r)) 0 (h1, M0, np)) as ([[h ml] np'] & Hrun & HI).
  - split; [lia|]. split; [apply same_shape_refl|].
    split; [intros i Hi; lia|]. done.
  - intros j st Hj HI. apply insert_link_step; [lia|done].
  - destruct HI as (Hml & Hsh & Hdone & Hsame & _).
    exists h, np'. split; [rewrite Hrun; do 3 f_equal; lia|].
    split; [done|]. split.
    + intros i Hi. apply Hdone. lia.
    + intros i a' Hi. apply Hsame. lia.
Qed.

End InsertLoop.

(** ** Facts shared by the operations *)

Lemma rec_of_skel i : forall l l',
  skel <$> l = skel <$> l' -> rec_of i l = rec_of i l'.
Proof.
  induction l as [|e l IH]; intros [|e' l'] H; try done.
  rewrite !fmap_cons in H. injection H as Ha Hl Ht.
  specialize (IH _ Ht). unfold rec_of in *. simpl. rewrite Hl, Ha.
  injection IH as -> ->. done.
Qed.

Lemma slice_skel h i : forall l l' t t',
  skel <$> l = skel <$> l' -> skel <$> t = skel <$> t' ->
  slice h i l t -> slice h i l' t'.
Proof.
  induction l as [|e l IH]; intros [|e' l'] t t' H Ht; try done.
  rewrite !fmap_cons in H. injection H as Ha Hl Hr. simpl.
  intros [He Hs]. split; [|by eapply IH].
  rewrite <- Ha, <- Hl. intros Hi.
  rewrite (rec_of_skel i (l' ++ t') (l ++ t)); [auto|].
  by rewrite !fmap_app, Hr, Ht.
Qed.

Lemma inv_elem_lvl els sl e :
  Inv els sl -> e ∈ headElem (sl_head sl) :: els -> (1 <= e_lvl e)%nat.
Proof.
  intros I He. apply elem_of_cons in He as [->|He].
  - simpl. unfold MaxLevel. lia.
  - pose proof (inv_lvl _ _ I) as H. rewrite Forall_forall in H.
    specialize (H _ He). lia.
Qed.

Lemma inv_nodup_els els sl :
  Inv els sl -> NoDup (e_addr <$> (headElem (sl_head sl) :: els)).
Proof.
  intros I. pose proof (inv_nodup _ _ I) as H.
  rewrite app_comm_cons in H. by apply NoDup_app in H as [H _].
Qed.

(** The node after the one on which the search halts. *)
Lemma succ0_facts els sl l1 l2 midf xf :
  Inv els sl -> els = l1 ++ l2 -> headElem (sl_head sl) :: l1 = midf ++ [xf] ->
  exists l0, getLevel (arena (sl_pool sl)) (e_addr xf) 0 = Some l0 /\
    match l2 with
    | [] => next l0 = None
    | y :: _ => next l0 = Some (e_addr y) /\
                exists nd, arena (sl_pool sl) !! e_addr y = Some nd /\
                           intervalKey nd = e_key y /\
                           length (levels nd) = e_lvl y
    end.
Proof.
  intros I Hels Hmid.
  assert (Hfull : headElem (sl_head sl) :: els = midf ++ xf :: l2).
  { rewrite Hels, app_comm_cons, Hmid, <- app_assoc. done. }
  assert (Hxf : (0 < e_lvl xf)%nat).
  { apply (inv_elem_lvl els sl); [done|]. rewrite Hfull.
    apply elem_of_app. right. by left. }
  assert (Hl2 : match l2 with
                | [] => True
                | y :: _ => exists nd, arena (sl_pool sl) !! e_addr y = Some nd /\
                              intervalKey nd = e_key y /\ length (levels nd) = e_lvl y
                end).
  { destruct l2 as [|y l2']; [done|].
    pose proof (inv_shape _ _ I) as Hsh. rewrite Hfull in Hsh.
    apply Forall_app in Hsh as [_ Hsh]. apply Forall_cons in Hsh as [_ Hsh].
    apply Forall_cons in Hsh as [[Hk Hn] _].
    apply key_of_inv in Hk as (nd & Hnd & Hk). exists nd.
    unfold nlev in Hn. rewrite Hnd in Hn. simpl in Hn. injection Hn as Hn. done. }
  destruct (decide (0 < sl_maxLevel sl)) as [Hpos|Hzero].
  - pose proof (inv_slice _ _ I 0%nat ltac:(lia)) as Hs. rewrite Hfull in Hs.
    pose proof (slice_lookup _ _ _ _ _ _ Hs Hxf) as Hrec. rewrite app_nil_r in Hrec.
    exists (rec_of 0 l2). split; [done|].
    destruct l2 as [|y l2']; [done|]. split; [|done].
    simpl. assert (1 <= e_lvl y)%nat.
    { apply (inv_elem_lvl els sl); [done|]. rewrite Hfull.
      apply elem_of_app. right. right. by left. }
    destruct (Nat.ltb_spec 0 (e_lvl y)); [done|lia].
  - pose proof (inv_maxLevel_range _ _ I) as Hr.
    assert (els = []) as Hnil.
    { destruct (inv_max _ _ I) as [Hm|[? ?]]; [|lia].
      apply (height_0 _ (inv_lvl _ _ I)). lia. }
    rewrite Hnil in Hels. symmetry in Hels. apply app_eq_nil in Hels as [-> ->].
    destruct midf as [|m midf]; simpl in Hmid.
    + injection Hmid as <-. simpl.
      destruct (inv_top _ _ I 0%nat ltac:(lia) ltac:(unfold MaxLevel; lia))
        as (lv & Hlv & Hnone). eauto.
    + injection Hmid as _ Hmid. by destruct midf.
Qed.

Lemma split_unique {A} (P Q : A -> Prop) (l1 l2 l1' l2' : list A) :
  (forall x, P x -> Q x -> False) ->
  l1 ++ l2 = l1' ++ l2' ->
  Forall P l1 -> Forall Q l2 -> Forall P l1' -> Forall Q l2' ->
  l1 = l1' /\ l2 = l2'.
Proof.
  intros HPQ. revert l1'. induction l1 as [|x l1 IH]; intros [|x' l1'] Heq H1 H2 H1' H2';
    simpl in *.
  - done.
  - subst l2. apply Forall_cons in H2 as [H2 _]. apply Forall_cons in H1' as [H1' _].
    destruct (HPQ _ H1' H2).
  - subst l2'. apply Forall_cons in H2' as [H2' _]. apply Forall_cons in H1 as [H1 _].
    destruct (HPQ _ H1 H2').
  - injection Heq as -> Heq. apply Forall_cons in H1 as [_ H1].
    apply Forall_cons in H1' as [_ H1'].
    destruct (IH l1' Heq H1 H2 H1' H2') as [-> ->]. done.
Qed.

(** An element with the interval of [key] splits a sorted list into the
    elements below [key] and the rest. *)
Lemma split_at_equal l1 y l2 key :
  StronglySorted lt_elem (l1 ++ y :: l2) ->
  equalInterval (e_key y) key = true ->
  Forall (below key) l1 /\
  Forall (fun e => less (e_key e) key = false) (y :: l2).
Proof.
  intros Hs Heq. apply StronglySorted_app in Hs as (Hcross & _ & Hs).
  apply StronglySorted_cons in Hs as [Hy _]. split.
  - apply Forall_forall. intros e He. unfold below.
    rewrite <- (equalInterval_less_r _ _ _ Heq). apply Hcross; [done|by left].
  - constructor; [by apply equalInterval_not_less|].
    eapply Forall_impl; [exact Hy|]. intros e He. simpl.
    unfold lt_elem in He. rewrite (equalInterval_less_l _ _ _ Heq) in He.
    apply less_false. apply less_spec in He. lia.
Qed.

Lemma below_not_below key (x : elem) :
  below key x -> less (e_key x) key = false -> False.
Proof. unfold below. congruence. Qed.

Lemma setKey_frame h n key h' :
  setKey h n key = Some h' ->
  (forall a i, getLevel h' a i = getLevel h a i) /\
  (forall a, nlev h' a = nlev h a) /\
  (forall a, key_of h' a = if decide (a = n) then Some key else key_of h a) /\
  length h' = length h.
Proof.
  unfold setKey. destruct (h !! n) as [nd|] eqn:Hn; simpl; [|done].
  intros [= <-]. pose proof (lookup_lt_Some _ _ _ Hn) as Hlt.
  repeat split.
  - intros a i. unfold getLevel. destruct (decide (a = n)) as [->|Hne].
    + rewrite list_lookup_insert_eq by done. by rewrite Hn.
    + by rewrite list_lookup_insert_ne.
  - intros a. unfold nlev. destruct (decide (a = n)) as [->|Hne].
    + rewrite list_lookup_insert_eq by done. by rewrite Hn.
    + by rewrite list_lookup_insert_ne.
  - intros a. unfold key_of. destruct (decide (a = n)) as [->|Hne].
    + by rewrite list_lookup_insert_eq.
    + by rewrite list_lookup_insert_ne.
  - by rewrite length_insert.
Qed.

(** *** [Insert] on an interval that is stored *)

Lemma Insert_update fuel els sl key l1 y l2 :
  Inv els sl -> (length els < fuel)%nat ->
  els = l1 ++ y :: l2 -> equalInterval (e_key y) key = true ->
  exists nd,
    arena (sl_pool sl) !! e_addr y = Some nd /\ intervalKey nd = e_key y /\
    let sl' :=
      {| sl_head := sl_head sl; sl_maxLevel := sl_maxLevel sl;
         sl_length := sl_length sl;
         sl_pool := {| arena := <[e_addr y := {| intervalKey := key;
                                                 levels := levels nd;
                                                 spare := spare nd |}]>
                                  (arena (sl_pool sl));
                       free := free (sl_pool sl) |};
         sl_PCG := sl_PCG sl |} in
    Insert fuel sl key = Some (sl', Some (e_key y)) /\
    Inv (l1 ++ {| e_addr := e_addr y; e_key := key; e_lvl := e_lvl y |} :: l2) sl'.
Proof.
  intros I Hfuel Hels Heq.
  destruct (search_facts els sl key fuel I Hfuel)
    as (l1' & l2' & midf & xf & np & dist & Hels' & Hb1 & Hb2 & Hmid & Hrun & _).
  pose proof (inv_sorted _ _ I) as Hsort. rewrite Hels in Hsort.
  destruct (split_at_equal _ _ _ _ Hsort Heq) as [Hl1 Hl2].
  destruct (split_unique (below key) (fun e => less (e_key e) key = false)
              l1' l2' l1 (y :: l2) (below_not_below key)) as [-> ->]; try done.
  { by rewrite <- Hels', Hels. }
  destruct (succ0_facts els sl l1 (y :: l2) midf xf I Hels Hmid)
    as (l0 & Hl0 & Hnext & nd & Hnd & Hk & Hlen).
  exists nd. split; [done|]. split; [done|]. simpl. split.
  - unfold Insert. rewrite Hrun. cbn [mbind option_bind].
    rewrite Hl0. cbn [mbind option_bind]. rewrite Hnext, Hnd. cbn [mbind option_bind].
    rewrite Hk, Heq. unfold setKey. rewrite Hnd. cbn [mbind option_bind]. done.
  - assert (Hset : setKey (arena (sl_pool sl)) (e_addr y) key
                   = Some (<[e_addr y := {| intervalKey := key; levels := levels nd;
                                            spare := spare nd |}]> (arena (sl_pool sl)))).
    { unfold setKey. by rewrite Hnd. }
    destruct (setKey_frame _ _ _ _ Hset) as (Hget & Hnl & Hkey & Hlenh).
    set (y' := {| e_addr := e_addr y; e_key := key; e_lvl := e_lvl y |}).
    assert (Hskel : skel <$> (headElem (sl_head sl) :: l1 ++ y' :: l2)
                    = skel <$> (headElem (sl_head sl) :: els)).
    { rewrite Hels. rewrite !fmap_cons, !fmap_app, !fmap_cons. done. }
    pose proof (inv_nodup _ _ I) as Hnd0.
    split; simpl_sl.
    + rewrite (inv_length _ _ I), Hels, !length_app. done.
    + apply StronglySorted_app in Hsort as (Hcross & Hs1 & Hs2).
      apply StronglySorted_cons in Hs2 as [Hy Hs2].
      apply StronglySorted_app. split; [|split; [done|]].
      * intros a b Ha Hb. apply elem_of_cons in Hb as [->|Hb].
        -- unfold lt_elem. simpl. rewrite <- (equalInterval_less_r _ _ _ Heq).
           apply Hcross; [done|by left].
        -- apply Hcross; [done|by right].
      * apply StronglySorted_cons. split; [|done].
        eapply Forall_impl; [exact Hy|]. intros e He. unfold lt_elem in *. simpl.
        by rewrite <- (equalInterval_less_l _ _ _ Heq).
    + pose proof (inv_lvl _ _ I) as Hl. rewrite Hels in Hl.
      apply Forall_app in Hl as [Ha Hb]. apply Forall_cons in Hb as [Hb Hc].
      apply Forall_app. split; [done|]. by constructor.
    + destruct (inv_max _ _ I) as [Hm|[Hm _]].
      * left. rewrite Hm, Hels, !height_app. done.
      * rewrite Hels in Hm. by destruct l1.
    + rewrite Hels in Hnd0. by rewrite fmap_app, fmap_cons in *.
    + pose proof (inv_shape _ _ I) as Hsh.
      assert (Hother : forall e, e ∈ headElem (sl_head sl) :: l1 ++ l2 ->
                                 e_addr e <> e_addr y).
      { pose proof (inv_nodup_els _ _ I) as Hnd1. rewrite Hels in Hnd1.
        intros e He. by apply (NoDup_addr_split (headElem (sl_head sl) :: l1) l2 y). }
      rewrite Hels in Hsh. apply Forall_cons in Hsh as [Hh Hsh].
      apply Forall_app in Hsh as [Ha Hb]. apply Forall_cons in Hb as [Hb Hc].
      assert (Hkeep : forall e, e ∈ headElem (sl_head sl) :: l1 ++ l2 ->
                shaped (arena (sl_pool sl)) e ->
                shaped (<[e_addr y := {| intervalKey := key; levels := levels nd;
                                         spare := spare nd |}]> (arena (sl_pool sl))) e).
      { intros e He [Hk1 Hn1]. split.
        - rewrite Hkey. rewrite decide_False; [done|]. by apply Hother.
        - by rewrite Hnl. }
      constructor; [apply Hkeep; [by left|done]|].
      apply Forall_app. split.
      * apply Forall_forall. intros e He. apply Hkeep.
        -- right. apply elem_of_app. by left.
        -- rewrite Forall_forall in Ha. by apply Ha.
      * constructor.
        -- split; simpl; [rewrite Hkey; by rewrite decide_True|].
           rewrite Hnl. apply Hb.
        -- apply Forall_forall. intros e He. apply Hkeep.
           ++ right. apply elem_of_app. by right.
           ++ rewrite Forall_forall in Hc. by apply Hc.
    + rewrite Hlenh. apply (inv_free _ _ I).
    + intros i Hi. eapply slice_skel; [symmetry; exact Hskel|done|].
      eapply slice_frame; [|exact (inv_slice _ _ I i Hi)].
      intros e _ _. apply Hget.
    + intros i Hi1 Hi2. rewrite Hget. by apply (inv_top _ _ I).
Qed.

(** *** [Insert] of an interval that is not stored *)

Lemma key_of_lt h a k : key_of h a = Some k -> (a < length h)%nat.
Proof.
  intros H. apply key_of_inv in H as (nd & H & _). by apply lookup_lt_Some in H.
Qed.

Lemma NoDup_insert_middle (n hd : nat) (A1 A2 F : list nat) :
  NoDup (n :: hd :: (A1 ++ A2) ++ F) -> NoDup (hd :: (A1 ++ n :: A2) ++ F).
Proof.
  intros H.
  assert (hd :: (A1 ++ n :: A2) ++ F ≡ₚ n :: hd :: (A1 ++ A2) ++ F) as ->; [|done].
  rewrite <- !app_assoc. simpl. rewrite <- Permutation_middle. apply perm_swap.
Qed.

Lemma frame_getLevel (h h' : list Node) a i :
  h' !! a = h !! a -> getLevel h' a i = getLevel h a i.
Proof. unfold getLevel. by intros ->. Qed.

Lemma frame_shaped (h h' : list Node) e :
  h' !! e_addr e = h !! e_addr e -> shaped h e -> shaped h' e.
Proof. unfold shaped, key_of, nlev. by intros ->. Qed.

Lemma same_shape_shaped h h' e : same_shape h h' -> shaped h e -> shaped h' e.
Proof. intros (K & N & _) [? ?]. split; by rewrite ?K, ?N. Qed.

Lemma Insert_new fuel els sl key l1 l2 :
  Inv els sl -> (length els < fuel)%nat ->
  els = l1 ++ l2 -> Forall (below key) l1 ->
  Forall (fun e => less key (e_key e) = true) l2 ->
  exists sl' n,
    Insert fuel sl key = Some (sl', None) /\
    Inv (l1 ++ {| e_addr := n; e_key := key;
                  e_lvl := Z.to_nat (fst (randomLevel (sl_PCG sl))) |} :: l2) sl' /\
    sl_length sl' = sl_length sl + 1.
Proof.
  intros I Hfuel Hels Hl1 Hgt.
  assert (Hl2 : Forall (fun e => less (e_key e) key = false) l2).
  { eapply Forall_impl; [exact Hgt|]. intros e He. simpl in *.
    apply less_false. apply less_spec in He. lia. }
  destruct (search_facts els sl key fuel I Hfuel)
    as (l1' & l2' & midf & xf & np & dist & Hels' & Hb1 & Hb2 & Hmid & Hrun & Hlev
        & Hfr & Hnpl & Hdl).
  destruct (split_unique (below key) (fun e => less (e_key e) key = false)
              l1' l2' l1 l2 (below_not_below key)) as [-> ->]; try done.
  { by rewrite <- Hels', Hels. }
  clear Hb1 Hb2 Hels'.
  destruct (succ0_facts els sl l1 l2 midf xf I Hels Hmid) as (l0 & Hl0 & Hnext).
  pose proof (inv_maxLevel_range _ _ I) as HM.
  pose proof (randomLevel_range (sl_PCG sl)) as Hr.
  destruct (randomLevel (sl_PCG sl)) as [r g] eqn:Hrl. simpl in Hr. simpl fst.
  destruct (newNode_spec (sl_pool sl) r key ltac:(lia) (inv_free _ _ I))
    as (n & p & Hnew & Hfree & Hkn & Hnn & Hframe & Hnlt & Hgrow).
  set (y := {| e_addr := n; e_key := key; e_lvl := Z.to_nat r |}).
  pose proof (inv_shape _ _ I) as Hsh.
  (* the new address is fresh *)
  assert (Hnd : NoDup (n :: sl_head sl :: (e_addr <$> l1 ++ l2) ++ free p)).
  { pose proof (inv_nodup _ _ I) as Hnd0. rewrite Hels in Hnd0.
    destruct (free (sl_pool sl)) as [|a f] eqn:Hf.
    - destruct Hfree as [-> ->]. apply NoDup_cons. split; [|done].
      rewrite app_nil_r. rewrite <- Hels.
      change (sl_head sl :: (e_addr <$> els))
        with (e_addr <$> (headElem (sl_head sl) :: els)).
      intros Hin. apply list_elem_of_fmap in Hin as (e & He1 & He2).
      rewrite Forall_forall in Hsh. destruct (Hsh e He2) as [Hk _].
      apply key_of_lt in Hk. lia.
    - destruct Hfree as [-> ->].
      assert (a :: sl_head sl :: (e_addr <$> l1 ++ l2) ++ f
              ≡ₚ sl_head sl :: (e_addr <$> l1 ++ l2) ++ a :: f) as ->; [|done].
      exact (Permutation_middle (sl_head sl :: (e_addr <$> l1 ++ l2)) f a). }
  assert (Hfresh : forall e, e ∈ headElem (sl_head sl) :: l1 ++ l2 -> e_addr e <> n).
  { intros e He Heq. apply NoDup_cons in Hnd as [Hn _]. apply Hn.
    rewrite app_comm_cons. apply elem_of_app. left.
    change (sl_head sl :: (e_addr <$> l1 ++ l2))
      with (e_addr <$> (headElem (sl_head sl) :: l1 ++ l2)).
    rewrite <- Heq. by apply list_elem_of_fmap_2. }
  (* the distance recorded at level 0 is the position of the new node *)
  assert (Hd0 : dist !! 0%nat = Some (Z.of_nat (length l1))).
  { destruct (decide (0 < sl_maxLevel sl)) as [Hpos|Hzero].
    - destruct (Hlev 0%nat ltac:(lia)) as (a0 & x0 & b0 & Hdec & _ & Hb0 & _ & Hd).
      assert (b0 = []) as ->.
      { destruct b0 as [|e b0]; [done|]. apply Forall_cons in Hb0 as [Hb0 _].
        assert (1 <= e_lvl e)%nat.
        { apply (inv_elem_lvl els sl); [done|]. rewrite Hels, app_comm_cons, Hdec.
          apply elem_of_app. left. apply elem_of_app. right. right. by left. }
        unfold low in Hb0. lia. }
      rewrite Hd. f_equal. apply (f_equal length) in Hdec.
      rewrite length_app in Hdec. simpl in Hdec. lia.
    - assert (els = []) as Hnil.
      { destruct (inv_max _ _ I) as [Hm|[? ?]]; [|lia].
        apply (height_0 _ (inv_lvl _ _ I)). lia. }
      rewrite Hnil in Hels. symmetry in Hels. apply app_eq_nil in Hels as [-> ->].
      by destruct (Hfr 0%nat ltac:(lia) ltac:(unfold MaxLevel; lia)). }
  destruct (insert_link_loop (sl_head sl) l1 l2 y (sl_maxLevel sl) (sl_length sl) r
              np dist (arena p)) as (h & np' & Hloop & Hshape & Hslice & Htop);
    try done.
  { rewrite <- Hels. by apply inv_height_le. }
  { by rewrite (inv_length _ _ I), Hels. }
  { rewrite !app_comm_cons in Hnd. apply NoDup_app in Hnd as [Hnd _]. exact Hnd. }
  { intros i Hi. eapply slice_frame; [|rewrite <- Hels; exact (inv_slice _ _ I i Hi)].
    intros e He _. apply frame_getLevel, Hframe. by apply Hfresh. }
  { intros i Hi1 Hi2. rewrite (frame_getLevel (arena (sl_pool sl))).
    - by apply (inv_top _ _ I).
    - apply Hframe. apply (Hfresh (headElem (sl_head sl))). by left. }
  eexists _, n. split; [|split].
  - unfold Insert. rewrite Hrun. cbn [mbind option_bind].
    rewrite Hl0. cbn [mbind option_bind].
    assert (Hhit : match next l0 with
                   | Some xn =>
                     xnd ← arena (sl_pool sl) !! xn;
                     Some (if equalInterval (intervalKey xnd) key
                           then Some (xn, intervalKey xnd) else None)
                   | None => Some None
                   end = Some None).
    { destruct l2 as [|y0 l2']; [by rewrite Hnext|].
      destruct Hnext as (-> & nd & -> & Hk & _). cbn [mbind option_bind].
      rewrite Hk. apply Forall_cons in Hgt as [Hgt _].
      destruct (equalInterval (e_key y0) key) eqn:E; [|done].
      apply equalInterval_spec in E. apply less_spec in Hgt. lia. }
    rewrite Hhit. cbn [mbind option_bind]. rewrite Hrl, Hnew. cbn [mbind option_bind].
    change (e_addr y) with n in Hloop.
    rewrite Hloop. cbn [mbind option_bind]. reflexivity.
  - destruct Hshape as (HK & HN & HL).
    split; simpl_sl.
    + rewrite (inv_length _ _ I), Hels, !length_app. simpl. lia.
    + pose proof (inv_sorted _ _ I) as Hsort. rewrite Hels in Hsort.
      apply StronglySorted_app in Hsort as (Hcross & Hs1 & Hs2).
      apply StronglySorted_app. split; [|split; [done|]].
      * intros a b Ha Hb. apply elem_of_cons in Hb as [->|Hb]; [|by apply Hcross].
        rewrite Forall_forall in Hl1. by apply Hl1.
      * apply StronglySorted_cons. split; [|done]. exact Hgt.
    + pose proof (inv_lvl _ _ I) as Hl. rewrite Hels in Hl.
      apply Forall_app in Hl as [Ha Hb]. apply Forall_app. split; [done|].
      constructor; [|done]. simpl. unfold MaxLevel in *. lia.
    + left. rewrite height_app. simpl.
      destruct (inv_max _ _ I) as [Hm|[Hm1 Hm2]].
      * rewrite Hm, Hels, height_app. lia.
      * rewrite Hm2. rewrite Hels in Hm1. apply app_eq_nil in Hm1 as [-> ->].
        simpl. lia.
    + rewrite fmap_app, fmap_cons. simpl. apply NoDup_insert_middle.
      by rewrite fmap_app in Hnd.
    + assert (Hold : Forall (shaped h) (headElem (sl_head sl) :: l1 ++ l2)).
      { apply Forall_forall. intros e He.
        apply (same_shape_shaped (arena p)); [by repeat split|].
        apply (frame_shaped (arena (sl_pool sl))).
        - apply Hframe. by apply Hfresh.
        - rewrite Forall_forall in Hsh. apply Hsh. by rewrite Hels. }
      apply Forall_cons in Hold as [Hh Hold]. apply Forall_app in Hold as [Ha Hb].
      constructor; [done|]. apply Forall_app. split; [done|].
      constructor; [|done]. split; simpl; by rewrite ?HK, ?HN.
    + apply Forall_forall. intros a Ha. rewrite HL.
      pose proof (inv_free _ _ I) as Hf. rewrite Forall_forall in Hf.
      assert (a ∈ free (sl_pool sl)) as Hin.
      { destruct (free (sl_pool sl)) as [|a0 f]; destruct Hfree as [_ Hfp];
          rewrite Hfp in Ha; [by apply elem_of_nil in Ha|by right]. }
      specialize (Hf _ Hin). lia.
    + intros i Hi. by apply Hslice.
    + intros i Hi1 Hi2. rewrite Htop by done.
      rewrite (frame_getLevel (arena (sl_pool sl))).
      * apply (inv_top _ _ I); [lia|done].
      * apply Hframe. apply (Hfresh (headElem (sl_head sl))). by left.
  - done.
Qed.

(** ** The unlinking loop of [Delete] *)

Lemma nlev_inv h a m :
  nlev h a = Some m -> exists nd, h !! a = Some nd /\ length (levels nd) = m.
Proof.
  unfold nlev. destruct (h !! a) as [nd|]; simpl; [|done].
  intros [= <-]. eauto.
Qed.

Section DeleteLoop.

Variables (hd : addr) (l1 : list elem) (y : elem) (l2 : list elem) (M0 : Z).
Variables (np : list (option addr)) (h0 : list Node).

Hypothesis HM : M0 = Z.of_nat (height (l1 ++ y :: l2)).
Hypothesis HM32 : M0 <= MaxLevel.
Hypothesis Hnd : NoDup (e_addr <$> (headElem hd :: l1 ++ y :: l2)).
Hypothesis Hny : nlev h0 (e_addr y) = Some (e_lvl y).
Hypothesis Hsl : forall i, Z.of_nat i < M0 ->
  slice h0 i (headElem hd :: l1 ++ y :: l2) [].
Hypothesis Hlev : forall i, Z.of_nat i < M0 ->
  exists ai xi bi, headElem hd :: l1 = ai ++ xi :: bi /\ (i < e_lvl xi)%nat /\
                   Forall (low i) bi /\ np !! i = Some (Some (e_addr xi)).

(** [maxLevel] after the levels below [j] have been treated: it drops to
    the height of the remaining list at the first level that the head
    loses, provided the list was higher than one level. *)
Definition shrunk (j : nat) : Z :=
  if (Z.of_nat (height (l1 ++ l2)) <? Z.min (Z.of_nat j) (Z.of_nat (e_lvl y)))
     && (1 <? M0)
  then Z.of_nat (height (l1 ++ l2)) else M0.

Definition unlink_inv (j : nat) (st : list Node * Z) : Prop :=
  let '(h, ml) := st in
  ml = shrunk j /\ same_shape h0 h /\
  (forall i, (i < j)%nat -> slice h i (headElem hd :: l1 ++ l2) []) /\
  (forall i a', (j <= i)%nat -> getLevel h a' i = getLevel h0 a' i).

Lemma delete_unlink_step j st :
  Z.of_nat j < M0 -> unlink_inv j st ->
  exists st', delete_unlink hd (e_addr y) np j st = Some st' /\
              unlink_inv (S j) st'.
Proof.
  destruct st as [h ml]. intros Hj (Hml & Hsh & Hdone & Hsame).
  destruct (Hlev j Hj) as (a & x & b & Hdec & Hx & Hb & Hnp).
  assert (Hlist : headElem hd :: l1 ++ y :: l2 = a ++ x :: b ++ y :: l2).
  { by rewrite app_comm_cons, Hdec, <- app_assoc. }
  assert (Hlist' : headElem hd :: l1 ++ l2 = a ++ x :: b ++ l2).
  { by rewrite app_comm_cons, Hdec, <- app_assoc. }
  assert (Hs : slice h j (a ++ x :: b ++ y :: l2) []).
  { rewrite <- Hlist. eapply slice_frame; [|exact (Hsl j Hj)].
    intros e _ _. apply Hsame. lia. }
  assert (Hnd' : NoDup (e_addr <$> (a ++ x :: b ++ y :: l2))) by (by rewrite <- Hlist).
  assert (Hny' : nlev h (e_addr y) = Some (e_lvl y)).
  { destruct Hsh as (_ & -> & _). done. }
  destruct (nlev_inv _ _ _ Hny') as (nd & Hndl & Hlen).
  assert (Hrest : forall h' ml',
    ml' = shrunk (S j) ->
    slice h' j (a ++ x :: b ++ l2) [] ->
    (forall a' i, i <> j -> getLevel h' a' i = getLevel h a' i) ->
    same_shape h h' ->
    unlink_inv (S j) (h', ml')).
  { intros h' ml' Hml' Hs' Hf' Hsh'. split; [done|].
    split; [by eapply same_shape_trans|]. split.
    - intros i Hi. destruct (decide (i = j)) as [->|Hne].
      + by rewrite Hlist'.
      + eapply slice_frame; [|apply (Hdone i); lia].
        intros e _ _. by apply Hf'.
    - intros i a' Hi. rewrite Hf' by lia. apply Hsame. lia. }
  unfold delete_unlink. rewrite Hndl. cbn [mbind option_bind]. rewrite Hlen.
  rewrite Hnp. cbn [mbind option_bind id].
  assert (Hheight : height (l1 ++ y :: l2)
                    = Nat.max (e_lvl y) (height (l1 ++ l2))).
  { rewrite !height_app. simpl. lia. }
  case_bool_decide as Hpres.
  - destruct (unlink_level h j a x b y l2 Hs Hx Hb Hpres Hnd')
      as (pl & nl & h2 & pl1 & nl1 & h3 & E1 & Hnext & E2 & E3 & E4 & E5 & E6
          & Hs3 & Hf3 & Hsh3).
    rewrite E1. cbn [mbind option_bind]. rewrite Hnext.
    rewrite bool_decide_eq_true_2 by done.
    rewrite E2. cbn [mbind option_bind]. rewrite E3. cbn [mbind option_bind].
    rewrite E4. cbn [mbind option_bind]. rewrite E5. cbn [mbind option_bind].
    rewrite E6. cbn [mbind option_bind].
    destruct ((ml >? Z.of_nat j) && (ml >? 1)) eqn:Hc.
    + apply andb_true_iff in Hc as [Hc1 Hc2].
      apply Z.gtb_lt in Hc1. apply Z.gtb_lt in Hc2.
      assert (Hhead : getLevel h3 hd j = Some (rec_of j (l1 ++ l2))).
      { rewrite <- Hlist' in Hs3. simpl in Hs3. destruct Hs3 as [Hh _].
        rewrite app_nil_r in Hh. apply Hh. simpl. unfold MaxLevel in *. lia. }
      rewrite Hhead. cbn [mbind option_bind]. simpl next.
      destruct (nxt j (l1 ++ l2)) as [m|] eqn:Hn.
      * eexists. split; [done|]. apply Hrest; try done.
        assert (~ Forall (low j) (l1 ++ l2)) as Hnl.
        { rewrite <- nxt_None. congruence. }
        rewrite <- height_low in Hnl.
        rewrite Hml. unfold shrunk in *.
        repeat (case_match; try lia);
          rewrite ?andb_true_iff, ?andb_false_iff, ?Z.ltb_lt, ?Z.ltb_ge in *; lia.
      * eexists. split; [done|]. apply Hrest; try done.
        apply nxt_None, height_low in Hn.
        rewrite Hml in Hc1, Hc2. unfold shrunk in *.
        repeat (case_match; try lia);
          rewrite ?andb_true_iff, ?andb_false_iff, ?Z.ltb_lt, ?Z.ltb_ge in *; lia.
    + eexists. split; [done|]. apply Hrest; try done.
      apply andb_false_iff in Hc. rewrite !Z.gtb_ltb, !Z.ltb_ge in Hc.
      rewrite Hml in *. unfold shrunk in *.
      repeat (case_match; try lia);
        rewrite ?andb_true_iff, ?andb_false_iff, ?Z.ltb_lt, ?Z.ltb_ge in *; lia.
  - destruct (shrink_level h j a x b y l2 Hs Hx Hb ltac:(lia) Hnd')
      as (pl & h2 & E1 & E2 & Hs2 & Hf2 & Hsh2).
    rewrite E1. cbn [mbind option_bind]. rewrite E2. cbn [mbind option_bind].
    eexists. split; [done|]. apply Hrest; try done.
    rewrite Hml. unfold shrunk.
    replace (Z.min (Z.of_nat (S j)) (Z.of_nat (e_lvl y)))
      with (Z.min (Z.of_nat j) (Z.of_nat (e_lvl y))) by lia. done.
Qed.

Lemma delete_unlink_loop :
  0 <= M0 ->
  exists h,
    for_up (Z.to_nat M0) 0 (delete_unlink hd (e_addr y) np) (h0, M0)
      = Some (h, shrunk (Z.to_nat M0)) /\
    same_shape h0 h /\
    (forall i, Z.of_nat i < M0 -> slice h i (headElem hd :: l1 ++ l2) []) /\
    (forall i a', M0 <= Z.of_nat i -> getLevel h a' i = getLevel h0 a' i).
Proof.
  intros Hpos.
  destruct (for_up_inv unlink_inv (delete_unlink hd (e_addr y) np)
              (Z.to_nat M0) 0 (h0, M0)) as ([h ml] & Hrun & HI).
  - split; [|split; [apply same_shape_refl|split; [intros; lia|done]]].
    unfold shrunk. simpl. case_match; [|done].
    rewrite andb_true_iff, Z.ltb_lt in *. lia.
  - intros j st Hj HI. apply delete_unlink_step; [lia|done].
  - destruct HI as (Hml & Hsh & Hdone & Hsame). simpl in Hml.
    exists h. split; [by rewrite Hrun, Hml|]. split; [done|]. split.
    + intros i Hi. apply Hdone. lia.
    + intros i a' Hi. apply Hsame. lia.
Qed.

End DeleteLoop.

(** *** [Delete] *)

Lemma NoDup_remove_middle (n hd : nat) (A1 A2 F : list nat) :
  NoDup (hd :: (A1 ++ n :: A2) ++ F) -> NoDup (hd :: (A1 ++ A2) ++ n :: F).
Proof.
  intros H.
  assert (hd :: (A1 ++ A2) ++ n :: F ≡ₚ hd :: (A1 ++ n :: A2) ++ F) as ->; [|done].
  rewrite <- !app_assoc. simpl. by rewrite <- !Permutation_middle.
Qed.

Lemma Delete_found fuel els sl key l1 y l2 :
  Inv els sl -> (length els < fuel)%nat ->
  els = l1 ++ y :: l2 -> equalInterval (e_key y) key = true ->
  exists sl',
    Delete fuel sl key = Some (sl', Some (e_key y)) /\
    Inv (l1 ++ l2) sl' /\
    sl_length sl' = sl_length sl - 1 /\
    sl_maxLevel sl' = shrunk l1 y l2 (sl_maxLevel sl) (Z.to_nat (sl_maxLevel sl)).
Proof.
  intros I Hfuel Hels Heq.
  destruct (search_facts els sl key fuel I Hfuel)
    as (l1' & l2' & midf & xf & np & dist & Hels' & Hb1 & Hb2 & Hmid & Hrun & Hlev & _).
  pose proof (inv_sorted _ _ I) as Hsort. rewrite Hels in Hsort.
  destruct (split_at_equal _ _ _ _ Hsort Heq) as [Hl1 Hl2].
  destruct (split_unique (below key) (fun e => less (e_key e) key = false)
              l1' l2' l1 (y :: l2) (below_not_below key)) as [-> ->]; try done.
  { by rewrite <- Hels', Hels. }
  clear Hb1 Hb2 Hels'.
  apply delete_search_sim in Hrun.
  destruct (succ0_facts els sl l1 (y :: l2) midf xf I Hels Hmid)
    as (l0 & Hl0 & Hnext & nd0 & Hnd0 & Hk0 & Hlen0).
  pose proof (inv_maxLevel_range _ _ I) as HM.
  pose proof (inv_shape _ _ I) as Hsh.
  pose proof (inv_nodup_els _ _ I) as Hnd. rewrite Hels in Hnd.
  assert (HMh : sl_maxLevel sl = Z.of_nat (height (l1 ++ y :: l2))).
  { destruct (inv_max _ _ I) as [Hm|[Hm _]]; [by rewrite <- Hels|].
    rewrite Hels in Hm. by destruct l1. }
  assert (Hshy : shaped (arena (sl_pool sl)) y).
  { rewrite Forall_forall in Hsh. apply Hsh. rewrite Hels. right.
    apply elem_of_app. right. by left. }
  destruct (delete_unlink_loop (sl_head sl) l1 y l2 (sl_maxLevel sl) np
              (arena (sl_pool sl))) as (h & Hloop & Hshape & Hslice & Htop); try done.
  { lia. }
  { by destruct Hshy. }
  { intros i Hi. rewrite <- Hels. by apply (inv_slice _ _ I). }
  { intros i Hi. destruct (Hlev i Hi) as (ai & xi & bi & ? & ? & ? & ? & _). eauto 10. }
  { lia. }
  destruct Hshape as (HK & HN & HL).
  assert (Hkn : key_of h (e_addr y) = Some (e_key y)).
  { rewrite HK. by destruct Hshy. }
  apply key_of_inv in Hkn as (nd & Hndh & Hkh).
  eexists. split; [|split; [|split]].
  - unfold Delete. rewrite Hrun. cbn [mbind option_bind].
    rewrite Hl0. cbn [mbind option_bind]. rewrite Hnext, Hnd0. cbn [mbind option_bind].
    rewrite Hk0, Heq. cbn [mbind option_bind].
    rewrite Hloop. cbn [mbind option_bind]. rewrite Hndh. cbn [mbind option_bind].
    rewrite Hkh. reflexivity.
  - assert (Hother : forall e, e ∈ headElem (sl_head sl) :: l1 ++ l2 ->
                               e_addr e <> e_addr y).
    { intros e He. by apply (NoDup_addr_split (headElem (sl_head sl) :: l1) l2 y). }
    assert (Hlvl : Forall (fun e => (1 <= e_lvl e <= Z.to_nat MaxLevel)%nat)
                          (l1 ++ y :: l2)) by (rewrite <- Hels; apply (inv_lvl _ _ I)).
    assert (Hheight : height (l1 ++ y :: l2)
                      = Nat.max (e_lvl y) (height (l1 ++ l2))).
    { rewrite !height_app. simpl. lia. }
    assert (Hy1 : (1 <= e_lvl y)%nat).
    { apply Forall_app in Hlvl as [_ Hlvl]. apply Forall_cons in Hlvl as [? _]. lia. }
    assert (Hlvl' : Forall (fun e => (1 <= e_lvl e <= Z.to_nat MaxLevel)%nat) (l1 ++ l2)).
    { apply Forall_app in Hlvl as [Ha Hb]. apply Forall_cons in Hb as [_ Hb].
      by apply Forall_app. }
    split; unfold put; simpl_sl.
    + rewrite (inv_length _ _ I), Hels, !length_app. simpl. lia.
    + apply StronglySorted_app in Hsort as (Hcross & Hs1 & Hs2).
      apply StronglySorted_cons in Hs2 as [_ Hs2].
      apply StronglySorted_app. split; [|done].
      intros a b Ha Hb. apply Hcross; [done|by right].
    + done.
    + unfold shrunk. rewrite Z2Nat.id by lia.
      destruct (Z.ltb_spec (Z.of_nat (height (l1 ++ l2)))
                  (Z.min (sl_maxLevel sl) (Z.of_nat (e_lvl y))));
        destruct (Z.ltb_spec 1 (sl_maxLevel sl)); simpl; try (left; lia).
      right. split; [|lia]. apply (height_0 _ Hlvl'). lia.
    + rewrite fmap_app. apply NoDup_remove_middle.
      pose proof (inv_nodup _ _ I) as Hnd1. rewrite Hels in Hnd1.
      by rewrite fmap_app, fmap_cons in Hnd1.
    + apply Forall_forall. intros e He.
      apply (frame_shaped h).
      * apply list_lookup_alter_ne. apply not_eq_sym. by apply Hother.
      * apply (same_shape_shaped (arena (sl_pool sl))); [by repeat split|].
        rewrite Forall_forall in Hsh. apply Hsh. rewrite Hels.
        apply elem_of_cons in He as [->|He]; [by left|right].
        apply elem_of_app in He as [He|He]; apply elem_of_app; [by left|].
        right. by right.
    + rewrite length_alter, HL. constructor.
      * destruct Hshy as [Hk _]. by apply key_of_lt in Hk.
      * apply (inv_free _ _ I).
    + intros i Hi.
      assert (Z.of_nat i < sl_maxLevel sl) as Hi'.
      { revert Hi. unfold shrunk. case_match; lia. }
      eapply slice_frame; [|exact (Hslice i Hi')].
      intros e He _. apply frame_getLevel.
      apply list_lookup_alter_ne. apply not_eq_sym. by apply Hother.
    + intros i Hi1 Hi2.
      rewrite (frame_getLevel h).
      2:{ apply list_lookup_alter_ne. apply not_eq_sym.
          apply (Hother (headElem (sl_head sl))). by left. }
      destruct (decide (sl_maxLevel sl <= Z.of_nat i)) as [Hge|Hlt].
      * rewrite Htop by done. by apply (inv_top _ _ I).
      * pose proof (Hslice i ltac:(lia)) as Hs. simpl in Hs. destruct Hs as [Hh _].
        rewrite app_nil_r in Hh. rewrite Hh by done.
        eexists. split; [done|]. simpl. apply nxt_None, height_low.
        revert Hi1. unfold shrunk. case_match; lia.
  - simpl. done.
  - simpl. done.
Qed.

Lemma Delete_missing fuel els sl key :
  Inv els sl -> (length els < fuel)%nat ->
  (forall e, e ∈ els -> equalInterval (e_key e) key = false) ->
  Delete fuel sl key = Some (sl, None).
Proof.
  intros I Hfuel Hno.
  destruct (search_facts els sl key fuel I Hfuel)
    as (l1 & l2 & midf & xf & np & dist & Hels & Hb1 & Hb2 & Hmid & Hrun & _).
  apply delete_search_sim in Hrun.
  destruct (succ0_facts els sl l1 l2 midf xf I Hels Hmid) as (l0 & Hl0 & Hnext).
  unfold Delete. rewrite Hrun. cbn [mbind option_bind].
  rewrite Hl0. cbn [mbind option_bind].
  destruct l2 as [|y0 l2'].
  - by rewrite Hnext.
  - destruct Hnext as (-> & nd & -> & Hk & _). cbn [mbind option_bind].
    rewrite Hk, Hno; [done|]. rewrite Hels. apply elem_of_app. right. by left.
Qed.

(** ** More fuel does not change a result *)

Lemma advance_mono h i k : forall f f' n r,
  advance f h i k n = Some r -> (f <= f')%nat -> advance f' h i k n = Some r.
Proof.
  induction f as [|f IH]; intros f' n r H Hle; [done|].
  destruct f' as [|f']; [lia|]. simpl in *.
  destruct (getLevel h n i) as [lv|]; simpl in *; [|done].
  destruct (next lv) as [m|]; [|done].
  destruct (h !! m) as [nm|]; simpl in *; [|done].
  destruct (less (intervalKey nm) k); [|done]. apply IH; [done|lia].
Qed.

Lemma advance_dist_mono h i k : forall f f' n d r,
  advance_dist f h i k n d = Some r -> (f <= f')%nat ->
  advance_dist f' h i k n d = Some r.
Proof.
  induction f as [|f IH]; intros f' n d r H Hle; [done|].
  destruct f' as [|f']; [lia|]. simpl in *.
  destruct (getLevel h n i) as [lv|]; simpl in *; [|done].
  destruct (next lv) as [m|]; [|done].
  destruct (h !! m) as [nm|]; simpl in *; [|done].
  destruct (less (intervalKey nm) k); [|done]. apply IH; [done|lia].
Qed.

Lemma for_down_mono {St} (body body' : nat -> St -> option St) :
  (forall i s r, body i s = Some r -> body' i s = Some r) ->
  forall k s r, for_down k body s = Some r -> for_down k body' s = Some r.
Proof.
  intros Hb. induction k as [|k IH]; intros s r H; [done|].
  rewrite for_down_S in *.
  destruct (body k s) as [s1|] eqn:E; simpl in H; [|done].
  rewrite (Hb _ _ _ E). simpl. by apply IH.
Qed.

Lemma insert_search_mono f f' h k i st r :
  (f <= f')%nat ->
  insert_search f h k i st = Some r -> insert_search f' h k i st = Some r.
Proof.
  intros Hle. destruct st as [[n np] dist]. unfold insert_search.
  destruct (if bool_decide (i < length dist - 1)%nat
            then d ← dist !! S i; Some (<[i := d]> dist)
            else Some dist) as [dist1|]; simpl; [|done].
  destruct (dist1 !! i) as [d|]; simpl; [|done].
  destruct (advance_dist f h i k n d) as [[n1 d1]|] eqn:E; simpl; [|done].
  by rewrite (advance_dist_mono _ _ _ _ _ _ _ _ E Hle).
Qed.

Lemma delete_search_mono f f' h k i st r :
  (f <= f')%nat ->
  delete_search f h k i st = Some r -> delete_search f' h k i st = Some r.
Proof.
  intros Hle. destruct st as [n np]. unfold delete_search.
  destruct (advance f h i k n) as [n1|] eqn:E; simpl; [|done].
  by rewrite (advance_mono _ _ _ _ _ _ _ E Hle).
Qed.

Lemma Insert_mono f f' sl k r :
  (f <= f')%nat -> Insert f sl k = Some r -> Insert f' sl k = Some r.
Proof.
  intros Hle. unfold Insert.
  destruct (for_down _ (insert_search f _ _) _) as [s|] eqn:E;
    cbn [mbind option_bind]; [|done].
  rewrite (for_down_mono _ (insert_search f' (arena (sl_pool sl)) k)
             (fun i s r => insert_search_mono f f' _ k i s r Hle) _ _ _ E).
  done.
Qed.

Lemma Delete_mono f f' sl k r :
  (f <= f')%nat -> Delete f sl k = Some r -> Delete f' sl k = Some r.
Proof.
  intros Hle. unfold Delete.
  destruct (for_down _ (delete_search f _ _) _) as [s|] eqn:E;
    cbn [mbind option_bind]; [|done].
  rewrite (for_down_mono _ (delete_search f' (arena (sl_pool sl)) k)
             (fun i s r => delete_search_mono f f' _ k i s r Hle) _ _ _ E).
  done.
Qed.

(** ** Every reachable list satisfies the invariant *)

Lemma partition_by_key key : forall els,
  StronglySorted lt_elem els ->
  exists l1 l2, els = l1 ++ l2 /\ Forall (below key) l1 /\
                Forall (fun e => less (e_key e) key = false) l2.
Proof.
  induction els as [|e els IH]; intros Hs.
  - exists [], []. by repeat split.
  - apply StronglySorted_cons in Hs as [He Hs].
    destruct (less (e_key e) key) eqn:Hlt.
    + destruct (IH Hs) as (l1 & l2 & -> & H1 & H2).
      exists (e :: l1), l2. repeat split; [|done]. by constructor.
    + exists [], (e :: els). repeat split; [constructor|].
      constructor; [done|]. eapply Forall_impl; [exact He|].
      intros e' He'. simpl. by eapply less_ge_trans.
Qed.

Lemma not_below_cases key l2 :
  StronglySorted lt_elem l2 ->
  Forall (fun e => less (e_key e) key = false) l2 ->
  (exists y l2', l2 = y :: l2' /\ equalInterval (e_key y) key = true) \/
  Forall (fun e => less key (e_key e) = true) l2.
Proof.
  intros Hs Hnb. destruct l2 as [|y l2']; [by right|].
  destruct (equalInterval (e_key y) key) eqn:E; [left; eauto|right].
  apply Forall_cons in Hnb as [Hy _]. apply StronglySorted_cons in Hs as [Hall _].
  assert (less key (e_key y) = true) as Hky.
  { destruct (less key (e_key y)) eqn:E'; [done|].
    by rewrite (less_trichotomy _ _ Hy E') in E. }
  constructor; [done|]. eapply Forall_impl; [exact Hall|].
  intros e He. simpl. by eapply less_trans.
Qed.

Lemma Insert_inv fuel els sl key :
  Inv els sl -> (length els < fuel)%nat ->
  exists sl' r els', Insert fuel sl key = Some (sl', r) /\ Inv els' sl'.
Proof.
  intros I Hfuel.
  destruct (partition_by_key key els (inv_sorted _ _ I)) as (l1 & l2 & Hels & H1 & H2).
  pose proof (inv_sorted _ _ I) as Hs. rewrite Hels in Hs.
  apply StronglySorted_app in Hs as (_ & _ & Hs2).
  destruct (not_below_cases key l2 Hs2 H2) as [(y & l2' & -> & Heq)|Hgt].
  - destruct (Insert_update fuel els sl key l1 y l2' I Hfuel Hels Heq)
      as (nd & _ & _ & Hrun & I'). eauto.
  - destruct (Insert_new fuel els sl key l1 l2 I Hfuel Hels H1 Hgt)
      as (sl' & n & Hrun & I' & _). eauto.
Qed.

Lemma Delete_inv fuel els sl key :
  Inv els sl -> (length els < fuel)%nat ->
  exists sl' r els', Delete fuel sl key = Some (sl', r) /\ Inv els' sl'.
Proof.
  intros I Hfuel.
  destruct (partition_by_key key els (inv_sorted _ _ I)) as (l1 & l2 & Hels & H1 & H2).
  pose proof (inv_sorted _ _ I) as Hs. rewrite Hels in Hs.
  apply StronglySorted_app in Hs as (_ & _ & Hs2).
  destruct (not_below_cases key l2 Hs2 H2) as [(y & l2' & -> & Heq)|Hgt].
  - destruct (Delete_found fuel els sl key l1 y l2' I Hfuel Hels Heq)
      as (sl' & Hrun & I' & _). eauto.
  - exists sl, None, els. split; [|done].
    apply (Delete_missing fuel els sl key I Hfuel).
    intros e He. rewrite Hels in He. apply elem_of_app in He as [He|He].
    + rewrite Forall_forall in H1. specialize (H1 _ He). unfold below in H1.
      destruct (equalInterval (e_key e) key) eqn:E; [|done].
      apply equalInterval_not_less in E. congruence.
    + rewrite Forall_forall in Hgt. specialize (Hgt _ He). simpl in Hgt.
      destruct (equalInterval (e_key e) key) eqn:E; [|done].
      apply equalInterval_spec in E. apply less_spec in Hgt. lia.
Qed.

Lemma sublist_Forall {A} (P : A -> Prop) (l k : list A) :
  sublist l k -> Forall P k -> Forall P l.
Proof.
  induction 1 as [|x l k _ IH|x l k _ IH]; intros H; [done|..];
    apply Forall_cons in H as [Hx H]; [constructor|]; auto.
Qed.

Lemma evict_inv els sl f :
  Inv els sl -> sublist f (free (sl_pool sl)) -> Inv els (evict sl f).
Proof.
  intros I Hf. split; try apply I; simpl.
  - eapply sublist_NoDup; [apply (inv_nodup _ _ I)|].
    apply sublist_skip. by apply sublist_app.
  - eapply sublist_Forall; [exact Hf|apply (inv_free _ _ I)].
Qed.

Lemma reachable_inv sl : reachable sl -> exists els, Inv els sl.
Proof.
  induction 1 as [g sl HN|sl fuel k sl' r _ [els I] Hrun|sl fuel k sl' r _ [els I] Hrun
                  |sl f _ [els I] Hf].
  4:{ exists els. by apply evict_inv. }
  - destruct (New_inv g) as (sl0 & HN0 & I). rewrite HN in HN0.
    injection HN0 as ->. eauto.
  - destruct (Insert_inv (Nat.max fuel (S (length els))) els sl k I ltac:(lia))
      as (sl1 & r1 & els1 & Hrun1 & I1).
    rewrite (Insert_mono fuel (Nat.max fuel (S (length els))) sl k _ ltac:(lia) Hrun)
      in Hrun1.
    injection Hrun1 as <- _. eauto.
  - destruct (Delete_inv (Nat.max fuel (S (length els))) els sl k I ltac:(lia))
      as (sl1 & r1 & els1 & Hrun1 & I1).
    rewrite (Delete_mono fuel (Nat.max fuel (S (length els))) sl k _ ltac:(lia) Hrun)
      in Hrun1.
    injection Hrun1 as <- _. eauto.
Qed.

(** ** Traversals of a list that satisfies the invariant *)

Lemma chain_spec h i : forall l fuel,
  slice h i l [] -> (length l <= fuel)%nat ->
  chain fuel h i (nxt i l) = Some (e_addr <$> filter (occupies i) l).
Proof.
  induction l as [|e l IH]; intros fuel Hs Hf; simpl.
  - by destruct fuel.
  - destruct Hs as [He Hs]. rewrite app_nil_r in He.
    rewrite filter_cons.
    destruct (Nat.ltb_spec i (e_lvl e)) as [Hlt|Hge].
    + rewrite decide_True by done.
      destruct fuel as [|f]; [simpl in Hf; lia|]. simpl.
      rewrite (He Hlt). simpl. rewrite (IH f Hs ltac:(simpl in Hf; lia)). done.
    + rewrite decide_False by (unfold occupies; lia).
      apply IH; [done|simpl in Hf; lia].
Qed.

Lemma inv_head_next els sl i :
  Inv els sl -> (i < Z.to_nat MaxLevel)%nat ->
  exists lv, getLevel (arena (sl_pool sl)) (sl_head sl) i = Some lv /\
             next lv = nxt i els /\
             (Z.of_nat i < sl_maxLevel sl -> span lv = gap i els).
Proof.
  intros I Hi. destruct (decide (Z.of_nat i < sl_maxLevel sl)) as [Hlt|Hge].
  - pose proof (inv_slice _ _ I i Hlt) as [Hh _]. rewrite app_nil_r in Hh.
    specialize (Hh Hi). eauto.
  - destruct (inv_top _ _ I i ltac:(lia) Hi) as (lv & Hlv & Hnone).
    exists lv. split; [done|]. split; [|lia]. rewrite Hnone. symmetry.
    apply nxt_None, height_low. pose proof (inv_height_le _ _ I). lia.
Qed.

Lemma inv_slice_els els sl i :
  Inv els sl -> slice (arena (sl_pool sl)) i els [].
Proof.
  intros I. destruct (decide (Z.of_nat i < sl_maxLevel sl)) as [Hlt|Hge].
  - by pose proof (inv_slice _ _ I i Hlt) as [_ ?].
  - apply slice_low, height_low. pose proof (inv_height_le _ _ I). lia.
Qed.

Lemma level_nodes_spec els sl fuel i :
  Inv els sl -> (length els <= fuel)%nat -> (i < Z.to_nat MaxLevel)%nat ->
  level_nodes fuel sl i = Some (e_addr <$> filter (occupies i) els).
Proof.
  intros I Hf Hi. unfold level_nodes.
  destruct (inv_head_next els sl i I Hi) as (lv & Hlv & Hn & _).
  rewrite Hlv. simpl. rewrite Hn.
  apply chain_spec; [by apply inv_slice_els|done].
Qed.

Lemma filter_occupies_0 els sl :
  Inv els sl -> filter (occupies 0) els = els.
Proof.
  intros I. pose proof (inv_lvl _ _ I) as H. clear I.
  induction H as [|e l He _ IH]; [done|].
  rewrite filter_cons, decide_True; [by rewrite IH|].
  unfold occupies. lia.
Qed.

Lemma mapM_key_of h (l : list elem) :
  Forall (shaped h) l -> mapM (key_of h) (e_addr <$> l) = Some (e_key <$> l).
Proof.
  intros H. apply mapM_Some. induction H as [|e l [He _] _ IH]; simpl.
  - constructor.
  - by constructor.
Qed.

Lemma stored_keys_spec els sl fuel :
  Inv els sl -> (length els <= fuel)%nat ->
  stored_keys fuel sl = Some (e_key <$> els).
Proof.
  intros I Hf. unfold stored_keys.
  rewrite (level_nodes_spec els sl fuel 0 I Hf) by (unfold MaxLevel; lia).
  simpl. rewrite (filter_occupies_0 els sl I).
  apply mapM_key_of. pose proof (inv_shape _ _ I) as H.
  by apply Forall_cons in H as [_ H].
Qed.

Lemma enough_length els sl fuel :
  Inv els sl -> enough sl fuel -> (length els + 2 <= fuel)%nat.
Proof. unfold enough. intros I. rewrite (inv_length _ _ I). lia. Qed.

(** After the first hop from a node followed by [post], the spans to the
    element [t] of [post] add up to what is left of its distance. *)
Lemma span_sum_tail h i t : forall post p1 p2 fuel,
  slice h i post [] -> post = p1 ++ t :: p2 -> (i < e_lvl t)%nat ->
  NoDup (e_addr <$> post) -> (length post <= fuel)%nat ->
  (m ← nxt i post; span_sum fuel h i m (e_addr t))
  = Some (Z.of_nat (length p1) + 1 - gap i post).
Proof.
  induction post as [|e post IH]; intros p1 p2 fuel Hs Hdec Ht Hnd Hf.
  - by destruct p1.
  - simpl in Hs. destruct Hs as [He Hs]. rewrite app_nil_r in He.
    rewrite fmap_cons in Hnd. apply NoDup_cons in Hnd as [Hne Hnd].
    simpl in Hf. simpl. destruct (Nat.ltb_spec i (e_lvl e)) as [Hlt|Hge].
    + simpl. destruct p1 as [|e' p1]; simpl in Hdec; injection Hdec as -> Hdec.
      * destruct fuel; simpl; rewrite decide_True by done; f_equal; lia.
      * destruct fuel as [|f]; [lia|]. simpl.
        rewrite decide_False.
        2:{ intros Heq. apply Hne. rewrite Heq, Hdec.
            apply list_elem_of_fmap_2. apply elem_of_app. right. by left. }
        rewrite (He Hlt). simpl.
        pose proof (IH p1 p2 f Hs Hdec Ht Hnd ltac:(lia)) as Hrec.
        destruct (nxt i post) as [m|]; simpl in *; [|done].
        rewrite Hrec. simpl. f_equal. lia.
    + destruct p1 as [|e' p1]; simpl in Hdec; injection Hdec as -> Hdec; [lia|].
      rewrite (IH p1 p2 fuel Hs Hdec Ht Hnd ltac:(lia)). f_equal. simpl. lia.
Qed.

Lemma span_sum_head els sl fuel i p1 t p2 :
  Inv els sl -> els = p1 ++ t :: p2 -> (i < e_lvl t)%nat ->
  (length els < fuel)%nat ->
  span_sum fuel (arena (sl_pool sl)) i (sl_head sl) (e_addr t)
  = Some (Z.of_nat (length p1) + 1).
Proof.
  intros I Hels Ht Hf.
  pose proof (inv_nodup_els _ _ I) as Hnd. rewrite fmap_cons in Hnd.
  apply NoDup_cons in Hnd as [Hne Hnd].
  assert (Hi : (i < Z.to_nat MaxLevel)%nat).
  { pose proof (inv_lvl _ _ I) as Hl. rewrite Forall_forall in Hl.
    assert (t ∈ els) as Hin by (rewrite Hels; apply elem_of_app; right; by left).
    specialize (Hl _ Hin). lia. }
  assert (Him : Z.of_nat i < sl_maxLevel sl).
  { pose proof (inv_height_le _ _ I) as Hh. rewrite Hels, height_app in Hh.
    simpl in Hh. lia. }
  destruct (inv_head_next els sl i I Hi) as (lv & Hlv & Hn & Hsp).
  destruct fuel as [|f]; [lia|]. simpl.
  rewrite decide_False.
  2:{ intros Heq. apply Hne. simpl. rewrite Heq, Hels.
      apply list_elem_of_fmap_2. apply elem_of_app. right. by left. }
  rewrite Hlv. simpl. rewrite Hn, (Hsp Him).
  pose proof (span_sum_tail _ i t els p1 p2 f (inv_slice_els els sl i I) Hels Ht Hnd
                ltac:(lia)) as Hrec.
  destruct (nxt i els) as [m|]; simpl in *; [|done].
  rewrite Hrec. simpl. f_equal. lia.
Qed.

(** ** C1: spans add up to positions *)

(** C1.  In every reachable list and at every level [i], the spans along
    the level-[i] path from the head to a node reachable at that level add
    up to the 1-based position of the node in the level-0 list. *)
Theorem span_sum_position sl fuel i :
  reachable sl -> enough sl fuel -> (i < Z.to_nat MaxLevel)%nat ->
  exists base nodes,
    level_nodes fuel sl 0 = Some base /\
    level_nodes fuel sl i = Some nodes /\
    forall a, a ∈ nodes ->
      exists p, base !! p = Some a /\
                span_sum fuel (arena (sl_pool sl)) i (sl_head sl) a
                = Some (Z.of_nat p + 1).
Proof.
  intros [els I]%reachable_inv Hf Hi.
  pose proof (enough_length _ _ _ I Hf) as Hlen.
  exists (e_addr <$> els), (e_addr <$> filter (occupies i) els).
  split; [|split].
  - rewrite (level_nodes_spec els sl fuel 0 I) by (unfold MaxLevel; lia).
    by rewrite (filter_occupies_0 els sl I).
  - apply (level_nodes_spec els sl fuel i I); [lia|done].
  - intros a Ha. apply list_elem_of_fmap in Ha as (t & -> & Ht).
    apply list_elem_of_filter in Ht as [Hocc Ht].
    apply list_elem_of_split in Ht as (p1 & p2 & Hels).
    exists (length p1). split.
    + rewrite Hels, list_lookup_fmap, list_lookup_middle; done.
    + apply (span_sum_head els sl fuel i p1 t p2 I Hels Hocc). lia.
Qed.

(** ** C4: the level-0 traversal is strictly ascending *)

Lemma StronglySorted_lookup_lt {A} (R : relation A) (l : list A) :
  StronglySorted R l ->
  forall i j a b, (i < j)%nat -> l !! i = Some a -> l !! j = Some b -> R a b.
Proof.
  induction 1 as [|x l Hs IH Hx]; intros i j a b Hij Ha Hb; [done|].
  destruct j as [|j]; [lia|]. simpl in Hb. destruct i as [|i]; simpl in Ha.
  - injection Ha as <-. rewrite Forall_forall in Hx. apply Hx.
    by eapply list_elem_of_lookup_2.
  - eapply (IH i j); [lia|done..].
Qed.

Lemma inv_keys_sorted els sl :
  Inv els sl -> StronglySorted key_lt (e_key <$> els).
Proof.
  intros I. eapply StronglySorted_fmap; [|exact (inv_sorted _ _ I)].
  intros x y Hxy. by apply less_spec.
Qed.

(** C4.  After any sequence of [Insert] and [Delete] calls the level-0
    traversal visits the stored keys in strictly ascending order, by
    [Start] and then by [End]; hence no two stored nodes have the same
    [(Start, End)]. *)
Theorem level0_strictly_ascending sl fuel :
  reachable sl -> enough sl fuel ->
  exists ks,
    stored_keys fuel sl = Some ks /\
    StronglySorted key_lt ks /\
    (forall i j a b, ks !! i = Some a -> ks !! j = Some b -> i <> j ->
                     equalInterval a b = false).
Proof.
  intros [els I]%reachable_inv Hf.
  pose proof (enough_length _ _ _ I Hf) as Hlen.
  exists (e_key <$> els). split; [|split].
  - apply stored_keys_spec; [done|lia].
  - by apply (inv_keys_sorted els sl).
  - intros i j a b Ha Hb Hij.
    pose proof (inv_keys_sorted els sl I) as Hs.
    destruct (equalInterval a b) eqn:E; [|done]. apply equalInterval_spec in E.
    destruct (Nat.lt_total i j) as [Hlt|[->|Hgt]]; [|done|].
    + pose proof (StronglySorted_lookup_lt _ _ Hs i j a b Hlt Ha Hb) as H.
      unfold key_lt in H. lia.
    + pose proof (StronglySorted_lookup_lt _ _ Hs j i b a Hgt Hb Ha) as H.
      unfold key_lt in H. lia.
Qed.

(** ** The read-only search from the capped level *)

Lemma maxSearchLevel_range els sl :
  Inv els sl ->
  let k := Z.to_nat (maxSearchLevel sl + 1) in
  Z.of_nat k <= sl_maxLevel sl /\ (k <= Z.to_nat MaxSearchLevel)%nat /\
  (0 < sl_maxLevel sl -> (0 < k)%nat).
Proof.
  intros I. pose proof (inv_maxLevel_range _ _ I) as Hr. simpl.
  unfold maxSearchLevel, MaxSearchLevel, MaxLevel in *.
  destruct (Z.geb_spec (sl_maxLevel sl - 1) 10); lia.
Qed.

Lemma descend_facts els sl key fuel :
  Inv els sl -> (length els < fuel)%nat ->
  exists l1 l2 midf xf,
    els = l1 ++ l2 /\ Forall (below key) l1 /\
    Forall (fun y => less (e_key y) key = false) l2 /\
    headElem (sl_head sl) :: l1 = midf ++ [xf] /\
    descend fuel sl key = Some (e_addr xf).
Proof.
  intros I Hfuel. pose proof (inv_maxLevel_range _ _ I) as Hr.
  destruct (maxSearchLevel_range els sl I) as (Hk1 & Hk2 & Hk3).
  pose proof (inv_shape _ _ I) as Hsh. apply Forall_cons in Hsh as [_ Hsh].
  destruct (insert_search_spec fuel (arena (sl_pool sl)) key
              (Z.to_nat (maxSearchLevel sl + 1)) (headElem (sl_head sl)) els
              (replicate (Z.to_nat MaxLevel) None) (replicate (Z.to_nat MaxLevel) 0) 0)
    as (cons & midf & xf & post_f & np & dist & Hels & Hmid & Hcons & Hrun & Hk0
        & Hstop & _).
  - intros i Hi. apply (inv_slice _ _ I). lia.
  - simpl. unfold MaxSearchLevel, MaxLevel in *. lia.
  - eapply Forall_impl; [exact Hsh|]. by intros e [? _].
  - apply (inv_sorted _ _ I).
  - eapply Forall_impl; [apply (inv_lvl _ _ I)|]. simpl. intros; lia.
  - done.
  - rewrite length_replicate. unfold MaxSearchLevel, MaxLevel in *. lia.
  - rewrite length_replicate. unfold MaxSearchLevel, MaxLevel in *. lia.
  - rewrite length_replicate. intros Hk. by apply lookup_replicate_2.
  - rewrite length_replicate. unfold MaxSearchLevel, MaxLevel in *. lia.
  - exists cons, post_f, midf, xf. repeat split; try done.
    + destruct (decide (sl_maxLevel sl = 0)) as [H0|H0].
      * assert (els = []) as Hnil.
        { destruct (inv_max _ _ I) as [Hm|[? ?]]; [|lia].
          apply (height_0 _ (inv_lvl _ _ I)). lia. }
        rewrite Hnil in Hels. symmetry in Hels.
        apply app_eq_nil in Hels as [_ ->]. constructor.
      * apply Forall_forall. apply Hstop. lia.
    + unfold descend. by eapply descend_sim.
Qed.

(** *** [Get] *)

Lemma Get_found fuel els sl key l1 y l2 :
  Inv els sl -> (length els < fuel)%nat ->
  els = l1 ++ y :: l2 -> equalInterval (e_key y) key = true ->
  Get fuel sl key = Some (Some (e_key y)).
Proof.
  intros I Hfuel Hels Heq.
  destruct (descend_facts els sl key fuel I Hfuel)
    as (l1' & l2' & midf & xf & Hels' & Hb1 & Hb2 & Hmid & Hrun).
  pose proof (inv_sorted _ _ I) as Hsort. rewrite Hels in Hsort.
  destruct (split_at_equal _ _ _ _ Hsort Heq) as [Hl1 Hl2].
  destruct (split_unique (below key) (fun e => less (e_key e) key = false)
              l1' l2' l1 (y :: l2) (below_not_below key)) as [-> ->]; try done.
  { by rewrite <- Hels', Hels. }
  destruct (succ0_facts els sl l1 (y :: l2) midf xf I Hels Hmid)
    as (l0 & Hl0 & Hnext & nd & Hnd & Hk & _).
  unfold Get. rewrite Hrun. cbn [mbind option_bind].
  rewrite Hl0. cbn [mbind option_bind]. rewrite Hnext, Hnd. cbn [mbind option_bind].
  by rewrite Hk, Heq.
Qed.

Lemma Get_missing fuel els sl key :
  Inv els sl -> (length els < fuel)%nat ->
  (forall e, e ∈ els -> equalInterval (e_key e) key = false) ->
  Get fuel sl key = Some None.
Proof.
  intros I Hfuel Hno.
  destruct (descend_facts els sl key fuel I Hfuel)
    as (l1 & l2 & midf & xf & Hels & Hb1 & Hb2 & Hmid & Hrun).
  destruct (succ0_facts els sl l1 l2 midf xf I Hels Hmid) as (l0 & Hl0 & Hnext).
  unfold Get. rewrite Hrun. cbn [mbind option_bind].
  rewrite Hl0. cbn [mbind option_bind].
  destruct l2 as [|y0 l2'].
  - by rewrite Hnext.
  - destruct Hnext as (-> & nd & -> & Hk & _). cbn [mbind option_bind].
    rewrite Hk, Hno; [done|]. rewrite Hels. apply elem_of_app. right. by left.
Qed.

(** What a returning [Delete] has done, whatever its fuel. *)
Lemma Delete_result fd els sl key sl' r :
  Inv els sl -> Delete fd sl key = Some (sl', r) ->
  (r = None /\ sl' = sl /\
   forall e, e ∈ els -> equalInterval (e_key e) key = false) \/
  (exists l1 y l2,
     els = l1 ++ y :: l2 /\ equalInterval (e_key y) key = true /\
     r = Some (e_key y) /\ Inv (l1 ++ l2) sl' /\
     sl_length sl' = sl_length sl - 1 /\
     sl_maxLevel sl' = shrunk l1 y l2 (sl_maxLevel sl) (Z.to_nat (sl_maxLevel sl)) /\
     forall e, e ∈ l1 ++ l2 -> equalInterval (e_key e) key = false).
Proof.
  intros I Hrun.
  set (F := Nat.max fd (S (length els))).
  apply (Delete_mono fd F) in Hrun; [|lia].
  destruct (partition_by_key key els (inv_sorted _ _ I)) as (l1 & l2 & Hels & H1 & H2).
  pose proof (inv_sorted _ _ I) as Hs. rewrite Hels in Hs.
  pose proof Hs as Hs0.
  apply StronglySorted_app in Hs as (_ & _ & Hs2).
  assert (Hl1 : forall e, e ∈ l1 -> equalInterval (e_key e) key = false).
  { intros e He. rewrite Forall_forall in H1. specialize (H1 _ He).
    unfold below in H1. destruct (equalInterval (e_key e) key) eqn:E; [|done].
    apply equalInterval_not_less in E. congruence. }
  assert (Hgt_ne : forall l, Forall (fun e => less key (e_key e) = true) l ->
                   forall e, e ∈ l -> equalInterval (e_key e) key = false).
  { intros l Hgt e He. rewrite Forall_forall in Hgt. specialize (Hgt _ He).
    simpl in Hgt. destruct (equalInterval (e_key e) key) eqn:E; [|done].
    apply equalInterval_spec in E. apply less_spec in Hgt. lia. }
  destruct (not_below_cases key l2 Hs2 H2) as [(y & l2' & -> & Heq)|Hgt].
  - right. destruct (Delete_found F els sl key l1 y l2' I ltac:(lia) Hels Heq)
      as (sl1 & Hrun1 & I1 & Hlen1 & Hml1).
    rewrite Hrun in Hrun1. injection Hrun1 as -> ->.
    exists l1, y, l2'. split_and!; try done.
    intros e He. apply elem_of_app in He as [He|He]; [by apply Hl1|].
    apply (Hgt_ne l2'); [|done].
    apply StronglySorted_cons in Hs2 as [Hy _].
    eapply Forall_impl; [exact Hy|]. intros e' He'. simpl. unfold lt_elem in He'.
    by rewrite <- (equalInterval_less_l _ _ _ Heq).
  - left.
    assert (Hno : forall e, e ∈ els -> equalInterval (e_key e) key = false).
    { intros e He. rewrite Hels in He. apply elem_of_app in He as [He|He];
        [by apply Hl1|by apply (Hgt_ne l2)]. }
    rewrite (Delete_missing F els sl key I ltac:(lia) Hno) in Hrun.
    by injection Hrun as <- <-.
Qed.

(** ** C10: [Get] *)

(** C10.  [Get(k)] returns the stored key with the [(Start, End)] of [k]
    when there is one, and none otherwise; after [Delete] of an interval,
    [Get] of that interval returns none. *)
Theorem Get_spec sl fuel key :
  reachable sl -> enough sl fuel ->
  exists ks,
    stored_keys fuel sl = Some ks /\
    (forall k, k ∈ ks -> equalInterval k key = true ->
               Get fuel sl key = Some (Some k)) /\
    ((forall k, k ∈ ks -> equalInterval k key = false) ->
     Get fuel sl key = Some None) /\
    (forall fd sl' r fuel', Delete fd sl key = Some (sl', r) -> enough sl' fuel' ->
                            Get fuel' sl' key = Some None).
Proof.
  intros [els I]%reachable_inv Hf.
  pose proof (enough_length _ _ _ I Hf) as Hlen.
  exists (e_key <$> els). split; [|split; [|split]].
  - apply stored_keys_spec; [done|lia].
  - intros k Hk Heq. apply list_elem_of_fmap in Hk as (y & -> & Hy).
    apply list_elem_of_split in Hy as (l1 & l2 & Hels).
    apply (Get_found fuel els sl key l1 y l2 I); [lia|done..].
  - intros Hno. apply (Get_missing fuel els sl key I); [lia|].
    intros e He. apply Hno. by apply list_elem_of_fmap_2.
  - intros fd sl' r fuel' Hdel Hf'.
    destruct (Delete_result fd els sl key sl' r I Hdel)
      as [(_ & -> & Hno)|(l1 & y & l2 & _ & _ & _ & I' & _ & _ & Hno)].
    + apply (Get_missing fuel' els sl key I); [|done].
      pose proof (enough_length _ _ _ I Hf'). lia.
    + apply (Get_missing fuel' (l1 ++ l2) sl' key I'); [|done].
      pose proof (enough_length _ _ _ I' Hf'). lia.
Qed.

(** ** C6: [Insert] of a stored interval updates in place *)

Lemma level0_nodes_spec els sl fuel :
  Inv els sl -> (length els <= fuel)%nat ->
  level_nodes fuel sl 0 = Some (e_addr <$> els).
Proof.
  intros I Hf.
  rewrite (level_nodes_spec els sl fuel 0 I Hf) by (unfold MaxLevel; lia).
  by rewrite (filter_occupies_0 els sl I).
Qed.

(** C6.  When the list holds a node with the [(Start, End)] of the inserted
    key, [Insert] returns the key stored before and changes nothing but
    the key of that node: [length], [maxLevel], every level record of
    every node, the pool and the random source stay as they were. *)
Theorem Insert_existing sl fuel key base a nd :
  reachable sl -> enough sl fuel ->
  level_nodes fuel sl 0 = Some base -> a ∈ base ->
  arena (sl_pool sl) !! a = Some nd ->
  equalInterval (intervalKey nd) key = true ->
  Insert fuel sl key
  = Some ({| sl_head := sl_head sl; sl_maxLevel := sl_maxLevel sl;
             sl_length := sl_length sl;
             sl_pool := {| arena := <[a := {| intervalKey := key;
                                              levels := levels nd;
                                              spare := spare nd |}]>
                                      (arena (sl_pool sl));
                           free := free (sl_pool sl) |};
             sl_PCG := sl_PCG sl |},
          Some (intervalKey nd)).
Proof.
  intros [els I]%reachable_inv Hf Hbase Ha Hnd Heq.
  pose proof (enough_length _ _ _ I Hf) as Hlen.
  rewrite (level0_nodes_spec els sl fuel I) in Hbase by lia.
  injection Hbase as <-.
  apply list_elem_of_fmap in Ha as (y & -> & Hy).
  apply list_elem_of_split in Hy as (l1 & l2 & Hels).
  assert (Hky : e_key y = intervalKey nd).
  { pose proof (inv_shape _ _ I) as Hsh. rewrite Forall_forall in Hsh.
    destruct (Hsh y) as [Hk _].
    - right. rewrite Hels. apply elem_of_app. right. by left.
    - unfold key_of in Hk. rewrite Hnd in Hk. by injection Hk as <-. }
  destruct (Insert_update fuel els sl key l1 y l2 I ltac:(lia) Hels
              ltac:(by rewrite Hky)) as (nd0 & Hnd0 & Hk0 & Hrun & _).
  rewrite Hnd in Hnd0. injection Hnd0 as <-. rewrite Hrun, Hky. done.
Qed.

(** ** C7: [Delete] *)

(** C7.  [Delete(k)] returns the stored key with the [(Start, End)] of [k],
    removes it and decrements [length] when there is one; otherwise it
    returns none and leaves the list as it was. *)
Theorem Delete_spec sl fuel key :
  reachable sl -> enough sl fuel ->
  exists ks,
    stored_keys fuel sl = Some ks /\
    (forall k, k ∈ ks -> equalInterval k key = true ->
       exists sl' ks1 ks2,
         Delete fuel sl key = Some (sl', Some k) /\
         sl_length sl' = sl_length sl - 1 /\
         ks = ks1 ++ k :: ks2 /\
         forall fuel', enough sl' fuel' -> stored_keys fuel' sl' = Some (ks1 ++ ks2)) /\
    ((forall k, k ∈ ks -> equalInterval k key = false) ->
     Delete fuel sl key = Some (sl, None)).
Proof.
  intros [els I]%reachable_inv Hf.
  pose proof (enough_length _ _ _ I Hf) as Hlen.
  exists (e_key <$> els). split; [|split].
  - apply stored_keys_spec; [done|lia].
  - intros k Hk Heq. apply list_elem_of_fmap in Hk as (y & -> & Hy).
    apply list_elem_of_split in Hy as (l1 & l2 & Hels).
    destruct (Delete_found fuel els sl key l1 y l2 I ltac:(lia) Hels Heq)
      as (sl' & Hrun & I' & Hlen' & _).
    exists sl', (e_key <$> l1), (e_key <$> l2). split_and!; try done.
    + by rewrite Hels, fmap_app, fmap_cons.
    + intros fuel' Hf'. rewrite <- fmap_app.
      apply stored_keys_spec; [done|].
      pose proof (enough_length _ _ _ I' Hf'). lia.
  - intros Hno. apply (Delete_missing fuel els sl key I); [lia|].
    intros e He. apply Hno. by apply list_elem_of_fmap_2.
Qed.

(** ** [GetByIndex] *)

(** Walking at level [i] by spans: the walk moves over [mid] and keeps the
    remaining position within what follows. *)
Lemma advance_pos_spec h i : forall fuel x post pos,
  slice h i (x :: post) [] -> (i < e_lvl x)%nat ->
  0 <= pos <= Z.of_nat (length post) -> (length post < fuel)%nat ->
  exists mid x' post',
    x :: post = mid ++ x' :: post' /\
    advance_pos fuel h i (e_addr x) pos
      = Some (e_addr x', pos - Z.of_nat (length mid)) /\
    (i < e_lvl x')%nat /\
    0 <= pos - Z.of_nat (length mid) <= Z.of_nat (length post') /\
    (nxt i post' = None \/ pos - Z.of_nat (length mid) < gap i post').
Proof.
  induction fuel as [|f IH]; intros x post pos Hs Hx Hpos Hfuel; [lia|].
  simpl. destruct Hs as [Hrec Hpost]. rewrite app_nil_r in Hrec.
  rewrite (Hrec Hx). simpl.
  destruct (nxt i post) as [m|] eqn:Hn.
  - pose proof Hn as Hn'.
    apply nxt_Some in Hn as (p1 & y & p2 & -> & Hp1 & Hy & ->).
    assert (Hgap : gap i (p1 ++ y :: p2) = Z.of_nat (length p1) + 1).
    { rewrite gap_app_low by done. simpl.
      destruct (Nat.ltb_spec i (e_lvl y)); lia. }
    rewrite length_app in Hpos, Hfuel. simpl in Hpos, Hfuel.
    destruct (Z.geb_spec pos (gap i (p1 ++ y :: p2))) as [Hge|Hlt].
    + apply slice_app in Hpost as [_ Hpost].
      destruct (IH y p2 (pos - gap i (p1 ++ y :: p2)) Hpost Hy ltac:(lia) ltac:(lia))
        as (mid & x' & post' & Hdec & Hrun & Hx' & Hrange & Hstop).
      exists (x :: p1 ++ mid), x', post'. split_and!; try done.
      * simpl. by rewrite <- app_assoc, <- Hdec.
      * rewrite Hrun. do 2 f_equal. simpl. rewrite length_app. lia.
      * simpl. rewrite length_app. lia.
      * simpl. rewrite length_app. lia.
      * destruct Hstop as [?|Hstop]; [by left|right].
        simpl. rewrite length_app. lia.
    + exists [], x, (p1 ++ y :: p2). split_and!; try done.
      * simpl. do 2 f_equal. lia.
      * simpl. lia.
      * simpl. rewrite length_app. simpl. lia.
      * right. simpl. lia.
  - exists [], x, post. split_and!; try done.
    + simpl. do 2 f_equal. lia.
    + simpl. lia.
    + simpl. lia.
    + by left.
Qed.

Lemma index_descend_spec fuel h : forall k x post pos,
  (forall i, (i < k)%nat -> slice h i (x :: post) []) -> (k <= e_lvl x)%nat ->
  0 <= pos <= Z.of_nat (length post) ->
  Forall (fun e => (1 <= e_lvl e)%nat) post -> (length post < fuel)%nat ->
  exists mid x' post',
    x :: post = mid ++ x' :: post' /\
    for_down k (fun i '(n, pos) => advance_pos fuel h i n pos) (e_addr x, pos)
      = Some (e_addr x', pos - Z.of_nat (length mid)) /\
    0 <= pos - Z.of_nat (length mid) <= Z.of_nat (length post') /\
    ((0 < k)%nat -> pos - Z.of_nat (length mid) = 0).
Proof.
  induction k as [|i IH]; intros x post pos Hsl Hx Hpos Hlvl Hfuel.
  - exists [], x, post. split_and!; try done; simpl; try lia.
    do 2 f_equal. lia.
  - rewrite for_down_S.
    destruct (advance_pos_spec h i fuel x post pos (Hsl i ltac:(lia)) ltac:(lia)
                Hpos Hfuel)
      as (mid & x1 & post1 & Hdec & Hrun & Hx1 & Hrange & Hstop).
    rewrite Hrun. cbn [mbind option_bind].
    assert (Hlen : length post = (length mid + length post1)%nat).
    { apply (f_equal length) in Hdec. rewrite length_app in Hdec.
      simpl in Hdec. lia. }
    assert (Hlvl1 : Forall (fun e => (1 <= e_lvl e)%nat) post1).
    { assert (Forall (fun e => (1 <= e_lvl e)%nat) (x1 :: post1)) as H.
      { destruct mid as [|m mid]; simpl in Hdec; injection Hdec as -> Hdec.
        - constructor; [lia|by rewrite <- Hdec].
        - rewrite Hdec in Hlvl. by apply Forall_app in Hlvl as [_ ?]. }
      by apply Forall_cons in H as [_ ?]. }
    destruct (IH x1 post1 (pos - Z.of_nat (length mid))) as
      (mid2 & x' & post' & Hdec2 & Hrun2 & Hrange2 & Hzero); try done; try lia.
    { intros j Hj. specialize (Hsl j ltac:(lia)). rewrite Hdec in Hsl.
      by apply slice_app in Hsl as [_ Hsl]. }
    exists (mid ++ mid2), x', post'. split_and!.
    + by rewrite Hdec, Hdec2, <- app_assoc.
    + rewrite Hrun2. do 2 f_equal. rewrite length_app. lia.
    + rewrite length_app. lia.
    + rewrite length_app. lia.
    + intros _. rewrite length_app. destruct i as [|i'].
      * assert (pos - Z.of_nat (length mid) <= 0); [|lia].
        destruct Hstop as [Hnone|Hlt].
        -- apply nxt_None in Hnone. destruct post1 as [|e post1]; [simpl in *; lia|].
           apply Forall_cons in Hnone as [Hlow _].
           apply Forall_cons in Hlvl1 as [He _]. unfold low in Hlow. lia.
        -- destruct post1 as [|e post1]; simpl in Hlt; [lia|].
           apply Forall_cons in Hlvl1 as [He _].
           destruct (Nat.ltb_spec 0 (e_lvl e)); lia.
      * specialize (Hzero ltac:(lia)). lia.
Qed.

Lemma GetByIndex_in fuel els sl idx :
  Inv els sl -> (length els < fuel)%nat ->
  0 <= idx < Z.of_nat (length els) ->
  exists e, els !! Z.to_nat idx = Some e /\
            GetByIndex fuel sl idx = Some (Ok (e_key e)).
Proof.
  intros I Hfuel Hidx.
  destruct (maxSearchLevel_range els sl I) as (Hk1 & Hk2 & Hk3).
  pose proof (inv_maxLevel_range _ _ I) as Hr.
  assert (Hpos : 0 < sl_maxLevel sl).
  { destruct (inv_max _ _ I) as [Hm|[Hm _]].
    - destruct els as [|e els]; [simpl in Hidx; lia|].
      pose proof (inv_lvl _ _ I) as Hl. apply Forall_cons in Hl as [He _].
      simpl in Hm. lia.
    - subst els. simpl in Hidx. lia. }
  destruct (index_descend_spec fuel (arena (sl_pool sl))
              (Z.to_nat (maxSearchLevel sl + 1)) (headElem (sl_head sl)) els (idx + 1))
    as (mid & x' & post' & Hdec & Hrun & Hrange & Hzero).
  - intros i Hi. apply (inv_slice _ _ I). lia.
  - simpl. unfold MaxSearchLevel, MaxLevel in *. lia.
  - lia.
  - eapply Forall_impl; [apply (inv_lvl _ _ I)|]. simpl. intros; lia.
  - done.
  - specialize (Hzero (Hk3 Hpos)).
    assert (Hmid : length mid = S (Z.to_nat idx)) by lia.
    assert (Hx' : els !! Z.to_nat idx = Some x').
    { change (els !! Z.to_nat idx) with ((headElem (sl_head sl) :: els) !! S (Z.to_nat idx)).
      rewrite Hdec, <- Hmid. by apply list_lookup_middle. }
    exists x'. split; [done|].
    unfold GetByIndex. rewrite (inv_length _ _ I).
    destruct (Z.ltb_spec idx 0); [lia|].
    destruct (Z.geb_spec idx (Z.of_nat (length els))); [lia|]. simpl orb. cbv iota.
    simpl e_addr in Hrun. rewrite Hrun. cbn [mbind option_bind].
    assert (Hin : x' ∈ els) by (by eapply list_elem_of_lookup_2).
    rewrite bool_decide_eq_true_2.
    2:{ pose proof (inv_nodup_els _ _ I) as Hnd.
        apply (NoDup_addr_head els (headElem (sl_head sl)) Hnd x' Hin). }
    pose proof (inv_shape _ _ I) as Hsh. rewrite Forall_forall in Hsh.
    destruct (Hsh x' ltac:(by right)) as [Hk _].
    apply key_of_inv in Hk as (nd & -> & <-). done.
Qed.

(** ** C5: indexed lookup *)

(** C5.  [GetByIndex(i)] returns the [i]-th key of the level-0 traversal
    when [0 <= i < length], and fails with the index-out-of-bounds error
    exactly when [i < 0] or [i >= length]. *)
Theorem GetByIndex_spec sl fuel i :
  reachable sl -> enough sl fuel ->
  exists ks,
    stored_keys fuel sl = Some ks /\
    (0 <= i < sl_length sl ->
     exists k, ks !! Z.to_nat i = Some k /\ GetByIndex fuel sl i = Some (Ok k)) /\
    (i < 0 \/ sl_length sl <= i ->
     GetByIndex fuel sl i = Some (Err (ErrIndexOutOfBounds i))) /\
    ((exists e, GetByIndex fuel sl i = Some (Err e)) <-> i < 0 \/ sl_length sl <= i).
Proof.
  intros [els I]%reachable_inv Hf.
  pose proof (enough_length _ _ _ I Hf) as Hlen.
  assert (Hin : 0 <= i < sl_length sl ->
    exists k, (e_key <$> els) !! Z.to_nat i = Some k /\
              GetByIndex fuel sl i = Some (Ok k)).
  { intros Hi. rewrite (inv_length _ _ I) in Hi.
    destruct (GetByIndex_in fuel els sl i I ltac:(lia) Hi) as (e & He & Hrun).
    exists (e_key e). split; [|done]. by rewrite list_lookup_fmap, He. }
  assert (Hout : i < 0 \/ sl_length sl <= i ->
                 GetByIndex fuel sl i = Some (Err (ErrIndexOutOfBounds i))).
  { intros Hi. unfold GetByIndex.
    destruct (Z.ltb_spec i 0); [done|].
    destruct (Z.geb_spec i (sl_length sl)); [done|lia]. }
  exists (e_key <$> els).
  split; [apply stored_keys_spec; [done|lia]|].
  split; [done|]. split; [done|]. split.
  - intros [e He]. destruct (decide (0 <= i < sl_length sl)) as [Hi|Hi]; [|lia].
    destruct (Hin Hi) as (k & _ & Hrun). congruence.
  - intros Hi. eexists. by apply Hout.
Qed.

(** ** [Overlaps] *)

Lemma nxt_0_head l :
  Forall (fun e => (1 <= e_lvl e)%nat) l -> nxt 0 l = e_addr <$> head l.
Proof.
  destruct 1 as [|e l He _]; simpl; [done|].
  destruct (Nat.ltb_spec 0 (e_lvl e)); [done|lia].
Qed.

Lemma overlaps_scan_spec h q p : forall post x count res fuel,
  keyed h x ->
  (exists lv, getLevel h (e_addr x) 0 = Some lv /\ next lv = e_addr <$> head post) ->
  Forall (keyed h) post -> slice h 0 post [] ->
  Forall (fun e => (1 <= e_lvl e)%nat) post ->
  (length post + 2 <= fuel)%nat ->
  overlaps_scan fuel h q p (Some (e_addr x)) count res
  = Some (scan_keys q p (e_key x :: (e_key <$> post)) count res).
Proof.
  induction post as [|y post IH]; intros x count res fuel Hkx (lv & Hlv & Hnext)
    Hkeys Hsl Hlvl Hfuel;
    (destruct fuel as [|f]; [lia|]); simpl in Hfuel;
    apply key_of_inv in Hkx as (nd & Hnd & Hk);
    unfold getLevel in Hlv; rewrite Hnd in Hlv; simpl in Hlv;
    cbn [overlaps_scan]; rewrite Hnd; cbn [mbind option_bind]; rewrite Hk, Hlv;
    cbn [mbind option_bind]; rewrite Hnext.
  - assert (Hrec : forall c r, overlaps_scan f h q p None c r = Some r).
    { intros c r. destruct f; [lia|done]. }
    simpl. rewrite !Hrec. by repeat case_match.
  - apply Forall_cons in Hkeys as [Hky Hkeys]. simpl in Hsl. destruct Hsl as [Hy Hsl].
    apply Forall_cons in Hlvl as [Hly Hlvl]. rewrite app_nil_r in Hy.
    assert (Hrec : forall c r, overlaps_scan f h q p (Some (e_addr y)) c r
                   = Some (scan_keys q p (e_key y :: (e_key <$> post)) c r)).
    { intros c r. apply IH; try done; [|lia].
      eexists. split; [apply Hy; lia|]. simpl. by apply nxt_0_head. }
    cbn [head fmap option_fmap option_map]. rewrite !Hrec.
    rewrite fmap_cons. cbn [scan_keys]. by repeat case_match.
Qed.

Lemma scan_keys_page q o l : forall ks count res,
  0 <= o -> 0 <= l -> 0 <= count ->
  (l = 0 \/ Z.of_nat (length res) < l) ->
  scan_keys q {| Offset := o; Limit := l |} ks count res
  = res ++ (if l =? 0 then drop (Z.to_nat (o - count)) (matches q ks)
            else take (Z.to_nat l - length res)
                      (drop (Z.to_nat (o - count)) (matches q ks))).
Proof.
  induction ks as [|k ks IH]; intros count res Ho Hl Hc Hres; simpl.
  - rewrite drop_nil, take_nil. case_match; by rewrite app_nil_r.
  - destruct (Start k <=? End q).
    2:{ rewrite drop_nil, take_nil. case_match; by rewrite app_nil_r. }
    destruct (End k >=? Start q); [|by apply IH].
    destruct (Z.geb_spec count o) as [Hge|Hlt].
    + replace (Z.to_nat (o - count)) with 0%nat by lia. rewrite drop_0.
      rewrite length_app. simpl.
      destruct (Z.eqb_spec l 0) as [->|Hl0]; simpl.
      * rewrite IH; try lia. simpl.
        replace (Z.to_nat (o - (count + 1))) with 0%nat by lia.
        by rewrite drop_0, <- app_assoc.
      * destruct (Z.geb_spec (Z.of_nat (length res + 1)) l) as [Hfull|Hmore].
        -- replace (Z.to_nat l - length res)%nat with 1%nat by lia.
           simpl. by rewrite take_0.
        -- rewrite IH; try lia.
           2:{ right. rewrite length_app. simpl. lia. }
           destruct (Z.eqb_spec l 0); [done|].
           replace (Z.to_nat (o - (count + 1))) with 0%nat by lia.
           rewrite drop_0, length_app, <- app_assoc. simpl.
           replace (Z.to_nat l - length res)%nat
             with (S (Z.to_nat l - (length res + 1)))%nat by lia.
           done.
    + rewrite IH; try lia.
      replace (Z.to_nat (o - count)) with (S (Z.to_nat (o - (count + 1)))) by lia.
      done.
Qed.

Lemma scan_keys_unbounded q ks :
  scan_keys q {| Offset := 0; Limit := 0 |} ks 0 [] = matches q ks.
Proof. rewrite scan_keys_page by (simpl; lia). simpl. by rewrite drop_0. Qed.

Lemma scan_keys_paged q o l ks :
  0 <= o -> 0 <= l ->
  scan_keys q {| Offset := o; Limit := l |} ks 0 [] = page o l (matches q ks).
Proof.
  intros Ho Hl. rewrite scan_keys_page by (simpl; lia). unfold page. simpl.
  rewrite Z.sub_0_r, Nat.sub_0_r. done.
Qed.

(** [Overlaps] scans the node on which the search halts — the last stored
    node below the query, or the head — and the nodes after it. *)
Lemma Overlaps_scan fuel els sl q p :
  Inv els sl -> (length els + 2 <= fuel)%nat ->
  exists l1 l2 midf xf,
    els = l1 ++ l2 /\ Forall (below q) l1 /\
    Forall (fun y => less (e_key y) q = false) l2 /\
    headElem (sl_head sl) :: l1 = midf ++ [xf] /\
    Overlaps fuel sl q p = Some (scan_keys q p (e_key xf :: (e_key <$> l2)) 0 []).
Proof.
  intros I Hfuel.
  destruct (descend_facts els sl q fuel I ltac:(lia))
    as (l1 & l2 & midf & xf & Hels & Hb1 & Hb2 & Hmid & Hrun).
  exists l1, l2, midf, xf. split_and!; try done.
  unfold Overlaps. rewrite Hrun. cbn [mbind option_bind].
  pose proof (inv_shape _ _ I) as Hsh.
  assert (Hshk : Forall (keyed (arena (sl_pool sl))) (headElem (sl_head sl) :: els)).
  { eapply Forall_impl; [exact Hsh|]. by intros e [? _]. }
  assert (Hfull : headElem (sl_head sl) :: els = midf ++ xf :: l2).
  { rewrite Hels, app_comm_cons, Hmid, <- app_assoc. done. }
  rewrite Hfull in Hshk. apply Forall_app in Hshk as [_ Hshk].
  apply Forall_cons in Hshk as [Hkx Hkl2].
  pose proof (inv_lvl _ _ I) as Hlvl. rewrite Hels in Hlvl.
  apply Forall_app in Hlvl as [_ Hlvl2].
  assert (Hlvl2' : Forall (fun e => (1 <= e_lvl e)%nat) l2).
  { eapply Forall_impl; [exact Hlvl2|]. simpl. intros; lia. }
  apply overlaps_scan_spec; try done.
  - destruct (succ0_facts els sl l1 l2 midf xf I Hels Hmid) as (l0 & Hl0 & Hnext).
    exists l0. split; [done|]. destruct l2 as [|y l2']; [done|]. by destruct Hnext.
  - pose proof (inv_slice_els els sl 0 I) as Hs. rewrite Hels in Hs.
    by apply slice_app in Hs as [_ Hs].
  - rewrite Hels, length_app in Hfuel. lia.
Qed.

(** ** C9: pagination *)

(** C9.  For an offset [o >= 0] and a limit [l >= 0], [Overlaps] returns
    the sub-sequence [results[o : o+l]] of the unbounded result: all the
    remaining elements when [l = 0], fewer than [l] when the result is
    exhausted. *)
Theorem Overlaps_pagination sl fuel q o l :
  reachable sl -> enough sl fuel -> 0 <= o -> 0 <= l ->
  exists full,
    Overlaps fuel sl q {| Offset := 0; Limit := 0 |} = Some full /\
    Overlaps fuel sl q {| Offset := o; Limit := l |} = Some (page o l full).
Proof.
  intros [els I]%reachable_inv Hf Ho Hl.
  pose proof (enough_length _ _ _ I Hf) as Hlen.
  destruct (Overlaps_scan fuel els sl q {| Offset := 0; Limit := 0 |} I Hlen)
    as (l1 & l2 & midf & xf & Hels & H1 & H2 & Hmid & Hrun0).
  destruct (Overlaps_scan fuel els sl q {| Offset := o; Limit := l |} I Hlen)
    as (l1' & l2' & midf' & xf' & Hels' & H1' & H2' & Hmid' & Hrun).
  destruct (split_unique (below q) (fun e => less (e_key e) q = false)
              l1' l2' l1 l2 (below_not_below q)) as [-> ->]; try done.
  { by rewrite <- Hels', Hels. }
  rewrite Hmid in Hmid'. apply app_inj_tail in Hmid' as [_ <-].
  exists (matches q (e_key xf :: (e_key <$> l2))). split.
  - by rewrite Hrun0, scan_keys_unbounded.
  - by rewrite Hrun, scan_keys_paged.
Qed.

(** ** What the code does where C2 and C3 fail *)

(** X19.  The unbounded result of [Overlaps]: the matches among the last
    stored key below the query — or the head's zero key when there is
    none — and the stored keys that are not below the query, up to the
    first of them that starts after the end of the query. *)
Lemma Overlaps_unbounded_spec sl fuel q :
  reachable sl -> enough sl fuel ->
  exists ks1 ks2,
    stored_keys fuel sl = Some (ks1 ++ ks2) /\
    Forall (fun k => less k q = true) ks1 /\
    Forall (fun k => less k q = false) ks2 /\
    Overlaps fuel sl q {| Offset := 0; Limit := 0 |}
    = Some (matches q (default zeroKey (last ks1) :: ks2)).
Proof.
  intros [els I]%reachable_inv Hf.
  pose proof (enough_length _ _ _ I Hf) as Hlen.
  destruct (Overlaps_scan fuel els sl q {| Offset := 0; Limit := 0 |} I Hlen)
    as (l1 & l2 & midf & xf & Hels & H1 & H2 & Hmid & Hrun).
  exists (e_key <$> l1), (e_key <$> l2). split_and!.
  - rewrite <- fmap_app, <- Hels. apply stored_keys_spec; [done|lia].
  - by apply Forall_fmap.
  - by apply Forall_fmap.
  - rewrite Hrun, scan_keys_unbounded. do 3 f_equal.
    rewrite fmap_last.
    assert (last (headElem (sl_head sl) :: l1) = Some xf) as Hlast
      by (rewrite Hmid; apply last_snoc).
    destruct l1 as [|e l1].
    + simpl in *. by injection Hlast as <-.
    + rewrite last_cons_cons in Hlast. by rewrite Hlast.
Qed.

Lemma filter_occupies_nil i (l : list elem) :
  filter (occupies i) l = [] <-> Forall (low i) l.
Proof.
  induction l as [|e l IH]; [by split; [constructor|]|].
  rewrite filter_cons, Forall_cons. unfold occupies, low in *.
  case_decide; [split; [done|lia]|]. rewrite IH. split; [split; [lia|done]|tauto].
Qed.

(** X20.  [maxLevel] in a reachable list: when the list is not empty it is
    between 1 and [MaxLevel] and is the number of occupied levels, that is,
    the head has a successor exactly on the levels below it; when the list
    is empty it is 0 or 1. *)
Lemma reachable_maxLevel sl fuel :
  reachable sl -> enough sl fuel ->
  exists ks,
    stored_keys fuel sl = Some ks /\
    (ks = [] -> sl_maxLevel sl = 0 \/ sl_maxLevel sl = 1) /\
    (ks <> [] ->
     1 <= sl_maxLevel sl <= MaxLevel /\
     forall i, (i < Z.to_nat MaxLevel)%nat ->
       (level_nodes fuel sl i = Some [] <-> sl_maxLevel sl <= Z.of_nat i)).
Proof.
  intros [els I]%reachable_inv Hf.
  pose proof (enough_length _ _ _ I Hf) as Hlen.
  pose proof (inv_maxLevel_range _ _ I) as Hr.
  exists (e_key <$> els). split_and!.
  - apply stored_keys_spec; [done|lia].
  - intros ->%fmap_nil_inv. destruct (inv_max _ _ I) as [->|[_ ->]]; simpl; lia.
  - intros Hne.
    assert (Hm : sl_maxLevel sl = Z.of_nat (height els)).
    { destruct (inv_max _ _ I) as [?|[-> _]]; done. }
    assert (1 <= height els)%nat.
    { destruct els as [|e els]; [done|].
      pose proof (inv_lvl _ _ I) as Hl. apply Forall_cons in Hl as [He _].
      simpl. lia. }
    split; [lia|]. intros i Hi.
    rewrite (level_nodes_spec els sl fuel i I) by (done || lia).
    rewrite Hm, <- Nat2Z.inj_le, height_low, <- filter_occupies_nil.
    split.
    + intros [= H']. by apply fmap_nil_inv in H'.
    + by intros ->.
Qed.

(** ** The package's tests, run on the embedding *)

Example TestInsert_levels :
  (sl ← New NewNodePool test_draws;
   sl ← insert_all 10 test_keys sl;
   Some (sl_maxLevel sl, sl_length sl,
         level_view 10 sl 2, level_view 10 sl 1, level_view 10 sl 0))
  = Some (3, 4,
          Some [(zeroKey, 2); (ik 10 20 "test-2", 2)],
          Some [(zeroKey, 2); (ik 10 20 "test-2", 2); (ik 50 60 "test-4", 0)],
          Some [(zeroKey, 1); (ik 5 9 "test-1", 1); (ik 10 20 "test-2", 1);
                (ik 30 40 "test-3", 1); (ik 50 60 "test-4", 0)]).
Proof. vm_compute. reflexivity. Qed.

Example TestInsert_update :
  (sl ← New NewNodePool test_draws;
   '(sl, k1) ← Insert 10 sl (ik 10 20 "original");
   '(sl, k2) ← Insert 10 sl (ik 10 20 "updated");
   Some (k1, k2, stored_keys 10 sl))
  = Some (None, Some (ik 10 20 "original"), Some [ik 10 20 "updated"]).
Proof. vm_compute. reflexivity. Qed.

Example TestDelete_top_level :
  (sl ← New NewNodePool test_draws;
   sl ← insert_all 10 test_keys sl;
   '(sl, k) ← Delete 10 sl (ik 10 20 "test-2");
   Some (k, sl_maxLevel sl, sl_length sl, level_view 10 sl 1, level_view 10 sl 0))
  = Some (Some (ik 10 20 "test-2"), 2, 3,
          Some [(zeroKey, 3); (ik 50 60 "test-4", 0)],
          Some [(zeroKey, 1); (ik 5 9 "test-1", 1); (ik 30 40 "test-3", 1);
                (ik 50 60 "test-4", 0)]).
Proof. vm_compute. reflexivity. Qed.

Example spec_example :
  (sl ← New NewNodePool test_draws;
   sl ← insert_all 10 test_keys sl;
   r1 ← Overlaps 10 sl (ik 15 35 "") no_paging;
   '(sl, _) ← Delete 10 sl (ik 10 20 "");
   r2 ← Get 10 sl (ik 10 20 "");
   r3 ← GetByIndex 10 sl 2;
   Some (r1, r2, r3))
  = Some ([ik 10 20 "test-2"; ik 30 40 "test-3"], None, Ok (ik 50 60 "test-4")).
Proof. vm_compute. reflexivity. Qed.

Lemma reachable_insert_all fuel ks : forall sl sl',
  reachable sl -> insert_all fuel ks sl = Some sl' -> reachable sl'.
Proof.
  unfold insert_all. induction ks as [|k ks IH]; intros sl sl' Hr Hrun; simpl in Hrun.
  - by injection Hrun as <-.
  - destruct (Insert fuel sl k) as [[sl1 r]|] eqn:E; simpl in Hrun.
    + eapply IH; [|exact Hrun]. eapply reach_Insert; [exact Hr|exact E].
    + exfalso. clear -Hrun. induction ks as [|k' ks IH]; simpl in Hrun; [done|]. auto.
Qed.

Lemma sample_reachable : reachable sample.
Proof.
  destruct (New NewNodePool test_draws) as [sl0|] eqn:E0; [|by vm_compute in E0].
  apply (reachable_insert_all 10 test_keys sl0 sample).
  - by eapply reach_New.
  - vm_compute in E0. injection E0 as <-. vm_compute. reflexivity.
Qed.

Lemma sample_enough : enough sample 10.
Proof. unfold enough. vm_compute. lia. Qed.

(** ** The theorems at the sample list *)

Lemma span_sum_position_witness :
  exists base nodes,
    level_nodes 10 sample 0 = Some base /\
    level_nodes 10 sample 1 = Some nodes /\
    forall a, a ∈ nodes ->
      exists p, base !! p = Some a /\
                span_sum 10 (arena (sl_pool sample)) 1 (sl_head sample) a
                = Some (Z.of_nat p + 1).
Proof.
  apply (span_sum_position sample 10 1 sample_reachable sample_enough).
  vm_compute. lia.
Defined.

Lemma level0_strictly_ascending_witness :
  exists ks,
    stored_keys 10 sample = Some ks /\
    StronglySorted key_lt ks /\
    (forall i j a b, ks !! i = Some a -> ks !! j = Some b -> i <> j ->
                     equalInterval a b = false).
Proof.
  exact (level0_strictly_ascending sample 10 sample_reachable sample_enough).
Defined.

Lemma GetByIndex_spec_witness :
  exists ks,
    stored_keys 10 sample = Some ks /\
    (0 <= 2 < sl_length sample ->
     exists k, ks !! Z.to_nat 2 = Some k /\ GetByIndex 10 sample 2 = Some (Ok k)) /\
    (2 < 0 \/ sl_length sample <= 2 ->
     GetByIndex 10 sample 2 = Some (Err (ErrIndexOutOfBounds 2))) /\
    ((exists e, GetByIndex 10 sample 2 = Some (Err e)) <->
     2 < 0 \/ sl_length sample <= 2).
Proof.
  exact (GetByIndex_spec sample 10 2 sample_reachable sample_enough).
Defined.

Lemma Insert_existing_witness :
  exists nd,
    arena (sl_pool sample) !! 2%nat = Some nd /\
    intervalKey nd = ik 10 20 "test-2" /\
    Insert 10 sample (ik 10 20 "updated")
    = Some ({| sl_head := sl_head sample; sl_maxLevel := sl_maxLevel sample;
               sl_length := sl_length sample;
               sl_pool := {| arena := <[2%nat := {| intervalKey := ik 10 20 "updated";
                                                    levels := levels nd;
                                                    spare := spare nd |}]>
                                        (arena (sl_pool sample));
                             free := free (sl_pool sample) |};
               sl_PCG := sl_PCG sample |},
            Some (intervalKey nd)).
Proof.
  eexists. split; [reflexivity|]. split; [reflexivity|].
  apply (Insert_existing sample 10 (ik 10 20 "updated") [1; 2; 3; 4]%nat 2%nat).
  - exact sample_reachable.
  - exact sample_enough.
  - reflexivity.
  - apply elem_of_cons. right. apply elem_of_cons. by left.
  - reflexivity.
  - reflexivity.
Defined.

Lemma Delete_spec_witness :
  exists ks,
    stored_keys 10 sample = Some ks /\
    (forall k, k ∈ ks -> equalInterval k (ik 10 20 "") = true ->
       exists sl' ks1 ks2,
         Delete 10 sample (ik 10 20 "") = Some (sl', Some k) /\
         sl_length sl' = sl_length sample - 1 /\
         ks = ks1 ++ k :: ks2 /\
         forall fuel', enough sl' fuel' -> stored_keys fuel' sl' = Some (ks1 ++ ks2)) /\
    ((forall k, k ∈ ks -> equalInterval k (ik 10 20 "") = false) ->
     Delete 10 sample (ik 10 20 "") = Some (sample, None)).
Proof.
  exact (Delete_spec sample 10 (ik 10 20 "") sample_reachable sample_enough).
Defined.

Lemma Overlaps_pagination_witness :
  exists full,
    Overlaps 10 sample (ik 1 105 "") {| Offset := 0; Limit := 0 |} = Some full /\
    Overlaps 10 sample (ik 1 105 "") {| Offset := 1; Limit := 2 |}
    = Some (page 1 2 full).
Proof.
  apply (Overlaps_pagination sample 10 (ik 1 105 "") 1 2 sample_reachable
           sample_enough); lia.
Defined.

Lemma Get_spec_witness :
  exists ks,
    stored_keys 10 sample = Some ks /\
    (forall k, k ∈ ks -> equalInterval k (ik 10 20 "") = true ->
               Get 10 sample (ik 10 20 "") = Some (Some k)) /\
    ((forall k, k ∈ ks -> equalInterval k (ik 10 20 "") = false) ->
     Get 10 sample (ik 10 20 "") = Some None) /\
    (forall fd sl' r fuel',
       Delete fd sample (ik 10 20 "") = Some (sl', r) -> enough sl' fuel' ->
       Get fuel' sl' (ik 10 20 "") = Some None).
Proof.
  exact (Get_spec sample 10 (ik 10 20 "") sample_reachable sample_enough).
Defined.

(** ** C8: interval construction *)

(** C8 as stated fails: an invalid interval makes [NewIntervalKey] panic;
    no [error] value is returned. *)
Lemma NewIntervalKey_negative_panics :
  NewIntervalKey (-5) 10 "key" = Panic invalid_interval_msg /\
  ~ typed_failure (NewIntervalKey (-5) 10 "key").
Proof. split; [reflexivity|]. intros [e He]. discriminate He. Qed.

(** C8, amended.  Constructing an interval with [Start < 0], [End < 0] or
    [Start > End] panics with the package's message, as the tests
    [TestNegativeIntervalPanic] and [TestEndBeforeStartIntervalPanic]
    expect; constructing one with [0 <= Start <= End] returns the key with
    the given bounds and payload. *)
Theorem NewIntervalKey_spec (start end_ : Z) (key : string) :
  (start < 0 \/ end_ < 0 \/ start > end_ ->
   NewIntervalKey start end_ key = Panic invalid_interval_msg) /\
  (0 <= start <= end_ ->
   NewIntervalKey start end_ key = Ok {| Start := start; End := end_; Key := key |}).
Proof.
  unfold NewIntervalKey. rewrite Z.gtb_ltb.
  destruct (Z.ltb_spec start 0), (Z.ltb_spec end_ 0), (Z.ltb_spec end_ start);
    simpl; split; intros; first [done|lia].
Qed.

Lemma NewIntervalKey_spec_witness :
  NewIntervalKey (-5) 10 "key" = Panic invalid_interval_msg /\
  NewIntervalKey 10 5 "key" = Panic invalid_interval_msg /\
  NewIntervalKey 5 10 "key" = Ok (ik 5 10 "key").
Proof.
  split; [|split].
  - apply (proj1 (NewIntervalKey_spec (-5) 10 "key")). lia.
  - apply (proj1 (NewIntervalKey_spec 10 5 "key")). lia.
  - apply (proj2 (NewIntervalKey_spec 5 10 "key")). lia.
Defined.

(** ** C2: what [Overlaps] returns *)

(** C2 fails on the code.  The scan starts on the node on which the search
    halts.  When that node is the head, its placeholder key [(0, 0)] is
    tested like a stored key and is returned for a query that starts at 0;
    and a stored interval ordered before the last stored interval below
    the query is never visited, although it may overlap the query. *)
Theorem Overlaps_head_and_missed :
  (exists sl,
     (sl0 ← New NewNodePool test_draws; insert_all 10 test_keys sl0) = Some sl /\
     stored_keys 10 sl = Some test_keys /\
     Overlaps 10 sl (ik 0 7 "") no_paging = Some [zeroKey; ik 5 9 "test-1"]) /\
  (exists sl,
     New NewNodePool test_draws = Some sl /\
     stored_keys 10 sl = Some [] /\
     Overlaps 10 sl (ik 0 5 "") no_paging = Some [zeroKey]) /\
  (exists sl,
     (sl0 ← New NewNodePool test_draws;
      insert_all 10 [ik 1 100 "a"; ik 2 3 "b"] sl0) = Some sl /\
     stored_keys 10 sl = Some [ik 1 100 "a"; ik 2 3 "b"] /\
     Overlaps 10 sl (ik 50 60 "") no_paging = Some []).
Proof.
  split; [|split]; eexists; (split; [vm_compute; reflexivity|]);
    split; vm_compute; reflexivity.
Qed.

(** ** C3: [maxLevel] after [Delete] *)

(** C3 fails on the code.  Deleting the last node of a list whose height
    is 3 leaves [maxLevel = 0]: at level 0 the test
    [sl.maxLevel > i && sl.maxLevel > 1] holds, the head has lost its
    successor, and [maxLevel] is set to [i = 0]. *)
Theorem Delete_last_node_maxLevel_zero :
  exists sl1 sl2 sl3 sl4 sl5,
    New NewNodePool test_draws = Some sl1 /\
    Insert 10 sl1 (ik 5 9 "test-1") = Some (sl2, None) /\
    Insert 10 sl2 (ik 10 20 "test-2") = Some (sl3, None) /\
    sl_maxLevel sl3 = 3 /\
    Delete 10 sl3 (ik 5 9 "") = Some (sl4, Some (ik 5 9 "test-1")) /\
    sl_maxLevel sl4 = 3 /\
    Delete 10 sl4 (ik 10 20 "") = Some (sl5, Some (ik 10 20 "test-2")) /\
    sl_length sl5 = 0 /\ sl_maxLevel sl5 = 0.
Proof.
  do 5 eexists.
  split; [vm_compute; reflexivity|].
  split; [vm_compute; reflexivity|].
  split; [vm_compute; reflexivity|].
  split; [vm_compute; reflexivity|].
  split; [vm_compute; reflexivity|].
  split; [vm_compute; reflexivity|].
  split; [vm_compute; reflexivity|].
  split; vm_compute; reflexivity.
Qed.

(** * Further properties of the package *)

(** ** The order on intervals *)

(** X1.  [less] is a strict total order on intervals up to
    [equalInterval]: it is irreflexive, transitive and asymmetric, and two
    keys are unordered exactly when they have the same [Start] and [End],
    whatever their payloads. *)
Theorem less_strict_total_order :
  (forall a, less a a = false) /\
  (forall a b c, less a b = true -> less b c = true -> less a c = true) /\
  (forall a b, less a b = true -> less b a = false) /\
  (forall a b, less a b = false /\ less b a = false <-> equalInterval a b = true).
Proof.
  split_and!.
  - apply less_irrefl.
  - apply less_trans.
  - intros a b Hab. apply less_spec in Hab. apply less_false. lia.
  - intros a b. split.
    + intros [H1 H2]. by apply less_trichotomy.
    + intros E. apply equalInterval_spec in E. split; apply less_false; lia.
Qed.

(** ** [randomLevel] *)

Lemma randomLevel_loop_spec k : forall g level,
  1 <= level <= MaxLevel -> (Z.to_nat (MaxLevel - level) <= k)%nat ->
  let r := randomLevel_loop k g level in
  level <= r.1 <= MaxLevel /\
  draws r.2 = draws g /\
  cursor r.2 = (cursor g + Z.to_nat (r.1 - level) + 1)%nat /\
  (forall j, (j < Z.to_nat (r.1 - level))%nat ->
             draws g (cursor g + j)%nat < levelThreshold) /\
  (r.1 < MaxLevel ->
   levelThreshold <= draws g (cursor g + Z.to_nat (r.1 - level))%nat).
Proof.
  induction k as [|k IH]; intros g level Hl Hk; simpl;
    destruct (draws g (cursor g) <? levelThreshold) eqn:Hd;
    destruct (level <? MaxLevel) eqn:Hlt; simpl;
    apply Z.ltb_lt in Hd || apply Z.ltb_ge in Hd;
    apply Z.ltb_lt in Hlt || apply Z.ltb_ge in Hlt;
    unfold MaxLevel in Hl, Hk, Hlt |- *;
    try (replace (level - level) with 0 by lia; simpl;
         rewrite ?Nat.add_0_r;
         split; [lia|]; split; [done|]; split; [lia|]; split;
         [intros; lia|first [intros; lia | by intros]]).
  - unfold MaxLevel in IH. specialize (IH {| draws := draws g; cursor := S (cursor g) |} (level + 1)
                   ltac:(lia) ltac:(lia)).
    simpl in IH. destruct IH as (Hr & Hdr & Hc & Hbelow & Hstop).
    set (r := randomLevel_loop k _ _) in *.
    assert (Z.to_nat (r.1 - level) = S (Z.to_nat (r.1 - (level + 1)))) as -> by lia.
    split; [lia|]. split; [done|]. split; [lia|]. split.
    + intros [|j] Hj; [by rewrite Nat.add_0_r|].
      rewrite Nat.add_succ_r. apply Hbelow. lia.
    + intros Hlt'. rewrite Nat.add_succ_r. by apply Hstop.
Qed.

(** X2.  [randomLevel] returns a level between 1 and [MaxLevel] and takes
    exactly that many values from the random source: the level is one more
    than the number of leading draws below [levelThreshold], cut off at
    [MaxLevel]. *)
Theorem randomLevel_spec g :
  let level := (randomLevel g).1 in
  let g' := (randomLevel g).2 in
  1 <= level <= MaxLevel /\
  draws g' = draws g /\
  cursor g' = (cursor g + Z.to_nat level)%nat /\
  (forall j, (j < Z.to_nat level - 1)%nat ->
             draws g (cursor g + j)%nat < levelThreshold) /\
  (level < MaxLevel ->
   levelThreshold <= draws g (cursor g + (Z.to_nat level - 1))%nat).
Proof.
  unfold randomLevel.
  destruct (randomLevel_loop_spec (Z.to_nat MaxLevel) g 1)
    as (Hr & Hd & Hc & Hb & Hs); [unfold MaxLevel; lia..|].
  set (r := randomLevel_loop _ _ _) in *. cbv zeta.
  replace (Z.to_nat (r.1 - 1)) with (Z.to_nat r.1 - 1)%nat in * by lia.
  split; [lia|]. split; [done|]. split; [lia|]. by split.
Qed.

(** ** Queries read only the interval of their argument *)

Lemma equalInterval_r a b c :
  equalInterval a b = true -> equalInterval c a = equalInterval c b.
Proof.
  intros [H1 H2]%equalInterval_spec. unfold equalInterval. by rewrite H1, H2.
Qed.

Lemma advance_interval h i k k' :
  equalInterval k k' = true ->
  forall fuel n, advance fuel h i k n = advance fuel h i k' n.
Proof.
  intros E. induction fuel as [|f IH]; intros n; [done|]. simpl.
  destruct (getLevel h n i) as [lv|]; [|done]. simpl.
  destruct (next lv) as [m|]; [|done].
  destruct (h !! m) as [nm|]; [|done]. simpl.
  by rewrite (equalInterval_less_r _ _ _ E), IH.
Qed.

Lemma for_down_ext {St} (body body' : nat -> St -> option St) :
  (forall i s, body i s = body' i s) ->
  forall k s, for_down k body s = for_down k body' s.
Proof.
  intros Hb. induction k as [|k IH]; intros s; [done|]. simpl.
  rewrite Hb. destruct (body' k s); [apply IH|done].
Qed.

Lemma descend_interval fuel sl k k' :
  equalInterval k k' = true -> descend fuel sl k = descend fuel sl k'.
Proof.
  intros E. unfold descend. apply for_down_ext. intros i n.
  by apply advance_interval.
Qed.

Lemma overlaps_scan_interval h k k' p :
  equalInterval k k' = true ->
  forall fuel n count res,
    overlaps_scan fuel h k p n count res = overlaps_scan fuel h k' p n count res.
Proof.
  intros [H1 H2]%equalInterval_spec.
  induction fuel as [|f IH]; intros n count res; [done|]. simpl.
  destruct n as [a|]; [|done]. destruct (h !! a) as [nd|]; [|done]. simpl.
  rewrite H1, H2.
  destruct (Start (intervalKey nd) <=? End k'); [|done].
  destruct (End (intervalKey nd) >=? Start k').
  - destruct (count >=? Offset p).
    + destruct (negb (Limit p =? 0) && _); [done|].
      destruct (levels nd !! 0%nat); [|done]. simpl. apply IH.
    + destruct (levels nd !! 0%nat); [|done]. simpl. apply IH.
  - destruct (levels nd !! 0%nat); [|done]. simpl. apply IH.
Qed.

(** X3.  [Get], [Delete] and [Overlaps] read only [Start] and [End] of
    their argument: two arguments with the same bounds and different
    payloads give the same result and the same list, in any state. *)
Theorem queries_ignore_payload fuel sl (s e : Z) (a b : string) :
  let k := {| Start := s; End := e; Key := a |} in
  let k' := {| Start := s; End := e; Key := b |} in
  Get fuel sl k = Get fuel sl k' /\
  Delete fuel sl k = Delete fuel sl k' /\
  forall p, Overlaps fuel sl k p = Overlaps fuel sl k' p.
Proof.
  intros k k'.
  assert (E : equalInterval k k' = true).
  { apply equalInterval_spec. by split. }
  split_and!.
  - unfold Get. rewrite (descend_interval fuel sl k k' E).
    destruct (descend fuel sl k') as [n|]; [|done]. simpl.
    destruct (getLevel _ n 0) as [l0|]; [|done]. simpl.
    destruct (next l0) as [m|]; [|done].
    destruct (_ !! m) as [nd|]; [|done]. simpl.
    by rewrite (equalInterval_r _ _ _ E).
  - unfold Delete.
    rewrite (for_down_ext (delete_search fuel (arena (sl_pool sl)) k)
                          (delete_search fuel (arena (sl_pool sl)) k')).
    2:{ intros i [n np]. unfold delete_search.
        by rewrite (advance_interval _ _ _ _ E). }
    destruct (for_down _ _ _) as [[n np]|]; [|done]. simpl.
    destruct (getLevel _ n 0) as [l0|]; [|done]. simpl.
    destruct (next l0) as [m|]; [|done].
    destruct (_ !! m) as [nd|]; [|done]. simpl.
    by rewrite (equalInterval_r _ _ _ E).
  - intros p. unfold Overlaps. rewrite (descend_interval fuel sl k k' E).
    destruct (descend fuel sl k') as [n|]; [|done]. simpl.
    by apply overlaps_scan_interval.
Qed.

(** ** Offsets and limits of [Overlaps] *)

Lemma overlaps_scan_params h q o l :
  forall fuel n count res, 0 <= count ->
    overlaps_scan fuel h q {| Offset := o; Limit := l |} n count res
    = overlaps_scan fuel h q
        {| Offset := Z.max 0 o; Limit := if l <? 0 then 1 else l |} n count res.
Proof.
  induction fuel as [|f IH]; intros n count res Hc; [done|]. simpl.
  destruct n as [a|]; [|done]. destruct (h !! a) as [nd|]; [|done]. simpl.
  destruct (Start (intervalKey nd) <=? End q); [|done].
  destruct (End (intervalKey nd) >=? Start q);
    [|destruct (levels nd !! 0%nat); [simpl; by apply IH|done]].
  assert ((count >=? o) = (count >=? Z.max 0 o)) as <-.
  { destruct (Z.geb_spec count o), (Z.geb_spec count (Z.max 0 o)); lia || done. }
  destruct (count >=? o).
  - assert (negb (l =? 0) && (Z.of_nat (length (res ++ [intervalKey nd])) >=? l)
            = negb ((if l <? 0 then 1 else l) =? 0)
              && (Z.of_nat (length (res ++ [intervalKey nd]))
                  >=? (if l <? 0 then 1 else l))) as <-.
    { rewrite length_app. simpl.
      destruct (Z.ltb_spec l 0); [|done].
      destruct (Z.eqb_spec l 0); [lia|]. simpl.
      destruct (Z.geb_spec (Z.of_nat (length res + 1)) l),
               (Z.geb_spec (Z.of_nat (length res + 1)) 1); lia || done. }
    destruct (negb (l =? 0) && _); [done|].
    destruct (levels nd !! 0%nat); [|done]. simpl. apply IH. lia.
  - destruct (levels nd !! 0%nat); [|done]. simpl. apply IH. lia.
Qed.

(** X4.  In [Overlaps] a negative [Offset] acts as offset 0, and a
    negative [Limit] acts as limit 1: the scan stops at the first result
    it appends. *)
Theorem Overlaps_negative_params fuel sl q o l :
  Overlaps fuel sl q {| Offset := o; Limit := l |}
  = Overlaps fuel sl q {| Offset := Z.max 0 o; Limit := if l <? 0 then 1 else l |}.
Proof.
  unfold Overlaps. destruct (descend fuel sl q) as [n|]; [|done]. simpl.
  by apply overlaps_scan_params.
Qed.

Lemma overlaps_scan_limit h q p :
  0 < Limit p ->
  forall fuel n count res r,
    Z.of_nat (length res) < Limit p ->
    overlaps_scan fuel h q p n count res = Some r ->
    Z.of_nat (length r) <= Limit p.
Proof.
  intros Hl. induction fuel as [|f IH]; intros n count res r Hres; [done|]. simpl.
  destruct n as [a|]; [|intros [= <-]; lia].
  destruct (h !! a) as [nd|]; [|done]. simpl.
  destruct (Start (intervalKey nd) <=? End q); [|intros [= <-]; lia].
  destruct (End (intervalKey nd) >=? Start q).
  - destruct (count >=? Offset p).
    + destruct (Z.eqb_spec (Limit p) 0); [lia|]. simpl.
      destruct (Z.geb_spec (Z.of_nat (length (res ++ [intervalKey nd]))) (Limit p))
        as [Hge|Hlt].
      * intros [= <-]. rewrite length_app in *. simpl in *. lia.
      * destruct (levels nd !! 0%nat); [|done]. simpl. by apply IH.
    + destruct (levels nd !! 0%nat); [|done]. simpl. by apply IH.
  - destruct (levels nd !! 0%nat); [|done]. simpl. by apply IH.
Qed.

(** X5.  With a positive [Limit], [Overlaps] never returns more than
    [Limit] keys, in any state of the list. *)
Theorem Overlaps_limit fuel sl q p res :
  0 < Limit p -> Overlaps fuel sl q p = Some res ->
  Z.of_nat (length res) <= Limit p.
Proof.
  intros Hl. unfold Overlaps.
  destruct (descend fuel sl q) as [n|]; [|done]. simpl.
  apply overlaps_scan_limit; [done|simpl; lia].
Qed.

(** ** What [Insert] does to the stored sequence *)

Lemma below_ne key (l : list elem) :
  Forall (below key) l ->
  forall e, e ∈ l -> equalInterval (e_key e) key = false.
Proof.
  intros H e He. rewrite Forall_forall in H. specialize (H _ He).
  unfold below in H. destruct (equalInterval (e_key e) key) eqn:E; [|done].
  apply equalInterval_not_less in E. congruence.
Qed.

Lemma above_ne key (l : list elem) :
  Forall (fun e => less key (e_key e) = true) l ->
  forall e, e ∈ l -> equalInterval (e_key e) key = false.
Proof.
  intros H e He. rewrite Forall_forall in H. specialize (H _ He). simpl in H.
  destruct (equalInterval (e_key e) key) eqn:E; [|done].
  apply equalInterval_spec in E. apply less_spec in H. lia.
Qed.

Lemma sorted_around l1 (y : elem) l2 :
  StronglySorted lt_elem (l1 ++ y :: l2) ->
  Forall (below (e_key y)) l1 /\
  Forall (fun e => less (e_key y) (e_key e) = true) l2.
Proof.
  intros Hs. apply StronglySorted_app in Hs as (H12 & _ & Hs2).
  apply StronglySorted_cons in Hs2 as [Hy _]. split; [|done].
  apply Forall_forall. intros e He. apply (H12 e y He). by left.
Qed.

(** The two ways in which a call of [Insert] returns. *)
Lemma Insert_result fd els sl key sl' r :
  Inv els sl -> Insert fd sl key = Some (sl', r) ->
  (exists l1 y l2,
     els = l1 ++ y :: l2 /\ equalInterval (e_key y) key = true /\
     r = Some (e_key y) /\
     Inv (l1 ++ {| e_addr := e_addr y; e_key := key; e_lvl := e_lvl y |} :: l2) sl' /\
     sl_length sl' = sl_length sl) \/
  (exists l1 l2 n,
     els = l1 ++ l2 /\ Forall (below key) l1 /\
     Forall (fun e => less key (e_key e) = true) l2 /\
     r = None /\
     Inv (l1 ++ {| e_addr := n; e_key := key;
                   e_lvl := Z.to_nat (randomLevel (sl_PCG sl)).1 |} :: l2) sl' /\
     sl_length sl' = sl_length sl + 1).
Proof.
  intros I Hrun.
  set (F := Nat.max fd (S (length els))).
  apply (Insert_mono fd F) in Hrun; [|lia].
  destruct (partition_by_key key els (inv_sorted _ _ I)) as (l1 & l2 & Hels & H1 & H2).
  pose proof (inv_sorted _ _ I) as Hs. rewrite Hels in Hs.
  apply StronglySorted_app in Hs as (_ & _ & Hs2).
  destruct (not_below_cases key l2 Hs2 H2) as [(y & l2' & -> & Heq)|Hgt].
  - left. destruct (Insert_update F els sl key l1 y l2' I ltac:(lia) Hels Heq)
      as (nd & _ & _ & Hrun1 & I1).
    rewrite Hrun in Hrun1. injection Hrun1 as -> ->.
    exists l1, y, l2'. by split_and!.
  - right. destruct (Insert_new F els sl key l1 l2 I ltac:(lia) Hels H1 Hgt)
      as (sl1 & n & Hrun1 & I1 & Hlen1).
    rewrite Hrun in Hrun1. injection Hrun1 as -> ->.
    exists l1, l2, n. by split_and!.
Qed.

Lemma stored_keys_inv els sl fuel ks :
  Inv els sl -> enough sl fuel -> stored_keys fuel sl = Some ks ->
  ks = e_key <$> els.
Proof.
  intros I Hf Hks. pose proof (enough_length _ _ _ I Hf).
  rewrite (stored_keys_spec els sl fuel I) in Hks by lia. by injection Hks.
Qed.

Lemma absent_split els sl key :
  Inv els sl ->
  (forall e, e ∈ els -> equalInterval (e_key e) key = false) ->
  exists l1 l2, els = l1 ++ l2 /\ Forall (below key) l1 /\
                Forall (fun e => less key (e_key e) = true) l2.
Proof.
  intros I Hno.
  destruct (partition_by_key key els (inv_sorted _ _ I)) as (l1 & l2 & Hels & H1 & H2).
  pose proof (inv_sorted _ _ I) as Hs. rewrite Hels in Hs.
  apply StronglySorted_app in Hs as (_ & _ & Hs2).
  destruct (not_below_cases key l2 Hs2 H2) as [(y & l2' & -> & Heq)|Hgt]; [|eauto].
  rewrite Hno in Heq; [done|]. rewrite Hels. apply elem_of_app. right. by left.
Qed.

(** X6.  [Insert] of an interval that is not stored returns nil, adds one
    to [length] and puts the key at its place in the order: the keys
    before it are smaller, the keys after it are larger, and no other key
    moves. *)
Theorem Insert_absent sl fuel key ks :
  reachable sl -> enough sl fuel -> stored_keys fuel sl = Some ks ->
  (forall k, k ∈ ks -> equalInterval k key = false) ->
  exists sl' ks1 ks2,
    Insert fuel sl key = Some (sl', None) /\
    sl_length sl' = sl_length sl + 1 /\
    ks = ks1 ++ ks2 /\
    Forall (fun k => less k key = true) ks1 /\
    Forall (fun k => less key k = true) ks2 /\
    forall fuel', enough sl' fuel' ->
      stored_keys fuel' sl' = Some (ks1 ++ key :: ks2).
Proof.
  intros [els I]%reachable_inv Hf Hks Hno.
  pose proof (enough_length _ _ _ I Hf) as Hlen.
  apply (stored_keys_inv els) in Hks as ->; [|done..].
  destruct (absent_split els sl key I) as (l1 & l2 & Hels & H1 & H2).
  { intros e He. apply Hno. by apply list_elem_of_fmap_2. }
  destruct (Insert_new fuel els sl key l1 l2 I ltac:(lia) Hels H1 H2)
    as (sl' & n & Hrun & I' & Hlen').
  exists sl', (e_key <$> l1), (e_key <$> l2). split_and!; try done.
  - by rewrite Hels, fmap_app.
  - by apply Forall_fmap.
  - by apply Forall_fmap.
  - intros fuel' Hf'. pose proof (enough_length _ _ _ I' Hf').
    rewrite (stored_keys_spec _ sl' fuel' I') by lia.
    by rewrite fmap_app, fmap_cons.
Qed.

(** ** Operations, one after the other *)

Lemma Get_elem fuel els sl key e :
  Inv els sl -> (length els < fuel)%nat ->
  e ∈ els -> equalInterval (e_key e) key = true ->
  Get fuel sl key = Some (Some (e_key e)).
Proof.
  intros I Hf He Heq. apply list_elem_of_split in He as (l1 & l2 & Hels).
  by apply (Get_found fuel els sl key l1 e l2).
Qed.

Lemma Get_agree els sl els' sl' key fuel fuel' :
  Inv els sl -> Inv els' sl' ->
  (length els < fuel)%nat -> (length els' < fuel')%nat ->
  (forall e, equalInterval (e_key e) key = true -> e ∈ els <-> e ∈ els') ->
  Get fuel sl key = Get fuel' sl' key.
Proof.
  intros I I' Hf Hf' Hiff.
  destruct (decide (Exists (fun e => equalInterval (e_key e) key = true) els))
    as [(e & He & Heq)%Exists_exists|Hno].
  - rewrite (Get_elem fuel els sl key e I Hf He Heq).
    symmetry. apply (Get_elem fuel' els' sl' key e I' Hf'); [|done].
    by apply Hiff.
  - rewrite (Get_missing fuel els sl key I Hf).
    + symmetry. apply (Get_missing fuel' els' sl' key I' Hf').
      intros e He. destruct (equalInterval (e_key e) key) eqn:E; [|done].
      destruct Hno. apply Exists_exists. exists e. split; [|done]. by apply Hiff.
    + intros e He. destruct (equalInterval (e_key e) key) eqn:E; [|done].
      destruct Hno. apply Exists_exists. eauto.
Qed.

Lemma equalInterval_sym a b : equalInterval a b = equalInterval b a.
Proof.
  unfold equalInterval. by rewrite (Z.eqb_sym (Start a)), (Z.eqb_sym (End a)).
Qed.

Lemma equalInterval_trans_false a b c :
  equalInterval a b = true -> equalInterval c b = false ->
  equalInterval a c = false.
Proof.
  intros [H1 H2]%equalInterval_spec Hc.
  destruct (equalInterval a c) eqn:E; [|done].
  apply equalInterval_spec in E as [E1 E2].
  assert (equalInterval c b = true); [|congruence].
  apply equalInterval_spec. lia.
Qed.

(** X7.  After [Insert(key)] returns, [Get(key)] returns the inserted key,
    payload included, and [Get] of any other interval returns what it
    returned before the insertion. *)
Theorem Insert_then_Get sl fuel key sl' r fuel' :
  reachable sl -> Insert fuel sl key = Some (sl', r) -> enough sl' fuel' ->
  Get fuel' sl' key = Some (Some key) /\
  forall k fuel0, equalInterval k key = false -> enough sl fuel0 ->
                  Get fuel' sl' k = Get fuel0 sl k.
Proof.
  intros [els I]%reachable_inv Hrun Hf'.
  assert (Hrefl : equalInterval key key = true) by by apply equalInterval_spec.
  assert (Hagree : forall (l1 m l2 : list elem) z k,
            e_key z = key -> equalInterval k key = false ->
            Forall (fun e => equalInterval (e_key e) key = true) m ->
            forall e, equalInterval (e_key e) k = true ->
                      e ∈ l1 ++ z :: l2 <-> e ∈ l1 ++ m ++ l2).
  { intros l1 m l2 z k Hz Hk Hm e He.
    rewrite !elem_of_app, elem_of_cons.
    assert (e <> z).
    { intros ->. rewrite Hz, equalInterval_sym in He. congruence. }
    assert (e ∉ m).
    { intros Hin. rewrite Forall_forall in Hm. specialize (Hm _ Hin).
      rewrite (equalInterval_trans_false (e_key e) key k) in He; done. }
    tauto. }
  destruct (Insert_result fuel els sl key sl' r I Hrun)
    as [(l1 & y & l2 & Hels & Heq & _ & I' & _)
       |(l1 & l2 & n & Hels & _ & _ & _ & I' & _)];
    pose proof (enough_length _ _ _ I' Hf') as Hlen'; split.
  - exact (Get_found fuel' _ sl' key l1 _ l2 I' ltac:(lia) eq_refl Hrefl).
  - intros k fuel0 Hk Hf0. pose proof (enough_length _ _ _ I Hf0).
    apply (Get_agree _ _ _ _ k _ _ I' I); [lia..|].
    intros e He. rewrite Hels.
    apply (Hagree l1 [y] l2 _ k); [done..|by constructor|done].
  - exact (Get_found fuel' _ sl' key l1 _ l2 I' ltac:(lia) eq_refl Hrefl).
  - intros k fuel0 Hk Hf0. pose proof (enough_length _ _ _ I Hf0).
    apply (Get_agree _ _ _ _ k _ _ I' I); [lia..|].
    intros e He. rewrite Hels.
    apply (Hagree l1 [] l2 _ k); [done..|by constructor|done].
Qed.

(** X8.  [Insert] of an interval that is not stored, followed by [Delete]
    of it, gives back the inserted key and leaves the stored sequence and
    [length] as they were before the two calls. *)
Theorem Insert_then_Delete sl fuel key ks :
  reachable sl -> enough sl fuel -> stored_keys fuel sl = Some ks ->
  (forall k, k ∈ ks -> equalInterval k key = false) ->
  exists sl1 sl2,
    Insert fuel sl key = Some (sl1, None) /\
    Delete fuel sl1 key = Some (sl2, Some key) /\
    sl_length sl2 = sl_length sl /\
    stored_keys fuel sl2 = Some ks.
Proof.
  intros [els I]%reachable_inv Hf Hks Hno.
  pose proof (enough_length _ _ _ I Hf) as Hlen.
  apply (stored_keys_inv els) in Hks as ->; [|done..].
  destruct (absent_split els sl key I) as (l1 & l2 & Hels & H1 & H2).
  { intros e He. apply Hno. by apply list_elem_of_fmap_2. }
  destruct (Insert_new fuel els sl key l1 l2 I ltac:(lia) Hels H1 H2)
    as (sl1 & n & Hrun & I1 & Hlen1).
  assert (Hl : length els = (length l1 + length l2)%nat)
    by by rewrite Hels, length_app.
  set (y := {| e_addr := n; e_key := key; e_lvl := _ |}) in I1.
  assert (Hfl : (length (l1 ++ y :: l2) < fuel)%nat)
    by (rewrite length_app; simpl; lia).
  assert (Hrefl : equalInterval (e_key y) key = true) by by apply equalInterval_spec.
  destruct (Delete_found fuel _ sl1 key l1 y l2 I1 Hfl eq_refl Hrefl)
    as (sl2 & Hdel & I2 & Hlen2 & _).
  exists sl1, sl2. split_and!; [done|done|lia|].
  rewrite (stored_keys_spec _ sl2 fuel I2) by (rewrite length_app; lia).
  by rewrite Hels.
Qed.

(** X9.  [Delete] of a stored interval, followed by [Insert] of the key it
    returned, leaves the stored sequence and [length] as they were before
    the two calls. *)
Theorem Delete_then_Insert sl fuel key k sl1 :
  reachable sl -> enough sl fuel -> Delete fuel sl key = Some (sl1, Some k) ->
  exists sl2,
    Insert fuel sl1 k = Some (sl2, None) /\
    sl_length sl2 = sl_length sl /\
    stored_keys fuel sl2 = stored_keys fuel sl.
Proof.
  intros [els I]%reachable_inv Hf Hdel.
  pose proof (enough_length _ _ _ I Hf) as Hlen.
  destruct (Delete_result fuel els sl key sl1 _ I Hdel)
    as [(? & _)|(l1 & y & l2 & Hels & Heq & [= ->] & I1 & Hlen1 & _)]; [done|].
  pose proof (inv_sorted _ _ I) as Hs. rewrite Hels in Hs.
  destruct (sorted_around _ _ _ Hs) as [H1 H2].
  assert (Hl : length els = (length l1 + S (length l2))%nat)
    by by rewrite Hels, length_app.
  assert (Hfl : (length (l1 ++ l2) < fuel)%nat) by (rewrite length_app; lia).
  destruct (Insert_new fuel _ sl1 (e_key y) l1 l2 I1 Hfl eq_refl H1 H2)
    as (sl2 & n & Hrun & I2 & Hlen2).
  exists sl2. split_and!; [done|lia|].
  rewrite (stored_keys_spec _ sl2 fuel I2)
    by (rewrite length_app; simpl; lia).
  rewrite (stored_keys_spec els sl fuel I) by lia.
  by rewrite Hels, !fmap_app, !fmap_cons.
Qed.

(** X10.  [length] is never negative and is the number of keys on the base
    level, in every state that calls of [Insert] and [Delete] lead to. *)
Theorem length_counts_keys sl fuel :
  reachable sl -> enough sl fuel ->
  exists ks, stored_keys fuel sl = Some ks /\
             sl_length sl = Z.of_nat (length ks).
Proof.
  intros [els I]%reachable_inv Hf.
  pose proof (enough_length _ _ _ I Hf) as Hlen.
  exists (e_key <$> els). split.
  - apply stored_keys_spec; [done|lia].
  - rewrite length_fmap. apply (inv_length _ _ I).
Qed.

(** X11.  A query built by [NewIntervalQuery] from the bounds of a stored
    key finds that key: the constructor returns a key with the empty
    payload, and [Get] of it returns the stored key with its payload. *)
Theorem NewIntervalQuery_finds sl fuel ks k :
  reachable sl -> enough sl fuel -> stored_keys fuel sl = Some ks ->
  k ∈ ks -> 0 <= Start k <= End k ->
  exists q, NewIntervalQuery (Start k) (End k) = Ok q /\
            Key q = EmptyString /\
            Get fuel sl q = Some (Some k).
Proof.
  intros [els I]%reachable_inv Hf Hks Hk Hb.
  pose proof (enough_length _ _ _ I Hf) as Hlen.
  apply (stored_keys_inv els) in Hks as ->; [|done..].
  apply list_elem_of_fmap in Hk as (e & -> & He).
  exists {| Start := Start (e_key e); End := End (e_key e); Key := "" |}.
  split_and!; [|done|].
  - unfold NewIntervalQuery, NewIntervalKey.
    destruct (Z.ltb_spec (Start (e_key e)) 0); [lia|].
    destruct (Z.ltb_spec (End (e_key e)) 0); [lia|].
    destruct (Z.gtb_spec (Start (e_key e)) (End (e_key e))); [lia|done].
  - apply (Get_elem fuel els sl _ e I); [lia|done|].
    by apply equalInterval_spec.
Qed.

(** ** What [Overlaps] returns *)

Lemma scan_keys_sublist q p : forall ks count res,
  exists r, scan_keys q p ks count res = res ++ r /\ sublist r (matches q ks).
Proof.
  induction ks as [|k ks IH]; intros count res; simpl.
  - exists []. by rewrite app_nil_r.
  - destruct (Start k <=? End q); [|exists []; by rewrite app_nil_r].
    destruct (End k >=? Start q); [|apply IH].
    destruct (count >=? Offset p).
    + destruct (negb (Limit p =? 0) && _).
      * exists [k]. split; [done|]. apply sublist_skip, sublist_nil_l.
      * destruct (IH (count + 1) (res ++ [k])) as (r & -> & Hr).
        exists (k :: r). rewrite <- app_assoc. split; [done|]. by apply sublist_skip.
    + destruct (IH (count + 1) res) as (r & -> & Hr).
      exists r. split; [done|]. by apply sublist_cons.
Qed.

Lemma matches_sublist_filter q ks :
  sublist (matches q ks) (filter (overlaps_query q) ks).
Proof.
  induction ks as [|k ks IH]; simpl; [done|]. rewrite filter_cons.
  unfold overlaps_query at 1.
  destruct (Z.leb_spec (Start k) (End q)); [|case_decide; [lia|apply sublist_nil_l]].
  destruct (Z.geb_spec (End k) (Start q)); case_decide; try lia; [|done].
  by apply sublist_skip.
Qed.

Lemma filter_none {A} (P : A -> Prop) `{!forall x, Decision (P x)} (l : list A) :
  Forall (fun x => ~ P x) l -> filter P l = [].
Proof.
  induction 1 as [|x l Hx _ IH]; [done|]. rewrite filter_cons.
  by case_decide.
Qed.

Lemma matches_filter q ks :
  StronglySorted key_lt ks -> matches q ks = filter (overlaps_query q) ks.
Proof.
  induction ks as [|k ks IH]; intros Hs; simpl; [done|].
  apply StronglySorted_cons in Hs as [Hk Hs]. rewrite filter_cons.
  unfold overlaps_query at 1.
  destruct (Z.leb_spec (Start k) (End q)).
  - destruct (Z.geb_spec (End k) (Start q)); case_decide; try lia;
      by rewrite IH.
  - case_decide; [lia|]. symmetry. apply filter_none.
    eapply Forall_impl; [exact Hk|]. intros k' Hk' [? _].
    unfold key_lt in Hk'. lia.
Qed.

(** X12.  With a query that starts above 0, whatever [Overlaps] returns is
    a subsequence of the stored keys that overlap the query: every result
    is stored and overlaps, results come in ascending order and none is
    repeated, for every offset and limit. *)
Theorem Overlaps_sound sl fuel q p :
  reachable sl -> enough sl fuel -> 0 < Start q ->
  exists ks res,
    stored_keys fuel sl = Some ks /\
    Overlaps fuel sl q p = Some res /\
    sublist res (filter (overlaps_query q) ks).
Proof.
  intros [els I]%reachable_inv Hf Hq.
  pose proof (enough_length _ _ _ I Hf) as Hlen.
  destruct (Overlaps_scan fuel els sl q p I Hlen)
    as (l1 & l2 & midf & xf & Hels & _ & _ & Hmid & Hrun).
  exists (e_key <$> els). eexists. split_and!; [|exact Hrun|].
  - apply stored_keys_spec; [done|lia].
  - destruct (scan_keys_sublist q p (e_key xf :: (e_key <$> l2)) 0 [])
      as (r & -> & Hr). simpl.
    etrans; [exact Hr|]. rewrite Hels, fmap_app, filter_app.
    destruct l1 as [|e l1 _] using rev_ind.
    + destruct midf as [|? [|??]]; try done. injection Hmid as <-. simpl.
      destruct (0 <=? End q); [|apply sublist_nil_l].
      destruct (Z.geb_spec 0 (Start q)); [lia|].
      apply matches_sublist_filter.
    + rewrite app_comm_cons in Hmid. apply app_inj_tail in Hmid as [_ <-].
      rewrite fmap_app, filter_app. simpl. rewrite <- app_assoc.
      apply sublist_inserts_l.
      rewrite <- filter_app.
      exact (matches_sublist_filter q ([e_key e] ++ (e_key <$> l2))).
Qed.

(** X13.  On a list of pairwise disjoint intervals, a query that starts
    above 0 is answered exactly: the unbounded [Overlaps] returns the
    stored keys that overlap the query, all of them, in ascending
    order. *)
Theorem Overlaps_disjoint_exact sl fuel q ks :
  reachable sl -> enough sl fuel -> stored_keys fuel sl = Some ks ->
  disjoint_keys ks -> 0 < Start q <= End q ->
  Overlaps fuel sl q {| Offset := 0; Limit := 0 |}
  = Some (filter (overlaps_query q) ks).
Proof.
  intros [els I]%reachable_inv Hf Hks Hdis Hq.
  pose proof (enough_length _ _ _ I Hf) as Hlen.
  apply (stored_keys_inv els) in Hks as ->; [|done..].
  pose proof (inv_keys_sorted _ _ I) as Hs.
  destruct (Overlaps_scan fuel els sl q {| Offset := 0; Limit := 0 |} I Hlen)
    as (l1 & l2 & midf & xf & Hels & H1 & _ & Hmid & ->).
  f_equal. rewrite scan_keys_unbounded. subst els.
  rewrite fmap_app in *. rewrite filter_app.
  apply StronglySorted_app in Hs as (_ & _ & Hs2).
  destruct l1 as [|e l1 _] using rev_ind.
  - destruct midf as [|? [|??]]; try done. injection Hmid as <-. simpl.
    destruct (Z.leb_spec 0 (End q)); [|lia].
    destruct (Z.geb_spec 0 (Start q)); [lia|].
    by apply matches_filter.
  - rewrite app_comm_cons in Hmid. apply app_inj_tail in Hmid as [_ <-].
    rewrite fmap_app, filter_app, <- app_assoc, <- filter_app.
    apply Forall_app in H1 as [_ [He _]%Forall_cons]. unfold below in He.
    apply less_spec in He.
    rewrite (filter_none _ (e_key <$> l1)).
    + simpl. apply (matches_filter q ([e_key e] ++ (e_key <$> l2))).
      apply StronglySorted_app in Hdis as (_ & _ & Hd2). simpl.
      pose proof (inv_keys_sorted _ _ I) as Hs0.
      rewrite !fmap_app, <- app_assoc in Hs0.
      by apply StronglySorted_app in Hs0 as (_ & _ & ?).
    + unfold disjoint_keys in Hdis. rewrite fmap_app, <- app_assoc in Hdis.
      apply StronglySorted_app in Hdis as (Hx & _ & _).
      apply Forall_forall. intros k Hk [_ Hov].
      specialize (Hx k (e_key e) Hk ltac:(by left)). simpl in Hx. lia.
Qed.

(** ** The empty list *)

(** X14.  On a list with [length] 0, whether new or emptied by deletions,
    [Get] and [Delete] return nil and [Delete] changes nothing,
    [GetByIndex] fails with "index out of bounds" for every index, and
    [Overlaps] returns nothing or, when the query covers 0 and the offset
    is not positive, the zero key of the head. *)
Theorem empty_list_operations sl fuel key i q p :
  reachable sl -> enough sl fuel -> sl_length sl = 0 ->
  stored_keys fuel sl = Some [] /\
  Get fuel sl key = Some None /\
  Delete fuel sl key = Some (sl, None) /\
  GetByIndex fuel sl i = Some (Err (ErrIndexOutOfBounds i)) /\
  Overlaps fuel sl q p
  = Some (if (0 <=? End q) && (0 >=? Start q) && (0 >=? Offset p)
          then [zeroKey] else []).
Proof.
  intros [els I]%reachable_inv Hf Hz.
  pose proof (enough_length _ _ _ I Hf) as Hlen.
  assert (els = []) as ->.
  { pose proof (inv_length _ _ I) as Hl. rewrite Hz in Hl.
    destruct els; [done|simpl in Hl; lia]. }
  split_and!.
  - by rewrite (stored_keys_spec [] sl fuel I) by (simpl; lia).
  - apply (Get_missing fuel [] sl key I); [simpl; lia|]. by intros e ?%elem_of_nil.
  - apply (Delete_missing fuel [] sl key I); [simpl; lia|]. by intros e ?%elem_of_nil.
  - unfold GetByIndex. rewrite Hz.
    destruct (Z.ltb_spec i 0); [done|]. destruct (Z.geb_spec i 0); [done|lia].
  - destruct (Overlaps_scan fuel [] sl q p I Hlen)
      as (l1 & l2 & midf & xf & Hels & _ & _ & Hmid & ->).
    symmetry in Hels. apply app_eq_nil in Hels as [-> ->].
    destruct midf as [|? [|??]]; try done. injection Hmid as <-. simpl.
    destruct (0 <=? End q); [|done]. destruct (0 >=? Start q); [|done].
    destruct (0 >=? Offset p); [|done]. simpl.
    by destruct (negb (Limit p =? 0) && _).
Qed.

(** ** The nodes of the pool *)

Lemma setSpan_shape h n i v h' : setSpan h n i v = Some h' -> same_shape h h'.
Proof.
  intros H. destruct (getLevel h n i) as [lv|] eqn:E.
  - destruct (setSpan_spec h n i lv v E) as (h'' & H'' & U).
    rewrite H in H''. injection H'' as <-. by eapply upd_same_shape.
  - unfold setSpan in H. by rewrite E in H.
Qed.

Lemma setNext_shape h n i v h' : setNext h n i v = Some h' -> same_shape h h'.
Proof.
  intros H. destruct (getLevel h n i) as [lv|] eqn:E.
  - destruct (setNext_spec h n i lv v E) as (h'' & H'' & U).
    rewrite H in H''. injection H'' as <-. by eapply upd_same_shape.
  - unfold setNext in H. by rewrite E in H.
Qed.

Ltac shape_step :=
  match goal with
  | H : setSpan _ _ _ _ = Some _ |- _ => apply setSpan_shape in H
  | H : setNext _ _ _ _ = Some _ |- _ => apply setNext_shape in H
  end.

Lemma insert_link_shape hd len0 r n dist i h ml np h' ml' np' :
  insert_link hd len0 r n dist i (h, ml, np) = Some (h', ml', np') ->
  same_shape h h'.
Proof.
  unfold insert_link. intros H.
  repeat (case_match; simplify_option_eq); repeat shape_step;
    eauto using same_shape_trans, same_shape_refl.
Qed.

Lemma delete_unlink_shape hd n np i h ml h' ml' :
  delete_unlink hd n np i (h, ml) = Some (h', ml') -> same_shape h h'.
Proof.
  unfold delete_unlink. intros H.
  repeat (case_match; simplify_option_eq); repeat shape_step;
    eauto using same_shape_trans, same_shape_refl.
Qed.

Lemma for_up_rel {St} (R : St -> St -> Prop) (body : nat -> St -> option St) :
  (forall s, R s s) -> (forall a b c, R a b -> R b c -> R a c) ->
  (forall j s s', body j s = Some s' -> R s s') ->
  forall k i s s', for_up k i body s = Some s' -> R s s'.
Proof.
  intros Hrefl Htrans Hb. induction k as [|k IH]; intros i s s' H; simpl in H.
  - injection H as <-. apply Hrefl.
  - destruct (body i s) as [s1|] eqn:E; [|done]. simpl in H.
    eapply Htrans; [by eapply Hb|by eapply IH].
Qed.

(** What a returning [Insert] of a new node does to the pool and to the
    random source, in any state. *)
Lemma Insert_pool fuel sl key sl' :
  Insert fuel sl key = Some (sl', None) ->
  exists n p,
    newNode (sl_pool sl) (randomLevel (sl_PCG sl)).1 key = Some (n, p) /\
    same_shape (arena p) (arena (sl_pool sl')) /\
    free (sl_pool sl') = free p /\
    sl_PCG sl' = (randomLevel (sl_PCG sl)).2.
Proof.
  unfold Insert. intros H.
  destruct (for_down _ _ _) as [[[n0 np] dist]|]; [|done]. simpl in H.
  destruct (getLevel _ n0 0) as [l0|]; [|done]. simpl in H.
  destruct (match next l0 with Some _ => _ | None => _ end) as [[[xn xk]|]|];
    simpl in H; [by destruct (setKey _ _ _)| |done].
  destruct (randomLevel (sl_PCG sl)) as [rLevel g]. simpl.
  destruct (newNode _ _ _) as [[n p]|]; [|done]. simpl in H.
  destruct (for_up _ _ _ _) as [[[h ml] np']|] eqn:Hloop; [|done]. simpl in H.
  injection H as <-. exists n, p. split_and!; try done. simpl.
  apply (for_up_rel (fun s s' : list Node * Z * list (option nat) =>
                       same_shape s.1.1 s'.1.1)) in Hloop; [done|..].
  - intros s. apply same_shape_refl.
  - intros a b c. apply same_shape_trans.
  - intros j [[h1 ml1] np1] [[h2 ml2] np2]. apply insert_link_shape.
Qed.

(** What a returning [Delete] of a stored node does to the pool, in any
    state. *)
Lemma Delete_pool fuel sl key sl' k :
  Delete fuel sl key = Some (sl', Some k) ->
  exists n h nd,
    same_shape (arena (sl_pool sl)) h /\ h !! n = Some nd /\
    sl_pool sl' = put {| arena := h; free := free (sl_pool sl) |} n.
Proof.
  unfold Delete. intros H.
  destruct (for_down _ _ _) as [[n0 np]|]; [|done]. simpl in H.
  destruct (getLevel _ n0 0) as [l0|]; [|done]. simpl in H.
  destruct (match next l0 with Some _ => _ | None => _ end) as [[n|]|];
    simpl in H; [|done..].
  destruct (for_up _ _ _ _) as [[h ml]|] eqn:Hloop; [|done]. simpl in H.
  destruct (h !! n) as [nd|] eqn:Hnd; [|done]. simpl in H.
  injection H as <- _. exists n, h, nd. split_and!; try done.
  apply (for_up_rel (fun s s' : list Node * Z => same_shape s.1 s'.1)) in Hloop;
    [done|..].
  - intros s. apply same_shape_refl.
  - intros a b c. apply same_shape_trans.
  - intros j [h1 ml1] [h2 ml2]. apply delete_unlink_shape.
Qed.

Lemma is_reset_shape h h' a : same_shape h h' -> is_reset h a -> is_reset h' a.
Proof. intros (Hk & Hn & _) [? ?]. split; by rewrite ?Hk, ?Hn. Qed.

Lemma is_reset_frame (h h' : list Node) a :
  h' !! a = h !! a -> is_reset h a -> is_reset h' a.
Proof. unfold is_reset, key_of, nlev. by intros ->. Qed.

Lemma is_reset_alter (h : list Node) n nd :
  h !! n = Some nd -> is_reset (alter reset n h) n.
Proof.
  intros Hn. unfold is_reset, key_of, nlev.
  by rewrite !list_lookup_alter, !decide_True, Hn.
Qed.

Lemma inv_nodup_free els sl :
  Inv els sl ->
  NoDup (free (sl_pool sl)) /\
  forall a, a ∈ free (sl_pool sl) ->
            a <> sl_head sl /\ a ∉ e_addr <$> els.
Proof.
  intros I. pose proof (inv_nodup _ _ I) as Hnd.
  apply NoDup_cons in Hnd as [Hhd Hnd].
  apply NoDup_app in Hnd as (_ & Hdisj & Hfree). split; [done|].
  intros a Ha. split.
  - intros ->. apply Hhd, elem_of_app. by right.
  - intros Hin. by apply (Hdisj a).
Qed.

(** Every node of the pool is in the state that [reset] leaves. *)
Lemma reachable_pool_reset sl :
  reachable sl -> Forall (is_reset (arena (sl_pool sl))) (free (sl_pool sl)).
Proof.
  induction 1 as [g sl HN|sl fuel k sl' r Hreach IH Hrun
                  |sl fuel k sl' r Hreach IH Hrun|sl f Hreach IH Hf].
  - unfold New, newNode in HN. simpl in HN. injection HN as <-. constructor.
  - destruct (reachable_inv _ Hreach) as [els I].
    destruct (inv_nodup_free _ _ I) as [Hnd Hfree].
    destruct (Insert_result fuel els sl k sl' r I Hrun)
      as [(l1 & y & l2 & Hels & Heq & -> & _)|(l1 & l2 & n & _ & _ & _ & -> & _)].
    + set (F := Nat.max fuel (S (length els))).
      destruct (Insert_update F els sl k l1 y l2 I ltac:(lia) Hels Heq)
        as (nd & _ & _ & Hrun1 & _).
      rewrite (Insert_mono fuel F sl k _ ltac:(lia) Hrun) in Hrun1.
      injection Hrun1 as ->. simpl.
      apply Forall_forall. intros a Ha. rewrite Forall_forall in IH.
      apply (is_reset_frame (arena (sl_pool sl))); [|by apply IH].
      apply list_lookup_insert_ne. intros <-.
      apply (Hfree _ Ha). apply list_elem_of_fmap_2.
      rewrite Hels. apply elem_of_app. right. by left.
    + destruct (Insert_pool fuel sl k sl' Hrun) as (n' & p & Hnew & Hsh & Hfr & _).
      destruct (newNode_spec (sl_pool sl) (randomLevel (sl_PCG sl)).1 k)
        as (n1 & p1 & Hnew1 & Hpop & _ & _ & Hframe & _).
      { pose proof (randomLevel_range (sl_PCG sl)). lia. }
      { apply (inv_free _ _ I). }
      rewrite Hnew in Hnew1. injection Hnew1 as <- <-.
      rewrite Hfr. apply Forall_forall. intros a Ha.
      apply (is_reset_shape (arena p)); [done|].
      destruct (free (sl_pool sl)) as [|a0 f] eqn:Hfree0.
      * destruct Hpop as [_ Hp]. rewrite Hp in Ha. by apply elem_of_nil in Ha.
      * destruct Hpop as [-> Hp]. rewrite Hp in Ha.
        apply NoDup_cons in Hnd as [Hnotin _].
        apply Forall_cons in IH as [_ IH]. rewrite Forall_forall in IH.
        apply (is_reset_frame (arena (sl_pool sl))); [|by apply IH].
        apply Hframe. by intros ->.
  - destruct (reachable_inv _ Hreach) as [els I].
    destruct r as [k0|].
    + destruct (Delete_pool fuel sl k sl' k0 Hrun) as (n & h & nd & Hsh & Hn & ->).
      simpl. constructor.
      * by eapply is_reset_alter.
      * eapply Forall_impl; [exact IH|]. intros a Ha.
        destruct (decide (a = n)) as [->|Hne].
        -- by eapply is_reset_alter.
        -- apply (is_reset_frame h);
             [by rewrite list_lookup_alter, decide_False|].
           by apply (is_reset_shape (arena (sl_pool sl))).
    + destruct (Delete_result fuel els sl k sl' None I Hrun)
        as [(_ & -> & _)|(? & ? & ? & _ & _ & ? & _)]; done.
  - simpl. eapply sublist_Forall; [exact Hf|exact IH].
Qed.

(** X15.  A node that [Delete] handed to the pool is reset and is out of
    the list: in every state, each node of the pool has the zero key and
    no level record, is not the head, and is on no level of the list; no
    node is in the pool twice. *)
Theorem pool_nodes_reset_and_unlinked sl fuel i :
  reachable sl -> enough sl fuel -> (i < Z.to_nat MaxLevel)%nat ->
  exists nodes,
    level_nodes fuel sl i = Some nodes /\
    NoDup (free (sl_pool sl)) /\
    forall a, a ∈ free (sl_pool sl) ->
      is_reset (arena (sl_pool sl)) a /\ a <> sl_head sl /\ a ∉ nodes.
Proof.
  intros Hreach Hf Hi.
  pose proof (reachable_pool_reset sl Hreach) as Hreset.
  destruct (reachable_inv _ Hreach) as [els I].
  pose proof (enough_length _ _ _ I Hf) as Hlen.
  destruct (inv_nodup_free _ _ I) as [Hnd Hfree].
  eexists. split; [apply (level_nodes_spec els sl fuel i I); [lia|done]|].
  split; [done|]. intros a Ha. rewrite Forall_forall in Hreset.
  split_and!; [by apply Hreset|by apply Hfree|].
  intros Hin. apply (Hfree a Ha).
  apply list_elem_of_fmap in Hin as (e & -> & He).
  apply list_elem_of_fmap_2. by apply list_elem_of_filter in He as [_ ?].
Qed.

(** ** The node that [Insert] adds *)

(** X16.  [Insert] of an interval that is not stored draws one level from
    the random source, which advances past the values drawn, links one
    node with the inserted key on exactly the levels below the drawn
    level, and raises [maxLevel] to the drawn level when that is
    higher. *)
Theorem Insert_absent_node sl fuel key ks :
  reachable sl -> enough sl fuel -> stored_keys fuel sl = Some ks ->
  (forall k, k ∈ ks -> equalInterval k key = false) ->
  exists sl' n,
    Insert fuel sl key = Some (sl', None) /\
    key_of (arena (sl_pool sl')) n = Some key /\
    sl_PCG sl' = (randomLevel (sl_PCG sl)).2 /\
    sl_maxLevel sl' = Z.max (sl_maxLevel sl) (randomLevel (sl_PCG sl)).1 /\
    forall i fuel', enough sl' fuel' -> (i < Z.to_nat MaxLevel)%nat ->
      exists nodes, level_nodes fuel' sl' i = Some nodes /\
                    (n ∈ nodes <-> Z.of_nat i < (randomLevel (sl_PCG sl)).1).
Proof.
  intros [els I]%reachable_inv Hf Hks Hno.
  pose proof (enough_length _ _ _ I Hf) as Hlen.
  apply (stored_keys_inv els) in Hks as ->; [|done..].
  destruct (absent_split els sl key I) as (l1 & l2 & Hels & H1 & H2).
  { intros e He. apply Hno. by apply list_elem_of_fmap_2. }
  destruct (Insert_new fuel els sl key l1 l2 I ltac:(lia) Hels H1 H2)
    as (sl' & n & Hrun & I' & Hlen').
  destruct (Insert_pool fuel sl key sl' Hrun) as (_ & _ & _ & _ & _ & Hg).
  pose proof (randomLevel_range (sl_PCG sl)) as Hr.
  set (r := (randomLevel (sl_PCG sl)).1) in *.
  set (y := {| e_addr := n; e_key := key; e_lvl := Z.to_nat r |}) in *.
  assert (Hy : y ∈ l1 ++ y :: l2) by (apply elem_of_app; right; by left).
  exists sl', n. split_and!; [done| |done| |].
  - pose proof (inv_shape _ _ I') as Hsh. rewrite Forall_forall in Hsh.
    destruct (Hsh y) as [Hk _]; [by right|done].
  - destruct (inv_max _ _ I') as [->|[Hnil _]];
      [|by destruct l1]. rewrite height_app. simpl.
    destruct (inv_max _ _ I) as [Hm|[Hnil Hm]]; rewrite Hm.
    + rewrite Hels, height_app. lia.
    + rewrite Hels in Hnil. apply app_eq_nil in Hnil as [-> ->]. simpl. lia.
  - intros i fuel' Hf' Hi. pose proof (enough_length _ _ _ I' Hf').
    eexists. split; [apply (level_nodes_spec _ sl' fuel' i I'); [lia|done]|].
    split.
    + intros (e & Hn & He)%list_elem_of_fmap.
      apply list_elem_of_filter in He as [Hocc He].
      assert (e = y) as ->; [|unfold occupies in Hocc; simpl in Hocc; lia].
      pose proof (inv_nodup_els _ _ I') as Hnd.
      rewrite fmap_cons in Hnd. apply NoDup_cons in Hnd as [_ Hnd].
      apply list_elem_of_lookup in He as [j Hj].
      apply list_elem_of_lookup in Hy as [j' Hj'].
      assert (j = j'); [|congruence].
      apply (NoDup_lookup _ _ _ n Hnd); rewrite list_lookup_fmap.
      * by rewrite Hj, Hn.
      * by rewrite Hj'.
    + intros Hlt. apply list_elem_of_fmap. exists y. split; [done|].
      apply list_elem_of_filter. split; [|done]. unfold occupies. simpl. lia.
Qed.

(** ** [Print] *)

Lemma print_level_chain h i : forall fuel n w,
  print_level fuel h i n w
  = (l ← chain fuel h i n;
     v ← mapM (fun a => k ← key_of h a; lv ← getLevel h a i; Some (k, span lv)) l;
     Some (w ++ ((fun ks => print_node ks.1 ks.2) <$> v))).
Proof.
  set (g := fun a => k ← key_of h a; lv ← getLevel h a i; Some (k, span lv)).
  induction fuel as [|f IH]; intros [a|] w; simpl; rewrite ?app_nil_r; try done.
  destruct (getLevel h a i) as [lv|] eqn:Hg; unfold getLevel in Hg;
    destruct (h !! a) as [nd|] eqn:Ha; simpl in Hg |- *; try done;
    rewrite Hg; simpl; [|done].
  rewrite IH. destruct (chain f h i (next lv)) as [l|]; simpl; [|done].
  assert (g a = Some (intervalKey nd, span lv)) as ->.
  { unfold g, key_of, getLevel. rewrite Ha. simpl. by rewrite Hg. }
  simpl. destruct (mapM g l) as [v|]; simpl; [|done].
  by rewrite <- app_assoc.
Qed.

Lemma Print_lines fuel sl view : forall k w,
  (forall i, (i < k)%nat -> level_view fuel sl i = Some (view i)) ->
  for_down k
    (fun i w =>
       let w := w ++ [("Level " ++ fmt_d (Z.of_nat i + 1) ++ ": ")%string] in
       w ← print_level fuel (arena (sl_pool sl)) i (Some (sl_head sl)) w;
       Some (w ++ [("nil" ++ newline)%string])) w
  = Some (w ++ print_lines k view).
Proof.
  induction k as [|k IH]; intros w Hv; simpl; [by rewrite app_nil_r|].
  rewrite print_level_chain.
  pose proof (Hv k ltac:(lia)) as Hk. unfold level_view in Hk.
  destruct (chain _ _ _ _) as [l|]; [|done]. simpl in *. rewrite Hk. simpl.
  rewrite IH by (intros; apply Hv; lia).
  f_equal. by rewrite <- !app_assoc.
Qed.

Lemma mapM_view h i : forall l,
  slice h i l [] -> Forall (shaped h) l ->
  mapM (fun a => k ← key_of h a; lv ← getLevel h a i; Some (k, span lv))
       (e_addr <$> filter (occupies i) l)
  = Some (view_of i l).
Proof.
  induction l as [|e l IH]; intros Hs Hsh; [done|].
  destruct Hs as [He Hs]. apply Forall_cons in Hsh as [[Hk _] Hsh].
  rewrite filter_cons. simpl. case_decide; [|by apply IH].
  simpl. rewrite Hk. simpl. rewrite (He ltac:(done)). simpl.
  change (list_fmap elem nat e_addr (filter (occupies i) l))
    with (e_addr <$> filter (occupies i) l).
  rewrite (IH Hs Hsh). simpl. by rewrite app_nil_r.
Qed.

Lemma level_view_spec els sl fuel i :
  Inv els sl -> (length els < fuel)%nat -> Z.of_nat i < sl_maxLevel sl ->
  level_view fuel sl i = Some (view_of i (headElem (sl_head sl) :: els)).
Proof.
  intros I Hf Hi. unfold level_view.
  pose proof (inv_maxLevel_range _ _ I) as Hr. unfold MaxLevel in Hr.
  pose proof (inv_slice _ _ I i Hi) as Hs.
  assert (Hocc : (i < e_lvl (headElem (sl_head sl)))%nat) by (simpl; unfold MaxLevel; lia).
  pose proof (chain_spec _ i _ fuel Hs ltac:(simpl; lia)) as Hc.
  simpl in Hc. destruct (Nat.ltb_spec i (Z.to_nat MaxLevel)); [|unfold MaxLevel in *; lia].
  rewrite Hc. simpl.
  apply (mapM_view _ i (headElem (sl_head sl) :: els) Hs (inv_shape _ _ I)).
Qed.

Lemma level_view_total els sl fuel i :
  Inv els sl -> (length els < fuel)%nat -> (i < Z.to_nat MaxLevel)%nat ->
  is_Some (level_view fuel sl i).
Proof.
  intros I Hf Hi.
  destruct (Z.lt_ge_cases (Z.of_nat i) (sl_maxLevel sl)) as [Hlt|Hge].
  - rewrite (level_view_spec els sl fuel i I Hf Hlt). eauto.
  - destruct (inv_top _ _ I i Hge Hi) as (lv & Hlv & Hnext).
    pose proof (inv_shape _ _ I) as Hsh.
    apply Forall_cons in Hsh as [[Hk _] _]. simpl in Hk.
    unfold level_view. destruct fuel as [|f]; [lia|]. simpl.
    rewrite Hlv. simpl. rewrite Hnext. destruct f; simpl; rewrite Hk; simpl;
      rewrite Hlv; simpl; eauto.
Qed.

Lemma Print_view sl fuel :
  reachable sl -> enough sl fuel ->
  exists view,
    (forall i, Z.of_nat i < Z.max 1 (sl_maxLevel sl) ->
               level_view fuel sl i = Some (view i)) /\
    forall w startLevel,
      Print fuel sl w startLevel
      = Some (w ++ print_lines
                     (Z.to_nat (Z.max 1 (Z.min startLevel (sl_maxLevel sl))))
                     view).
Proof.
  intros [els I]%reachable_inv Hf.
  pose proof (enough_length _ _ _ I Hf) as Hlen.
  pose proof (inv_maxLevel_range _ _ I) as Hr. unfold MaxLevel in Hr.
  exists (fun i => default [] (level_view fuel sl i)).
  assert (Hv : forall i, Z.of_nat i < Z.max 1 (sl_maxLevel sl) ->
            level_view fuel sl i
            = Some (default [] (level_view fuel sl i))).
  { intros i Hi.
    destruct (level_view_total els sl fuel i I) as [v ->];
      [lia|unfold MaxLevel; lia|done]. }
  split; [done|]. intros w s. unfold Print.
  assert ((if (if s >? sl_maxLevel sl then sl_maxLevel sl else s) <? 1 then 1
           else if s >? sl_maxLevel sl then sl_maxLevel sl else s)
          = Z.max 1 (Z.min s (sl_maxLevel sl))) as ->.
  { destruct (Z.gtb_spec s (sl_maxLevel sl));
      [destruct (Z.ltb_spec (sl_maxLevel sl) 1)|destruct (Z.ltb_spec s 1)]; lia. }
  apply Print_lines. intros i Hi. apply Hv. lia.
Qed.

(** X17.  [Print] returns on every list that calls of [Insert] and
    [Delete] lead to, for every [startLevel]: it never indexes a node
    beyond its level records and never loops.  It writes the levels from
    [min(startLevel, maxLevel)], but at least 1, down to 1, and the line of
    a level lists the head and the nodes of the level with their spans. *)
Theorem Print_spec sl fuel :
  reachable sl -> enough sl fuel ->
  exists view,
    (forall i, Z.of_nat i < Z.max 1 (sl_maxLevel sl) ->
               level_view fuel sl i = Some (view i)) /\
    forall w startLevel,
      Print fuel sl w startLevel
      = Some (w ++ print_lines
                     (Z.to_nat (Z.max 1 (Z.min startLevel (sl_maxLevel sl))))
                     view).
Proof. apply Print_view. Qed.

Lemma view_of_base x l :
  Forall (fun e => (1 <= e_lvl e)%nat) (x :: l) ->
  view_of 0 (x :: l) = base_view (e_key x) (e_key <$> l).
Proof.
  revert x. induction l as [|y l IH]; intros x Hl; simpl.
  - apply Forall_cons in Hl as [Hx _].
    case_decide as Ho; unfold occupies in Ho; [done|lia].
  - apply Forall_cons in Hl as [Hx Hl]. pose proof Hl as Hl'.
    apply Forall_cons in Hl' as [Hy _].
    specialize (IH y Hl). simpl in IH.
    destruct (decide (occupies 0 x)) as [_|Ho]; [|unfold occupies in Ho; lia].
    rewrite IH. destruct (Nat.ltb_spec 0 (e_lvl y)); [reflexivity|lia].
Qed.

(** X18.  On a list with [maxLevel >= 1], [Print] with a [startLevel] of
    at most 1 writes the one line of level 1: the head with the zero key,
    then every stored key in ascending order, each with span 1 but the
    last, which has span 0. *)
Theorem Print_base_level sl fuel ks w startLevel :
  reachable sl -> enough sl fuel -> stored_keys fuel sl = Some ks ->
  1 <= sl_maxLevel sl -> startLevel <= 1 ->
  Print fuel sl w startLevel = Some (w ++ print_line 1 (base_view zeroKey ks)).
Proof.
  intros Hreach Hf Hks Hml Hs.
  destruct (Print_view sl fuel Hreach Hf) as (view & Hv & HP).
  rewrite HP.
  destruct (reachable_inv _ Hreach) as [els I].
  pose proof (enough_length _ _ _ I Hf) as Hlen.
  apply (stored_keys_inv els) in Hks as ->; [|done..].
  replace (Z.to_nat (Z.max 1 (Z.min startLevel (sl_maxLevel sl)))) with 1%nat by lia.
  specialize (Hv 0%nat ltac:(lia)).
  rewrite (level_view_spec els sl fuel 0 I) in Hv by lia.
  assert (view 0%nat = view_of 0 (headElem (sl_head sl) :: els)) as Hv0
    by congruence.
  cbn [print_lines]. rewrite app_nil_r, Hv0.
  rewrite (view_of_base (headElem (sl_head sl)) els); [done|].
  constructor; [simpl; unfold MaxLevel; lia|].
  eapply Forall_impl; [apply (inv_lvl _ _ I)|]. intros e He. simpl in He. lia.
Qed.

(** X21.  [Delete] of an interval leaves the result of [Get] of every
    other interval as it was. *)
Theorem Delete_then_Get sl fuel key sl' r fuel' k fuel0 :
  reachable sl -> Delete fuel sl key = Some (sl', r) ->
  enough sl' fuel' -> enough sl fuel0 -> equalInterval k key = false ->
  Get fuel' sl' k = Get fuel0 sl k.
Proof.
  intros [els I]%reachable_inv Hrun Hf' Hf0 Hk.
  pose proof (enough_length _ _ _ I Hf0).
  destruct (Delete_result fuel els sl key sl' r I Hrun)
    as [(_ & -> & _)|(l1 & y & l2 & Hels & Heq & _ & I' & _)].
  - pose proof (enough_length _ _ _ I Hf').
    apply (Get_agree els sl els sl k fuel' fuel0 I I); [lia..|done].
  - pose proof (enough_length _ _ _ I' Hf').
    apply (Get_agree _ _ _ _ k _ _ I' I); [lia..|].
    intros e He. rewrite Hels, !elem_of_app, elem_of_cons.
    assert (e <> y); [|tauto].
    intros ->. by rewrite (equalInterval_trans_false (e_key y) key k) in He.
Qed.

(** X22.  A second [Insert] with the interval of a key just inserted
    replaces that key: it returns the key inserted first, payload
    included, leaves [length] as it is, and [Get] then returns the second
    key. *)
Theorem Insert_twice sl fuel key sl1 r key' fuel1 :
  reachable sl -> Insert fuel sl key = Some (sl1, r) -> enough sl1 fuel1 ->
  equalInterval key key' = true ->
  exists sl2,
    Insert fuel1 sl1 key' = Some (sl2, Some key) /\
    sl_length sl2 = sl_length sl1 /\
    Get fuel1 sl2 key = Some (Some key').
Proof.
  intros [els I]%reachable_inv Hrun Hf1 Heq.
  assert (exists l1 y l2, e_key y = key /\ Inv (l1 ++ y :: l2) sl1)
    as (l1 & y & l2 & Hy & I1).
  { destruct (Insert_result fuel els sl key sl1 r I Hrun)
      as [(l1 & y & l2 & _ & _ & _ & I' & _)|(l1 & l2 & n & _ & _ & _ & _ & I' & _)];
      (eexists l1, _, l2; split; [|exact I']; done). }
  pose proof (enough_length _ _ _ I1 Hf1) as Hlen.
  destruct (Insert_update fuel1 _ sl1 key' l1 y l2 I1 ltac:(lia) eq_refl
              ltac:(by rewrite Hy))
    as (nd & _ & _ & Hrun2 & I2).
  eexists. split_and!; [by rewrite <- Hy|done|].
  assert (Hfl : (length (l1 ++ {| e_addr := e_addr y; e_key := key';
                                  e_lvl := e_lvl y |} :: l2) < fuel1)%nat).
  { rewrite length_app in *. simpl in *. lia. }
  refine (Get_found fuel1 _ _ key l1 _ l2 I2 Hfl eq_refl _).
  simpl. by rewrite equalInterval_sym.
Qed.

(** ** The further properties at the sample lists *)

Lemma sample_keys : stored_keys 10 sample = Some test_keys.
Proof. vm_compute. reflexivity. Qed.

Lemma test_keys_absent k :
  k ∈ test_keys -> equalInterval k (ik 25 28 "new") = false.
Proof.
  unfold test_keys. intros Hk.
  repeat (apply elem_of_cons in Hk as [->|Hk]; [reflexivity|]).
  by apply elem_of_nil in Hk.
Qed.

Lemma sample_Insert :
  Insert 10 sample (ik 25 28 "new") = Some (sample_inserted, None).
Proof. vm_compute. reflexivity. Qed.

Lemma sample_Delete :
  Delete 10 sample (ik 10 20 "") = Some (sample_deleted, Some (ik 10 20 "test-2")).
Proof. vm_compute. reflexivity. Qed.

Lemma sample_deleted_reachable : reachable sample_deleted.
Proof. exact (reach_Delete _ _ _ _ _ sample_reachable sample_Delete). Qed.

Lemma sample_empty_reachable : reachable sample_empty.
Proof. apply (reach_New test_draws). vm_compute. reflexivity. Qed.

Lemma Overlaps_limit_witness :
  Overlaps 10 sample (ik 1 105 "") {| Offset := 0; Limit := 2 |}
  = Some [ik 5 9 "test-1"; ik 10 20 "test-2"] /\
  Z.of_nat (length [ik 5 9 "test-1"; ik 10 20 "test-2"]) <= 2.
Proof.
  split; [vm_compute; reflexivity|].
  apply (Overlaps_limit 10 sample (ik 1 105 "") {| Offset := 0; Limit := 2 |}).
  - simpl. lia.
  - vm_compute. reflexivity.
Defined.

Lemma Insert_absent_witness :
  exists sl' ks1 ks2,
    Insert 10 sample (ik 25 28 "new") = Some (sl', None) /\
    sl_length sl' = sl_length sample + 1 /\
    test_keys = ks1 ++ ks2 /\
    Forall (fun k => less k (ik 25 28 "new") = true) ks1 /\
    Forall (fun k => less (ik 25 28 "new") k = true) ks2 /\
    forall fuel', enough sl' fuel' ->
      stored_keys fuel' sl' = Some (ks1 ++ ik 25 28 "new" :: ks2).
Proof.
  exact (Insert_absent sample 10 (ik 25 28 "new") test_keys sample_reachable
           sample_enough sample_keys test_keys_absent).
Defined.

Lemma Insert_then_Get_witness :
  Get 10 sample_inserted (ik 25 28 "new") = Some (Some (ik 25 28 "new")) /\
  forall k fuel0, equalInterval k (ik 25 28 "new") = false -> enough sample fuel0 ->
                  Get 10 sample_inserted k = Get fuel0 sample k.
Proof.
  apply (Insert_then_Get sample 10 (ik 25 28 "new") sample_inserted None 10
           sample_reachable sample_Insert).
  unfold enough. vm_compute. lia.
Defined.

Lemma Insert_then_Delete_witness :
  exists sl1 sl2,
    Insert 10 sample (ik 25 28 "new") = Some (sl1, None) /\
    Delete 10 sl1 (ik 25 28 "new") = Some (sl2, Some (ik 25 28 "new")) /\
    sl_length sl2 = sl_length sample /\
    stored_keys 10 sl2 = Some test_keys.
Proof.
  exact (Insert_then_Delete sample 10 (ik 25 28 "new") test_keys sample_reachable
           sample_enough sample_keys test_keys_absent).
Defined.

Lemma Delete_then_Insert_witness :
  exists sl2,
    Insert 10 sample_deleted (ik 10 20 "test-2") = Some (sl2, None) /\
    sl_length sl2 = sl_length sample /\
    stored_keys 10 sl2 = stored_keys 10 sample.
Proof.
  exact (Delete_then_Insert sample 10 (ik 10 20 "") (ik 10 20 "test-2")
           sample_deleted sample_reachable sample_enough sample_Delete).
Defined.

Lemma length_counts_keys_witness :
  exists ks, stored_keys 10 sample = Some ks /\
             sl_length sample = Z.of_nat (length ks).
Proof. exact (length_counts_keys sample 10 sample_reachable sample_enough). Defined.

Lemma NewIntervalQuery_finds_witness :
  exists q, NewIntervalQuery 10 20 = Ok q /\ Key q = EmptyString /\
            Get 10 sample q = Some (Some (ik 10 20 "test-2")).
Proof.
  apply (NewIntervalQuery_finds sample 10 test_keys (ik 10 20 "test-2")
           sample_reachable sample_enough sample_keys).
  - unfold test_keys. apply elem_of_cons. right. apply elem_of_cons. by left.
  - simpl. lia.
Defined.

Lemma Overlaps_sound_witness :
  exists ks res,
    stored_keys 10 sample = Some ks /\
    Overlaps 10 sample (ik 1 105 "") {| Offset := 1; Limit := 2 |} = Some res /\
    sublist res (filter (overlaps_query (ik 1 105 "")) ks).
Proof.
  apply (Overlaps_sound sample 10 (ik 1 105 "") {| Offset := 1; Limit := 2 |}
           sample_reachable sample_enough).
  simpl. lia.
Defined.

Lemma Overlaps_disjoint_exact_witness :
  Overlaps 10 sample (ik 8 35 "") {| Offset := 0; Limit := 0 |}
  = Some (filter (overlaps_query (ik 8 35 "")) test_keys).
Proof.
  apply (Overlaps_disjoint_exact sample 10 (ik 8 35 "") test_keys
           sample_reachable sample_enough sample_keys).
  - unfold disjoint_keys, test_keys. repeat constructor; simpl; lia.
  - simpl. lia.
Defined.

Lemma empty_list_operations_witness :
  stored_keys 10 sample_empty = Some [] /\
  Get 10 sample_empty (ik 5 9 "") = Some None /\
  Delete 10 sample_empty (ik 5 9 "") = Some (sample_empty, None) /\
  GetByIndex 10 sample_empty 0 = Some (Err (ErrIndexOutOfBounds 0)) /\
  Overlaps 10 sample_empty (ik 0 5 "") {| Offset := 0; Limit := 0 |}
  = Some [zeroKey].
Proof.
  apply (empty_list_operations sample_empty 10 (ik 5 9 "") 0 (ik 0 5 "")
           {| Offset := 0; Limit := 0 |} sample_empty_reachable).
  - unfold enough. vm_compute. lia.
  - reflexivity.
Defined.

Lemma pool_nodes_reset_and_unlinked_witness :
  exists nodes,
    level_nodes 10 sample_deleted 0 = Some nodes /\
    NoDup (free (sl_pool sample_deleted)) /\
    forall a, a ∈ free (sl_pool sample_deleted) ->
      is_reset (arena (sl_pool sample_deleted)) a /\
      a <> sl_head sample_deleted /\ a ∉ nodes.
Proof.
  apply (pool_nodes_reset_and_unlinked sample_deleted 10 0 sample_deleted_reachable).
  - unfold enough. vm_compute. lia.
  - vm_compute. lia.
Defined.

Lemma Insert_absent_node_witness :
  exists sl' n,
    Insert 10 sample (ik 25 28 "new") = Some (sl', None) /\
    key_of (arena (sl_pool sl')) n = Some (ik 25 28 "new") /\
    sl_PCG sl' = (randomLevel (sl_PCG sample)).2 /\
    sl_maxLevel sl' = Z.max (sl_maxLevel sample) (randomLevel (sl_PCG sample)).1 /\
    forall i fuel', enough sl' fuel' -> (i < Z.to_nat MaxLevel)%nat ->
      exists nodes, level_nodes fuel' sl' i = Some nodes /\
                    (n ∈ nodes <-> Z.of_nat i < (randomLevel (sl_PCG sample)).1).
Proof.
  exact (Insert_absent_node sample 10 (ik 25 28 "new") test_keys sample_reachable
           sample_enough sample_keys test_keys_absent).
Defined.

Lemma Print_spec_witness :
  exists view,
    (forall i, Z.of_nat i < Z.max 1 (sl_maxLevel sample) ->
               level_view 10 sample i = Some (view i)) /\
    forall w startLevel,
      Print 10 sample w startLevel
      = Some (w ++ print_lines
                     (Z.to_nat (Z.max 1 (Z.min startLevel (sl_maxLevel sample))))
                     view).
Proof. exact (Print_spec sample 10 sample_reachable sample_enough). Defined.

Lemma Print_base_level_witness :
  Print 10 sample [] 1 = Some ([] ++ print_line 1 (base_view zeroKey test_keys)).
Proof.
  apply (Print_base_level sample 10 test_keys [] 1 sample_reachable sample_enough
           sample_keys).
  - vm_compute. discriminate.
  - lia.
Defined.

Lemma Overlaps_unbounded_spec_witness :
  exists ks1 ks2,
    stored_keys 10 sample = Some (ks1 ++ ks2) /\
    Forall (fun k => less k (ik 8 35 "") = true) ks1 /\
    Forall (fun k => less k (ik 8 35 "") = false) ks2 /\
    Overlaps 10 sample (ik 8 35 "") {| Offset := 0; Limit := 0 |}
    = Some (matches (ik 8 35 "") (default zeroKey (last ks1) :: ks2)).
Proof.
  exact (Overlaps_unbounded_spec sample 10 (ik 8 35 "") sample_reachable sample_enough).
Defined.

Lemma reachable_maxLevel_witness :
  exists ks,
    stored_keys 10 sample = Some ks /\
    (ks = [] -> sl_maxLevel sample = 0 \/ sl_maxLevel sample = 1) /\
    (ks <> [] ->
     1 <= sl_maxLevel sample <= MaxLevel /\
     forall i, (i < Z.to_nat MaxLevel)%nat ->
       (level_nodes 10 sample i = Some [] <-> sl_maxLevel sample <= Z.of_nat i)).
Proof. exact (reachable_maxLevel sample 10 sample_reachable sample_enough). Defined.

Lemma Delete_then_Get_witness :
  Get 10 sample_deleted (ik 30 40 "") = Get 10 sample (ik 30 40 "").
Proof.
  apply (Delete_then_Get sample 10 (ik 10 20 "") sample_deleted
           (Some (ik 10 20 "test-2")) 10 (ik 30 40 "") 10 sample_reachable
           sample_Delete).
  - unfold enough. vm_compute. lia.
  - exact sample_enough.
  - reflexivity.
Defined.

Lemma Insert_twice_witness :
  exists sl2,
    Insert 10 sample_inserted (ik 25 28 "newer") = Some (sl2, Some (ik 25 28 "new")) /\
    sl_length sl2 = sl_length sample_inserted /\
    Get 10 sl2 (ik 25 28 "new") = Some (Some (ik 25 28 "newer")).
Proof.
  apply (Insert_twice sample 10 (ik 25 28 "new") sample_inserted None
           (ik 25 28 "newer") 10 sample_reachable sample_Insert).
  - unfold enough. vm_compute. lia.
  - reflexivity.
Defined.

Lemma less_strict_total_order_witness :
  less (ik 5 9 "a") (ik 5 10 "b") = true /\
  less (ik 5 10 "b") (ik 5 9 "a") = false /\
  equalInterval (ik 5 9 "a") (ik 5 9 "b") = true.
Proof.
  split; [reflexivity|]. split.
  - apply (proj1 (proj2 (proj2 less_strict_total_order))
             (ik 5 9 "a") (ik 5 10 "b")).
    reflexivity.
  - apply (proj2 (proj2 (proj2 less_strict_total_order))
             (ik 5 9 "a") (ik 5 9 "b")).
    split; reflexivity.
Defined.

Lemma randomLevel_spec_witness :
  (randomLevel (draws_of [0; 0; levelThreshold])).1 = 3 /\
  cursor (randomLevel (draws_of [0; 0; levelThreshold])).2 = 3%nat /\
  levelThreshold <= draws (draws_of [0; 0; levelThreshold]) 2.
Proof.
  split; [reflexivity|].
  destruct (randomLevel_spec (draws_of [0; 0; levelThreshold]))
    as (_ & _ & Hc & _ & Hstop).
  split; [exact Hc|]. apply Hstop. vm_compute. reflexivity.
Defined.
